(** * HMLR (Hierarchical Memory Lookup & Routing): a shallow embedding

    The development follows the component files of the repository:
    facts.ts (fact store), bridgeBlocks.ts (bridge block manager),
    adaptive/compressor.ts and adaptive/eviction.ts, tabulaRasa.ts,
    retrieval/hydrator.ts and chunking/index.ts.

    Conventions.
    - A Convex table is the list of its documents in insertion order; the
      [_id] of a document is its position in that list.  Documents are never
      physically deleted by the functions embedded here, so positions are
      stable.  [ctx.db.insert] appends, [ctx.db.get] is list lookup,
      [ctx.db.patch] rewrites one position and throws on a missing document.
    - [Date.now()] is an explicit argument [now] of every handler that reads
      the clock.
    - Strings are sequences of 7-bit ASCII code units.
    - JavaScript numbers are modelled by exact numbers: [Z] for counts and
      timestamps, [Q] for ratios and [R] where a square root is taken. *)

From Stdlib Require Import ZArith QArith Qround Reals Lia Lra Ascii String.
From Stdlib Require Lqa.
From stdpp Require Import strings.
From stdpp Require Import base tactics option list pretty gmap.

(** ** JavaScript strings and regular expressions *)

Module Js.

(** Code units: a string is read as the list of its code units. *)
Definition chars (s : string) : list ascii := list_ascii_of_string s.
Definition str (l : list ascii) : string := string_of_list_ascii l.

Definition code (c : ascii) : nat := nat_of_ascii c.

Definition between (lo hi : nat) (c : ascii) : bool :=
  (lo <=? code c)%nat && (code c <=? hi)%nat.

(** The class [\s] on ASCII: tab, line feed, vertical tab, form feed,
    carriage return, space. *)
Definition is_space (c : ascii) : bool :=
  between 9 13 c || (code c =? 32)%nat.

Definition is_upper (c : ascii) : bool := between 65 90 c.
Definition is_lower (c : ascii) : bool := between 97 122 c.
Definition is_digit (c : ascii) : bool := between 48 57 c.

(** The class [\w]: letters, digits and the underscore. *)
Definition is_word (c : ascii) : bool :=
  is_upper c || is_lower c || is_digit c || (code c =? 95)%nat.

(** The class [.]: everything but the line terminators. *)
Definition is_dot (c : ascii) : bool :=
  negb ((code c =? 10)%nat || (code c =? 13)%nat).

Definition lower (c : ascii) : ascii :=
  if is_upper c then ascii_of_nat (code c + 32) else c.

(** [String.prototype.toLowerCase]. *)
Definition toLowerCase (s : string) : string := str (lower <$> chars s).

(** [String.prototype.trim]. *)
Fixpoint trim_start (l : list ascii) : list ascii :=
  match l with
  | c :: l' => if is_space c then trim_start l' else l
  | [] => []
  end.
Definition trim_chars (l : list ascii) : list ascii :=
  reverse (trim_start (reverse (trim_start l))).
Definition trim (s : string) : string := str (trim_chars (chars s)).

(** [s.length]. *)
Definition len (s : string) : nat := String.length s.

(** [s.slice(0, n)]. *)
Definition slice0 (n : nat) (s : string) : string := String.substring 0 n s.

(** [arr.join(sep)]. *)
Fixpoint join (sep : string) (l : list string) : string :=
  match l with
  | [] => EmptyString
  | [x] => x
  | x :: rest => String.append x (String.append sep (join sep rest))
  end.

(** A template literal: the concatenation of its pieces. *)
Definition concat (l : list string) : string :=
  foldr String.append EmptyString l.

(** The double quote character, as a string. *)
Definition dquote : string := String (ascii_of_nat 34) EmptyString.

(** [o || d] for an optional string [o]. *)
Definition or_else (o : option string) (d : string) : string :=
  match o with
  | Some x => if (len x =? 0)%nat then d else x
  | None => d
  end.

(** The line feed, as a code unit and as a string. *)
Definition lf : ascii := ascii_of_nat 10.
Definition nl : string := String lf EmptyString.

(** [String.prototype.trimEnd]. *)
Definition trim_end_chars (l : list ascii) : list ascii :=
  reverse (trim_start (reverse l)).
Definition trimEnd (s : string) : string := str (trim_end_chars (chars s)).

(** A string with its whitespace removed: two strings are equal up to
    whitespace when these are equal. *)
Definition strip_ws_chars (l : list ascii) : list ascii :=
  filter (λ c, is_space c = false) l.
Definition strip_ws (s : string) : string := str (strip_ws_chars (chars s)).

(** [new Set(...)] as the list of its elements in insertion order. *)
Definition Set_has (s : list string) (x : string) : bool :=
  bool_decide (x ∈ s).
Definition Set_add (s : list string) (x : string) : list string :=
  if Set_has s x then s else s ++ [x].
Definition Set_of (l : list string) : list string := foldl Set_add [] l.

End Js.

(** ** Regular expressions

    The fragment of ECMAScript regular expressions that the repository
    uses, with a backtracking matcher in continuation-passing style.  A
    repetition is always over one character class, so the matcher is
    structurally recursive. *)

Module Regex.

Import Js.

Inductive re : Type :=
| Eps                        (* the empty pattern *)
| Chr (c : ascii)            (* a literal code unit *)
| Cls (p : ascii → bool)     (* one code unit of a class *)
| Bol                        (* ^ *)
| Wb                         (* \b *)
| Lb (p : ascii → bool)      (* (?<=[...]), a lookbehind of one class *)
| Seq (a b : re)
| Alt (a b : re)
| Opt (a : re)               (* a?, greedy *)
| StarG (p : ascii → bool)   (* p*, greedy *)
| PlusG (p : ascii → bool)   (* p+, greedy *)
| PlusL (p : ascii → bool)   (* p+?, lazy *)
| Grp (a : re).              (* a capturing group *)

(** A literal word; a sequence; an alternation. *)
Definition lit (s : string) : re := foldr (λ c r, Seq (Chr c) r) Eps (chars s).
Definition seq_of (l : list re) : re := foldr Seq Eps l.
Fixpoint alt_of (l : list re) : re :=
  match l with
  | [] => Cls (λ _, false)
  | [r] => r
  | r :: l' => Alt r (alt_of l')
  end.

(** Literal comparison, under the flag [i] when [ci] is set. *)
Definition chr_eq (ci : bool) (c x : ascii) : bool :=
  if ci then Ascii.eqb (lower c) (lower x) else Ascii.eqb c x.

Definition word_before (prev : option ascii) : bool :=
  match prev with Some c => is_word c | None => false end.
Definition word_after (s : list ascii) : bool :=
  match s with c :: _ => is_word c | [] => false end.

Section Matcher.
Context {A : Type} (ci : bool).

(** A continuation receives the code unit before the position, the rest
    of the input and the text of the last closed group. *)
Definition cont : Type :=
  option ascii → list ascii → option (list ascii) → option A.

Fixpoint star_g (p : ascii → bool) (k : cont) (cap : option (list ascii))
    (prev : option ascii) (s : list ascii) : option A :=
  match s with
  | x :: s' =>
      if p x
      then match star_g p k cap (Some x) s' with
           | Some r => Some r
           | None => k prev s cap
           end
      else k prev s cap
  | [] => k prev s cap
  end.

Fixpoint star_l (p : ascii → bool) (k : cont) (cap : option (list ascii))
    (prev : option ascii) (s : list ascii) : option A :=
  match k prev s cap with
  | Some r => Some r
  | None =>
      match s with
      | x :: s' => if p x then star_l p k cap (Some x) s' else None
      | [] => None
      end
  end.

Fixpoint m (r : re) (prev : option ascii) (s : list ascii)
    (cap : option (list ascii)) (k : cont) : option A :=
  match r with
  | Eps => k prev s cap
  | Chr c =>
      match s with
      | x :: s' => if chr_eq ci c x then k (Some x) s' cap else None
      | [] => None
      end
  | Cls p =>
      match s with
      | x :: s' => if p x then k (Some x) s' cap else None
      | [] => None
      end
  | Bol => match prev with None => k prev s cap | Some _ => None end
  | Wb => if xorb (word_before prev) (word_after s) then k prev s cap
          else None
  | Lb p =>
      match prev with
      | Some c => if p c then k prev s cap else None
      | None => None
      end
  | Seq a b => m a prev s cap (λ prev' s' cap', m b prev' s' cap' k)
  | Alt a b =>
      match m a prev s cap k with
      | Some x => Some x
      | None => m b prev s cap k
      end
  | Opt a =>
      match m a prev s cap k with
      | Some x => Some x
      | None => k prev s cap
      end
  | StarG p => star_g p k cap prev s
  | PlusG p =>
      match s with
      | x :: s' => if p x then star_g p k cap (Some x) s' else None
      | [] => None
      end
  | PlusL p =>
      match s with
      | x :: s' => if p x then star_l p k cap (Some x) s' else None
      | [] => None
      end
  | Grp a =>
      m a prev s cap
        (λ prev' s' _, k prev' s' (Some (take (length s - length s') s)))
  end.
End Matcher.

(** A match that starts exactly at the current position: the rest of the
    input after it. *)
Definition match_at (ci : bool) (r : re) (prev : option ascii)
    (s : list ascii) : option (list ascii) :=
  m ci r prev s None (λ _ s' _, Some s').

(** [RegExp.prototype.exec] without the flag [g]: the leftmost match; the
    result is the text of the group ([match[1]]), if a group took part. *)
Fixpoint exec_from (ci : bool) (r : re) (prev : option ascii)
    (s : list ascii) : option (option (list ascii)) :=
  match m ci r prev s None (λ _ _ cap, Some cap) with
  | Some cap => Some cap
  | None =>
      match s with
      | x :: s' => exec_from ci r (Some x) s'
      | [] => None
      end
  end.

Definition exec (ci : bool) (r : re) (s : string)
  : option (option string) :=
  match exec_from ci r None (chars s) with
  | Some (Some cap) => Some (Some (str cap))
  | Some None => Some None
  | None => None
  end.

(** [RegExp.prototype.test]. *)
Definition test (ci : bool) (r : re) (s : string) : bool :=
  match exec ci r s with Some _ => true | None => false end.

(** [String.prototype.split] with a pattern that has no group.  [piece] is
    the current piece in reverse; [skip] counts the code units of the
    separator that are still to be passed over. *)
Fixpoint split_go (ci : bool) (r : re) (prev : option ascii)
    (piece : list ascii) (skip : nat) (s : list ascii)
  : list (list ascii) :=
  match s with
  | [] => [reverse piece]
  | x :: s' =>
      match skip with
      | S n => split_go ci r (Some x) piece n s'
      | 0 =>
          match match_at ci r prev s with
          | Some rest =>
              match length s - length rest with
              | 0 =>
                  match piece with
                  | [] => split_go ci r (Some x) [x] 0 s'
                  | _ => reverse piece :: split_go ci r (Some x) [x] 0 s'
                  end
              | S n => reverse piece :: split_go ci r (Some x) [] n s'
              end
          | None => split_go ci r (Some x) (x :: piece) 0 s'
          end
      end
  end.

Definition split_chars (ci : bool) (r : re) (l : list ascii)
  : list (list ascii) :=
  match l with
  | [] => match match_at ci r None [] with Some _ => [] | None => [[]] end
  | _ => split_go ci r None [] 0 l
  end.

Definition split (ci : bool) (r : re) (s : string) : list string :=
  str <$> split_chars ci r (chars s).

(** [String.prototype.match] with the flag [g]: the texts of the
    successive matches, each search starting where the last match ended (one
    code unit further after an empty match).  [cur] is the current match
    in reverse while [skip] code units of it are still to be passed. *)
Fixpoint match_all_go (ci : bool) (r : re) (prev : option ascii)
    (cur : list ascii) (skip : nat) (s : list ascii) : list (list ascii) :=
  match skip, s with
  | S n, x :: s' =>
      match n with
      | 0 => reverse (x :: cur) :: match_all_go ci r (Some x) [] 0 s'
      | _ => match_all_go ci r (Some x) (x :: cur) n s'
      end
  | S _, [] => []
  | 0, _ =>
      match match_at ci r prev s with
      | Some rest =>
          match length s - length rest, s with
          | 0, x :: s' => [] :: match_all_go ci r (Some x) [] 0 s'
          | 0, [] => [[]]
          | S n, x :: s' =>
              match n with
              | 0 => [x] :: match_all_go ci r (Some x) [] 0 s'
              | _ => match_all_go ci r (Some x) [x] n s'
              end
          | S _, [] => []
          end
      | None =>
          match s with
          | x :: s' => match_all_go ci r (Some x) [] 0 s'
          | [] => []
          end
      end
  end.

Definition match_all (ci : bool) (r : re) (s : string) : list string :=
  str <$> match_all_go ci r None [] 0 (chars s).

(** Specification vocabulary: every code unit that [r] can consume
    satisfies [P]. *)
Fixpoint eats (ci : bool) (P : ascii → bool) (r : re) : Prop :=
  match r with
  | Eps | Bol | Wb | Lb _ => True
  | Chr c => ∀ x, chr_eq ci c x = true → P x = true
  | Cls p | StarG p | PlusG p | PlusL p => ∀ x, p x = true → P x = true
  | Seq a b | Alt a b => eats ci P a ∧ eats ci P b
  | Opt a | Grp a => eats ci P a
  end.

(** [s.replace(/[^\w\s]/g, " ")]. *)
Definition blank_punctuation (s : string) : string :=
  str ((λ c, if is_word c || is_space c then c else " "%char) <$> chars s).

End Regex.

(** ** Fact store (facts.ts) *)

Module Facts.

Inductive factCategory : Set :=
| credential | preference | policy | decision | contact | date | general.

(** A document of the [facts] table. *)
Record fact : Set := mkFact {
  key : string;
  value : string;
  category : option factCategory;
  blockId : nat;
  turnId : option string;
  evidenceSnippet : option string;
  supersededBy : option nat;
  createdAt : Z
}.

(** The arguments of [store] (one element of [storeBatch]'s array). *)
Record factData : Set := mkFactData {
  d_key : string;
  d_value : string;
  d_category : option factCategory;
  d_blockId : nat;
  d_turnId : option string;
  d_evidenceSnippet : option string
}.

(** [ctx.db.insert("facts", doc)]: the new id and the new table. *)
Definition db_insert (doc : fact) (t : list fact) : nat * list fact :=
  (length t, t ++ [doc]).

Definition set_supersededBy (n : nat) (f : fact) : fact :=
  mkFact (key f) (value f) (category f) (blockId f) (turnId f)
         (evidenceSnippet f) (Some n) (createdAt f).

(** [ctx.db.patch(id, { supersededBy: n })] on a document that exists. *)
Definition patch_supersededBy (id n : nat) (t : list fact) : list fact :=
  alter (set_supersededBy n) id t.

(** [ctx.db.query("facts").withIndex("by_key", q => q.eq("key", k)).collect()]:
    the documents with that key, oldest first, each with its [_id]. *)
Definition by_key (k : string) (t : list fact) : list (nat * fact) :=
  filter (λ p, key p.2 = k) (imap (λ i f, (i, f)) t).

(** JavaScript's [!fact.supersededBy]. *)
Definition not_superseded (f : fact) : bool :=
  match supersededBy f with None => true | Some _ => false end.

(** The loop "mark existing non-superseded facts as superseded". *)
Definition supersede_existing (newFactId : nat)
    (existingFacts : list (nat * fact)) (t : list fact) : list fact :=
  foldl (λ t p, if not_superseded p.2
                then patch_supersededBy p.1 newFactId t else t)
        t existingFacts.

Definition store (now : Z) (a : factData) (t : list fact) : nat * list fact :=
  let existingFacts := by_key (d_key a) t in
  let '(newFactId, t1) :=
    db_insert (mkFact (d_key a) (d_value a) (d_category a) (d_blockId a)
                      (d_turnId a) (d_evidenceSnippet a) None now) t in
  (newFactId, supersede_existing newFactId existingFacts t1).

Definition storeBatch (now : Z) (facts : list factData) (t : list fact)
  : list nat * list fact :=
  foldl (λ acc factData,
           let '(newFactId, t') := store now factData acc.2 in
           (acc.1 ++ [newFactId], t'))
        ([], t) facts.

Definition remove (now : Z) (factId : nat) (t : list fact) : list fact :=
  match t !! factId with
  | None => t
  | Some fact =>
      let '(deletedFactId, t1) :=
        db_insert (mkFact (key fact) "[DELETED]"%string (category fact)
                          (blockId fact) None
                          (Some "Fact was explicitly deleted"%string) None now) t in
      patch_supersededBy factId deletedFactId t1
  end.

(** [get]: the by_key index read newest first, first non-superseded row. *)
Definition get (k : string) (t : list fact) : option (nat * fact) :=
  List.find (λ p, not_superseded p.2) (reverse (by_key k t)).

(** The calls of a client of the fact store. *)
Inductive op : Set :=
| Store (now : Z) (a : factData)
| StoreBatch (now : Z) (facts : list factData)
| Remove (now : Z) (factId : nat).

Definition step (t : list fact) (o : op) : list fact :=
  match o with
  | Store now a => (store now a t).2
  | StoreBatch now facts => (storeBatch now facts t).2
  | Remove now factId => remove now factId t
  end.

Definition run (ops : list op) : list fact := foldl step [] ops.

(** The row that [store] inserts. *)
Definition new_row (now : Z) (a : factData) : fact :=
  mkFact (d_key a) (d_value a) (d_category a) (d_blockId a)
         (d_turnId a) (d_evidenceSnippet a) None now.

(** Specification vocabulary: the effect of [store]'s supersession loop on
    one row, for the key [k] and the new id [n]. *)
Definition supersede_row (k : string) (n : nat) (f : fact) : fact :=
  if decide (key f = k ∧ supersededBy f = None)
  then set_supersededBy n f else f.

(** The row that [remove] inserts for the target [fact]. *)
Definition deleted_row (now : Z) (target : fact) : fact :=
  mkFact (key target) "[DELETED]"%string (category target) (blockId target) None
         (Some "Fact was explicitly deleted"%string) None now.

(** The rows of key [k] with [supersededBy = null]. *)
Definition live (k : string) (t : list fact) : list fact :=
  filter (λ f, key f = k ∧ supersededBy f = None) t.

(** The invariant of the data model: for any key, at most one row has
    [supersededBy = null]. *)
Definition unique_live (t : list fact) : Prop :=
  ∀ k, length (live k t) ≤ 1.

(** [getByBlock]: the by_block index, every row of the block. *)
Definition getByBlock (b : nat) (t : list fact) : list (nat * fact) :=
  filter (λ p, blockId p.2 = b) (imap (λ i f, (i, f)) t).

#[global] Instance factCategory_eq_dec : EqDecision factCategory.
Proof. solve_decision. Defined.

(** [getByCategory]: the by_category index, then the live rows. *)
Definition getByCategory (c : factCategory) (t : list fact)
  : list (nat * fact) :=
  List.filter (λ p, not_superseded p.2)
    (filter (λ p, category p.2 = Some c) (imap (λ i f, (i, f)) t)).

(** The projection that [searchByKeyPrefix] returns. *)
Record factSummary : Set := mkSummary {
  s_id : nat;
  s_key : string;
  s_value : string;
  s_category : option factCategory;
  s_createdAt : Z
}.

Definition searchByKeyPrefix (prefix0 : string) (t : list fact)
  : list factSummary :=
  let prefix := Js.toLowerCase prefix0 in
  (λ p, mkSummary p.1 (key p.2) (value p.2) (category p.2) (createdAt p.2))
    <$> List.filter
          (λ p, String.prefix prefix (Js.toLowerCase (key p.2))
                && not_superseded p.2)
          (imap (λ i f, (i, f)) t).

Definition set_blockId (b : nat) (f : fact) : fact :=
  mkFact (key f) (value f) (category f) b (turnId f)
         (evidenceSnippet f) (supersededBy f) (createdAt f).

(** [updateBlockId]: every fact of the turn gets the block id; the number
    of patched facts is returned. *)
Definition updateBlockId (a_turnId : string) (a_blockId : nat)
    (t : list fact) : nat * list fact :=
  foldl (λ acc p,
           if bool_decide (turnId p.2 = Some a_turnId)
           then (S acc.1, alter (set_blockId a_blockId) p.1 acc.2)
           else acc)
        (0, t) (imap (λ i f, (i, f)) t).

(** Specification vocabulary: the effect of [updateBlockId] on one
    row. *)
Definition relink (tid : string) (b : nat) (f : fact) : fact :=
  if decide (turnId f = Some tid) then set_blockId b f else f.

(** Specification vocabulary: a call that does not [remove] a row that is
    already superseded; and a sequence of such calls, each judged on the
    table it runs on. *)
Definition targets_live (t : list fact) (o : op) : Prop :=
  match o with
  | Remove _ factId => not_superseded <$> t !! factId ≠ Some false
  | _ => True
  end.

Fixpoint all_target_live (t : list fact) (ops : list op) : Prop :=
  match ops with
  | [] => True
  | o :: ops' => targets_live t o ∧ all_target_live (step t o) ops'
  end.

End Facts.

(** ** The fact lookup of the governor (governor.ts) *)

Module Governor.

Import Js Regex.

(** [/\b[A-Z][A-Z0-9_]+\b|\b\w+\b/g]. *)
Definition key_pattern : re :=
  Alt (seq_of [Wb; Cls is_upper;
               PlusG (λ c, is_upper c || is_digit c || Ascii.eqb c "_");
               Wb])
      (seq_of [Wb; PlusG is_word; Wb]).

(** A fact as [lookupFacts] returns it. *)
Record factResult : Set := mkFactResult {
  r_key : string;
  r_value : string;
  r_category : option Facts.factCategory
}.

Definition lookupFacts (query : string) (t : list Facts.fact)
  : list factResult :=
  let words := match_all false key_pattern query in
  let uniqueWords := take 10 (Set_of words) in
  foldl (λ facts word,
           match Facts.get word t with
           | Some (_, fact) =>
               if bool_decide (Facts.value fact ≠ "[DELETED]"%string)
               then facts ++ [mkFactResult (Facts.key fact)
                                           (Facts.value fact)
                                           (Facts.category fact)]
               else facts
           | None => facts
           end)
        [] uniqueWords.

End Governor.

(** ** Bridge block manager (bridgeBlocks.ts) *)

Module BridgeBlocks.

Inductive status : Set := ACTIVE | PAUSED | CLOSED.

Global Instance status_eq_dec : EqDecision status.
Proof. solve_decision. Defined.

(** A document of the [bridgeBlocks] table. *)
Record block : Set := mkBlock {
  dayId : string;
  topicLabel : string;
  summary : option string;
  keywords : list string;
  blockStatus : status;
  prevBlockId : option nat;
  openLoops : list string;
  decisionsMade : list string;
  turnCount : nat;
  createdAt : Z;
  updatedAt : Z
}.

(** A document of the [turns] table. *)
Record turn : Set := mkTurn {
  t_blockId : nat;
  turnId : string;
  userMessage : string;
  aiResponse : string;
  t_keywords : option (list string);
  affect : option string;
  timestamp : Z
}.

(** The two tables the block mutations touch. *)
Record db : Set := mkDb {
  bridgeBlocks : list block;
  turns : list turn
}.

Definition empty : db := mkDb [] [].

(** The fields of a [ctx.db.patch] on a block; [None] leaves a field as it
    is.  The summary is itself optional in the schema. *)
Record blockPatch : Set := mkPatch {
  p_summary : option string;
  p_keywords : option (list string);
  p_status : option status;
  p_openLoops : option (list string);
  p_decisionsMade : option (list string);
  p_turnCount : option nat;
  p_updatedAt : option Z
}.

Definition no_patch : blockPatch :=
  mkPatch None None None None None None None.

Definition apply_patch (p : blockPatch) (b : block) : block :=
  mkBlock (dayId b) (topicLabel b)
          (match p_summary p with Some s => Some s | None => summary b end)
          (default (keywords b) (p_keywords p))
          (default (blockStatus b) (p_status p))
          (prevBlockId b)
          (default (openLoops b) (p_openLoops p))
          (default (decisionsMade b) (p_decisionsMade p))
          (default (turnCount b) (p_turnCount p))
          (createdAt b)
          (default (updatedAt b) (p_updatedAt p)).

(** [ctx.db.patch(id, fields)]: throws ([None]) when no document has the
    id. *)
Definition db_patch (id : nat) (p : blockPatch) (bs : list block)
  : option (list block) :=
  match bs !! id with
  | Some _ => Some (alter (apply_patch p) id bs)
  | None => None
  end.

(** [withIndex("by_status", q => q.eq("status", st)).collect()]. *)
Definition by_status (st : status) (bs : list block) : list (nat * block) :=
  filter (λ p, blockStatus p.2 = st) (imap (λ i b, (i, b)) bs).

(** [withIndex("by_block", q => q.eq("blockId", id)).collect()]. *)
Definition turns_by_block (id : nat) (ts : list turn) : list turn :=
  filter (λ t, t_blockId t = id) ts.

Definition pause_patch (now : Z) : blockPatch :=
  mkPatch None None (Some PAUSED) None None None (Some now).

(** The loop of [create]: every block read as ACTIVE is patched to PAUSED.
    Each of them exists, so no patch throws. *)
Definition pause_all (now : Z) (activeBlocks : list (nat * block))
    (bs : list block) : list block :=
  foldl (λ bs p, alter (apply_patch (pause_patch now)) p.1 bs)
        bs activeBlocks.

(** Specification vocabulary: no block becomes ACTIVE, that is, every
    ACTIVE block of [bs'] was ACTIVE, at the same id, in [bs]. *)
Definition no_new_active (bs bs' : list block) : Prop :=
  ∀ i b, bs' !! i = Some b → blockStatus b = ACTIVE →
         ∃ b0, bs !! i = Some b0 ∧ blockStatus b0 = ACTIVE.

(** Specification vocabulary: at most one block is ACTIVE, process-wide. *)
Definition one_active (bs : list block) : Prop :=
  ∀ i j b c, bs !! i = Some b → bs !! j = Some c →
             blockStatus b = ACTIVE → blockStatus c = ACTIVE → i = j.

Definition create (now : Z) (a_dayId a_topicLabel : string)
    (a_keywords : list string) (a_prevBlockId : option nat) (d : db)
  : nat * db :=
  let activeBlocks := by_status ACTIVE (bridgeBlocks d) in
  let bs := pause_all now activeBlocks (bridgeBlocks d) in
  let blockId := length bs in
  (blockId,
   mkDb (bs ++ [mkBlock a_dayId a_topicLabel None a_keywords ACTIVE
                        a_prevBlockId [] [] 0 now now])
        (turns d)).

(** The loop of [updateStatus]: the ACTIVE blocks other than [blockId]. *)
Definition pause_others (now : Z) (blockId : nat)
    (activeBlocks : list (nat * block)) (bs : list block) : list block :=
  foldl (λ bs p, if bool_decide (p.1 ≠ blockId)
                 then alter (apply_patch (pause_patch now)) p.1 bs
                 else bs)
        bs activeBlocks.

(** [updateStatus]; [None] when the final patch throws. *)
Definition updateStatus (now : Z) (blockId : nat) (st : status) (d : db)
  : option db :=
  let bs :=
    if decide (st = ACTIVE)
    then pause_others now blockId (by_status ACTIVE (bridgeBlocks d))
                      (bridgeBlocks d)
    else bridgeBlocks d in
  bs' ← db_patch blockId
           (mkPatch None None (Some st) None None None (Some now)) bs;
  Some (mkDb bs' (turns d)).

(** [updateMetadata]: a plain patch of the supplied fields. *)
Definition updateMetadata (now : Z) (blockId : nat)
    (a_summary : option string) (a_keywords a_openLoops a_decisionsMade :
      option (list string)) (d : db) : option db :=
  let updates :=
    mkPatch a_summary a_keywords None a_openLoops a_decisionsMade None
            (Some now) in
  bs' ← db_patch blockId updates (bridgeBlocks d);
  Some (mkDb bs' (turns d)).

Definition appendTurn (now : Z) (blockId : nat) (a_turnId : option string)
    (a_userMessage a_aiResponse : string)
    (a_keywords : option (list string)) (a_affect : option string) (d : db)
  : string * db :=
  let turnId := default (String.append "turn_" (pretty now)) a_turnId in
  let ts := turns d ++ [mkTurn blockId turnId a_userMessage a_aiResponse
                               a_keywords a_affect now] in
  let bs :=
    match bridgeBlocks d !! blockId with
    | Some block =>
        alter (apply_patch
                 (mkPatch None None None None None
                          (Some (turnCount block + 1)) (Some now)))
              blockId (bridgeBlocks d)
    | None => bridgeBlocks d
    end in
  (turnId, mkDb bs ts).

(** JavaScript truthiness of an optional string. *)
Definition truthy (s : option string) : bool :=
  match s with
  | Some s => negb (Js.len s =? 0)%nat
  | None => false
  end.

(** The heuristic summary of [pauseWithSummary]. *)
Definition heuristic_summary (ts : list turn) : option string :=
  match ts, last ts with
  | firstTurn :: _, Some lastTurn =>
      if (length ts =? 1)%nat
      then Some (Js.concat ["Discussion about: ";
                             Js.slice0 100 (userMessage firstTurn); "..."])
      else Some (Js.concat
             [pretty (length ts); " exchanges. Started with: "; Js.dquote;
              Js.slice0 50 (userMessage firstTurn); "..."; Js.dquote;
              " Ended with: "; Js.dquote;
              Js.slice0 50 (userMessage lastTurn); "..."; Js.dquote])
  | _, _ => None
  end.

Definition pauseWithSummary (now : Z) (blockId : nat) (d : db) : db :=
  match bridgeBlocks d !! blockId with
  | None => d
  | Some block =>
      let ts := turns_by_block blockId (turns d) in
      let summary0 :=
        if negb (truthy (summary block)) && (0 <? length ts)%nat
        then heuristic_summary ts else summary block in
      let summary1 :=
        match summary0 with
        | Some s => s
        | None => Js.concat ["Block with "; pretty (turnCount block);
                             " turns"]
        end in
      mkDb (alter (apply_patch
                     (mkPatch (Some summary1) None (Some PAUSED) None None
                              None (Some now)))
                  blockId (bridgeBlocks d))
           (turns d)
  end.

(** The [metadata] argument of [updateMetadataFromResponse]. *)
Record metadata : Set := mkMetadata {
  m_affect : option string;
  m_topics : option (list string);
  m_keywords : option (list string);
  m_summary : option string;
  m_openLoops : option (list string);
  m_decisionsMade : option (list string)
}.

(** [new Set(existing)], then [add] of every new element, then the spread
    [[...set].slice(0, n)]. *)
Definition merge (n : nat) (existing new : list string) : list string :=
  take n (foldl Js.Set_add (Js.Set_of existing) new).

Definition updateMetadataFromResponse (now : Z) (blockId : nat)
    (m : metadata) (d : db) : db :=
  match bridgeBlocks d !! blockId with
  | None => d
  | Some block =>
      let kw1 :=
        match m_keywords m with
        | Some kws => Some (merge 20 (keywords block) kws)
        | None => None
        end in
      let kw2 :=
        match m_topics m with
        | Some topics =>
            Some (merge 20 (default (keywords block) kw1)
                        (Js.toLowerCase <$> topics))
        | None => kw1
        end in
      let updates :=
        mkPatch (if truthy (m_summary m) then m_summary m else None)
                kw2 None
                (match m_openLoops m with
                 | Some loops => Some (merge 10 (openLoops block) loops)
                 | None => None
                 end)
                (match m_decisionsMade m with
                 | Some ds => Some (merge 10 (decisionsMade block) ds)
                 | None => None
                 end)
                None (Some now) in
      mkDb (alter (apply_patch updates) blockId (bridgeBlocks d)) (turns d)
  end.

(** The calls of a client of the block manager. *)
Inductive op : Set :=
| Create (now : Z) (dayId topicLabel : string) (keywords : list string)
         (prevBlockId : option nat)
| UpdateStatus (now : Z) (blockId : nat) (st : status)
| PauseWithSummary (now : Z) (blockId : nat)
| AppendTurn (now : Z) (blockId : nat) (turnId : option string)
             (userMessage aiResponse : string)
             (keywords : option (list string)) (affect : option string)
| UpdateMetadata (now : Z) (blockId : nat) (summary : option string)
                 (keywords openLoops decisionsMade : option (list string))
| UpdateMetadataFromResponse (now : Z) (blockId : nat) (m : metadata).

(** One mutation; a mutation that throws is rolled back. *)
Definition step (d : db) (o : op) : db :=
  match o with
  | Create now day label kws prev => (create now day label kws prev d).2
  | UpdateStatus now id st => default d (updateStatus now id st d)
  | PauseWithSummary now id => pauseWithSummary now id d
  | AppendTurn now id tid u a kws aff => (appendTurn now id tid u a kws aff d).2
  | UpdateMetadata now id s kws ol dm =>
      default d (updateMetadata now id s kws ol dm d)
  | UpdateMetadataFromResponse now id m => updateMetadataFromResponse now id m d
  end.

Definition run (ops : list op) (d : db) : db := foldl step d ops.

(** The calls named by the invariant of the specification. *)
Definition status_op (o : op) : bool :=
  match o with
  | Create _ _ _ _ _ | UpdateStatus _ _ _ | PauseWithSummary _ _ => true
  | _ => false
  end.

(** The ids of the ACTIVE blocks, and of those of one day. *)
Definition active_ids (bs : list block) : list nat :=
  (by_status ACTIVE bs).*1.

Definition active_of_day (day : string) (bs : list block) : list block :=
  filter (λ b, dayId b = day ∧ blockStatus b = ACTIVE) bs.

(** [getActive]: the ACTIVE blocks, those of [dayId] when the argument is
    given and truthy (an empty string is not). *)
Definition getActive (a_dayId : option string) (bs : list block)
  : list (nat * block) :=
  let blocks := by_status ACTIVE bs in
  if truthy a_dayId
  then filter (λ p, Some (dayId p.2) = a_dayId) blocks
  else blocks.

(** [withIndex("by_day", q => q.eq("dayId", day)).collect()]. *)
Definition by_day (day : string) (bs : list block) : list (nat * block) :=
  filter (λ p, dayId p.2 = day) (imap (λ i b, (i, b)) bs).

(** An element of the answer of [getMetadataByDay]. *)
Record blockMetadata : Set := mkBlockMetadata {
  bm_blockId : nat;
  bm_topicLabel : string;
  bm_summary : option string;
  bm_keywords : list string;
  bm_status : status;
  bm_openLoops : list string;
  bm_decisionsMade : list string;
  bm_turnCount : nat;
  bm_updatedAt : Z;
  isLastActive : bool
}.

(** The reducer of [getMetadataByDay]. *)
Definition later (latest : option (nat * block)) (p : nat * block)
  : option (nat * block) :=
  match latest with
  | None => Some p
  | Some l => if (updatedAt l.2 <? updatedAt p.2)%Z then Some p else latest
  end.

(** The callback of the final [map] of [getMetadataByDay]. *)
Definition metadata_of (lastActive : option (nat * block))
    (p : nat * block) : blockMetadata :=
  mkBlockMetadata p.1 (topicLabel p.2) (summary p.2) (keywords p.2)
    (blockStatus p.2) (openLoops p.2) (decisionsMade p.2)
    (turnCount p.2) (updatedAt p.2)
    (bool_decide (Some p.1 = fst <$> lastActive)).

Definition getMetadataByDay (day : string) (bs : list block)
  : list blockMetadata :=
  let blocks := by_day day bs in
  let lastActive := foldl later None blocks in
  metadata_of lastActive <$> blocks.

(** Specification vocabulary: a call that appends a turn names a block of
    the table; and a sequence of such calls, each judged on the state it
    runs on. *)
Definition targets_block (d : db) (o : op) : Prop :=
  match o with
  | AppendTurn _ blockId _ _ _ _ _ => blockId < length (bridgeBlocks d)
  | _ => True
  end.

Fixpoint all_target_blocks (d : db) (ops : list op) : Prop :=
  match ops with
  | [] => True
  | o :: ops' => targets_block d o ∧ all_target_blocks (step d o) ops'
  end.

(** Specification vocabulary: every block counts its own turns, and every
    turn belongs to a block of the table. *)
Definition turns_counted (d : db) : Prop :=
  (∀ i b, bridgeBlocks d !! i = Some b →
          turnCount b = length (turns_by_block i (turns d))) ∧
  (∀ t, t ∈ turns d → t_blockId t < length (bridgeBlocks d)).

End BridgeBlocks.

(** ** Chat orchestrator: routing scenarios (chat.ts) *)

Module Orchestrator.

Import Js Regex BridgeBlocks.

Definition stopWords : list string :=
  [ "the"; "a"; "an"; "is"; "are"; "was"; "were"; "be"; "been"; "being";
    "have"; "has"; "had"; "do"; "does"; "did"; "will"; "would"; "could";
    "should"; "may"; "might"; "must"; "shall"; "can"; "to"; "of"; "in";
    "for"; "on"; "with"; "at"; "by"; "from"; "as"; "into"; "through";
    "during"; "before"; "after"; "above"; "below"; "between"; "under";
    "again"; "further"; "then"; "once"; "here"; "there"; "when"; "where";
    "why"; "how"; "all"; "each"; "few"; "more"; "most"; "other"; "some";
    "such"; "no"; "nor"; "not"; "only"; "own"; "same"; "so"; "than";
    "too"; "very"; "just"; "and"; "but"; "if"; "or"; "because"; "until";
    "while"; "about"; "against"; "i"; "me"; "my"; "myself"; "we"; "our";
    "you"; "your"; "he"; "him"; "his"; "she"; "her"; "it"; "its";
    "they"; "them"; "their"; "what"; "which"; "who"; "this"; "that"
  ]%string.

(** [/\b[a-z]{3,}\b/g]. *)
Definition word_pattern : re :=
  seq_of [Wb; Cls is_lower; Cls is_lower; PlusG is_lower; Wb].

(** [freq.set(word, (freq.get(word) ?? 0) + 1)] on a [Map], which keeps
    its keys in the order of their first insertion. *)
Fixpoint freq_set (word : string) (freq : list (string * nat))
  : list (string * nat) :=
  match freq with
  | [] => [(word, 1)]
  | e :: freq' => if decide (e.1 = word) then (e.1, e.2 + 1) :: freq'
                  else e :: freq_set word freq'
  end.

(** [entries.sort((a, b) => b[1] - a[1])]: a stable sort by descending
    count. *)
Fixpoint insert_by_count (x : string * nat) (l : list (string * nat))
  : list (string * nat) :=
  match l with
  | [] => [x]
  | y :: l' => if (y.2 <=? x.2)%nat then x :: l
               else y :: insert_by_count x l'
  end.

Definition sort_by_count (l : list (string * nat)) : list (string * nat) :=
  foldr insert_by_count [] l.

Definition extractKeywords (text : string) : list string :=
  let words := match_all false word_pattern (toLowerCase text) in
  let keywords := filter (λ word, word ∉ stopWords) words in
  let freq := foldl (λ freq word, freq_set word freq) [] keywords in
  (take 10 (sort_by_count freq)).*1.

(** Specification vocabulary: the number of occurrences of a word, and a
    list of entries in order of descending count. *)
Definition occurrences (word : string) (words : list string) : nat :=
  length (filter (λ w, w = word) words).

Fixpoint count_descending (l : list (string * nat)) : Prop :=
  match l with
  | [] => True
  | x :: l' => Forall (λ y, y.2 ≤ x.2) l' ∧ count_descending l'
  end.

(** The routing decision handed to [executeRoutingScenario]; an absent or
    empty [matchedBlockId] is [None]. *)
Record routing : Set := mkRouting {
  isNewTopic : bool;
  matchedBlockId : option nat;
  suggestedLabel : option string
}.

Record RoutingScenario : Set := mkScenario {
  scenario : nat;
  description : string;
  blockId : nat;
  rs_isNewTopic : bool;
  pausedBlockId : option nat
}.

(** [executeRoutingScenario].  Every [ctx.runMutation] is a transaction
    of its own, with its own clock: [now1] is the clock of a mutation that
    pauses, or that creates with nothing paused before; [now2] is the
    clock of [updateStatus] and of a [create] that follows a pause.  The
    answer is [None] when a mutation throws; the state is then the one the
    earlier mutations left. *)
Definition executeRoutingScenario (now1 now2 : Z) (r : routing)
    (dayId userMessage : string) (d : db) : option RoutingScenario * db :=
  let activeBlocks := getActive (Some dayId) (bridgeBlocks d) in
  let lastActiveBlock := head activeBlocks in
  let isNew := isNewTopic r in
  let suggestedLabel := default "General Discussion"%string (suggestedLabel r) in
  let keywords := extractKeywords userMessage in
  let continuation :=
    match matchedBlockId r, lastActiveBlock with
    | Some m, Some l => bool_decide (m = l.1)
    | _, _ => false
    end in
  let newTopic (description : string) :=
    let '(blockId, d1) :=
      create now1 dayId suggestedLabel keywords None d in
    (Some (mkScenario 3 description blockId true None), d1) in
  let topicShift (l : nat * block) :=
    let d1 := pauseWithSummary now1 l.1 d in
    let '(blockId, d2) :=
      create now2 dayId suggestedLabel keywords None d1 in
    (Some (mkScenario 4 "Topic Shift" blockId true (Some l.1)), d2) in
  match matchedBlockId r with
  | Some m =>
      if continuation
      then (Some (mkScenario 1 "Topic Continuation" m false None), d)
      else if negb isNew
      then
        let d1 := match lastActiveBlock with
                  | Some l => pauseWithSummary now1 l.1 d
                  | None => d
                  end in
        match updateStatus now2 m ACTIVE d1 with
        | Some d2 =>
            (Some (mkScenario 2 "Topic Resumption" m false
                              (fst <$> lastActiveBlock)), d2)
        | None => (None, d1)
        end
      else
        match lastActiveBlock with
        | None => newTopic "New Topic Creation"%string
        | Some l => topicShift l
        end
  | None =>
      if isNew
      then
        match lastActiveBlock with
        | None => newTopic "New Topic Creation"%string
        | Some l => topicShift l
        end
      else newTopic "Fallback - New Topic"%string
  end.

End Orchestrator.

(** ** Context hydrator (retrieval/hydrator.ts) *)

Module Hydrator.

Record allocation : Set := mkAllocation {
  system : Z;
  tasks : Z;
  bridgeBlock : Z;
  memories : Z;
  facts : Z;
  profile : Z;
  total : Z
}.

(** [Math.floor(n * share)] for an integral [n]. *)
Definition floor_share (n : Z) (share : Q) : Z :=
  Qfloor (inject_Z n * share).

Definition allocateTokenBudget (maxTokens systemTokens taskTokens : Z)
  : allocation :=
  let remainingAfterFixed := (maxTokens - systemTokens - taskTokens)%Z in
  let bridgeBlock := floor_share remainingAfterFixed 0.50 in
  let memories := floor_share remainingAfterFixed 0.30 in
  let facts := floor_share remainingAfterFixed 0.10 in
  let profile := floor_share remainingAfterFixed 0.10 in
  mkAllocation systemTokens taskTokens bridgeBlock memories facts profile
    (systemTokens + taskTokens + bridgeBlock + memories + facts + profile)%Z.

(** [estimateTokens]: [Math.ceil(text.length / 4)]. *)
Definition ceil_div4 (n : nat) : nat := (n + 3) / 4.

Definition estimateTokens (text : string) : nat := ceil_div4 (Js.len text).

(** [text.slice(0, e)] for an integral [e]: a negative [e] counts from
    the end of the text. *)
Definition slice_to (e : Z) (text : string) : string :=
  let n := Z.of_nat (Js.len text) in
  Js.slice0 (Z.to_nat (if (e <? 0)%Z then Z.max 0 (n + e) else Z.min e n))
            text.

Definition truncateToTokens (text : string) (maxTokens : Z) : string :=
  let estimatedChars := (maxTokens * 4)%Z in
  if (Z.of_nat (Js.len text) <=? estimatedChars)%Z then text
  else String.append (slice_to (estimatedChars - 3) text) "...".

Record Turn : Set := mkTurn {
  turnId : string;
  userMessage : string;
  aiResponse : string;
  timestamp : Z
}.

Record Memory : Set := mkMemory {
  content : string;
  score : Q;
  m_turnId : string;
  m_blockId : string
}.

Record Fact : Set := mkFact {
  key : string;
  value : string;
  category : option string
}.

(** [Partial<HydratorConfig>], completed by [DEFAULT_CONFIG]. *)
Record HydratorConfig : Set := mkConfig {
  maxTokens : option Z;
  systemTokens : option Z;
  taskTokens : option Z
}.

Record tokenBreakdown : Set := mkBreakdown {
  tb_system : nat;
  tb_conversation : nat;
  tb_memories : nat;
  tb_facts : nat;
  tb_profile : nat
}.

Record HydratedContext : Set := mkContext {
  systemPrompt : string;
  conversationContext : string;
  retrievedMemories : string;
  factsSection : string;
  userProfile : string;
  totalTokens : nat;
  breakdown : tokenBreakdown
}.

Definition formatFact (fact : Fact) : string :=
  let category :=
    if BridgeBlocks.truthy (category fact)
    then Js.concat [" ["; default ""%string (category fact); "]"]
    else ""%string in
  Js.concat [key fact; category; ": "; value fact].

Definition getDefaultSystemPrompt : string :=
  Js.concat
    ["You are a helpful AI assistant with access to conversation history and facts about the user.";
     Js.nl; Js.nl; "Guidelines:"; Js.nl;
     "- Use the provided context to give personalized, relevant responses";
     Js.nl; "- Reference past conversations when appropriate"; Js.nl;
     "- Be concise but thorough"; Js.nl;
     "- If you remember something from a previous conversation, mention it naturally"].

(** The loop of each section: the formatted items are taken in order
    while they fit the budget; the first one that does not fit ends the
    loop. *)
Fixpoint fill (budget : Z) (parts : list string) (tokens : nat)
    (items : list string) : list string * nat :=
  match items with
  | [] => (parts, tokens)
  | formatted :: rest =>
      let t := estimateTokens formatted in
      if (Z.of_nat (tokens + t) <=? budget)%Z
      then fill budget (parts ++ [formatted]) (tokens + t) rest
      else (parts, tokens)
  end.

(** [sort((a, b) => b.timestamp - a.timestamp)] and
    [sort((a, b) => b.score - a.score)]: stable, descending. *)
Fixpoint insert_turn (x : Turn) (l : list Turn) : list Turn :=
  match l with
  | [] => [x]
  | y :: l' => if (timestamp y <=? timestamp x)%Z then x :: l
               else y :: insert_turn x l'
  end.

Fixpoint insert_memory (x : Memory) (l : list Memory) : list Memory :=
  match l with
  | [] => [x]
  | y :: l' => if Qle_bool (score y) (score x) then x :: l
               else y :: insert_memory x l'
  end.

Section Hydrate.

(** [new Date(t).toISOString()] and [(score * 100).toFixed(0)] are not
    modelled: the hydration is defined for any two such functions. *)
Variable toISOString : Z → string.
Variable percent : Q → string.

Definition formatTurn (turn : Turn) : string :=
  Js.concat ["["; toISOString (timestamp turn); "]"; Js.nl;
             "User: "; userMessage turn; Js.nl;
             "Assistant: "; aiResponse turn].

Definition formatMemory (memory : Memory) (index : nat) : string :=
  Js.concat ["[Memory "; pretty (index + 1); "] (relevance: ";
             percent (score memory); "%)"; Js.nl; content memory].

Definition hydrateBridgeBlock (blockTurns : list Turn)
    (memories0 : list Memory) (facts0 : list Fact)
    (a_userProfile a_systemPrompt : option string)
    (config : HydratorConfig) : HydratedContext :=
  let conversationBudget :=
    (default 8000 (maxTokens config) - default 500 (systemTokens config)
     - default 500 (taskTokens config))%Z in
  let systemPrompt := Js.or_else a_systemPrompt getDefaultSystemPrompt in
  let systemTokens := estimateTokens systemPrompt in
  let sortedTurns := foldr insert_turn [] blockTurns in
  let turnBudget := floor_share conversationBudget 0.5 in
  let '(conversationParts, conversationTokens) :=
    fill turnBudget [] 0 (formatTurn <$> sortedTurns) in
  let conversationContext :=
    if (0 <? length conversationParts)%nat
    then String.append
           (String.append "=== Recent Conversation ===" Js.nl)
           (Js.join (String.append Js.nl Js.nl)
                    (reverse conversationParts))
    else ""%string in
  let memoryBudget := floor_share conversationBudget 0.3 in
  let sortedMemories := foldr insert_memory [] memories0 in
  let '(memoryParts, memoryTokens) :=
    fill memoryBudget [] 0 (imap (λ i m, formatMemory m i) sortedMemories) in
  let retrievedMemories :=
    if (0 <? length memoryParts)%nat
    then String.append
           (String.append "=== Relevant History ===" Js.nl)
           (Js.join (String.append Js.nl Js.nl) memoryParts)
    else ""%string in
  let factBudget := floor_share conversationBudget 0.1 in
  let '(factParts, factTokens) :=
    fill factBudget [] 0 (formatFact <$> facts0) in
  let factsSection :=
    if (0 <? length factParts)%nat
    then String.append (String.append "=== Known Facts ===" Js.nl)
                       (Js.join Js.nl factParts)
    else ""%string in
  let profileBudget := floor_share conversationBudget 0.1 in
  let userProfile :=
    if BridgeBlocks.truthy a_userProfile
    then truncateToTokens
           (String.append (String.append "=== User Profile ===" Js.nl)
                          (default ""%string a_userProfile))
           profileBudget
    else ""%string in
  let profileTokens := estimateTokens userProfile in
  mkContext systemPrompt conversationContext retrievedMemories
    factsSection userProfile
    (systemTokens + conversationTokens + memoryTokens + factTokens
     + profileTokens)
    (mkBreakdown systemTokens conversationTokens memoryTokens factTokens
                 profileTokens).

End Hydrate.

(** The fact lookup of [hydrateContext]: for each of the first twenty
    keys, the first row of the by_key index, if there is one. *)
Definition lookup_facts (factKeys : list string) (t : list Facts.fact)
  : list (string * string * option Facts.factCategory) :=
  foldl (λ facts key,
           match head (Facts.by_key key t) with
           | Some fact =>
               facts ++ [(Facts.key fact.2, Facts.value fact.2,
                          Facts.category fact.2)]
           | None => facts
           end)
        [] (take 20 factKeys).

End Hydrator.

(** ** Cosine similarity (adaptive/compressor.ts) *)

Module Cosine.

Local Open Scope R_scope.

(** The three accumulators of the loop. *)
Record acc : Type := mkAcc { dotProduct : R; norm1 : R; norm2 : R }.

(** The loop [for (let i = 0; i < vec1.length; i++)], run once the guard
    has made the two lengths equal. *)
Fixpoint loop (a : acc) (vec1 vec2 : list R) : acc :=
  match vec1, vec2 with
  | x :: vec1', y :: vec2' =>
      loop (mkAcc (dotProduct a + x * y) (norm1 a + x * x)
                  (norm2 a + y * y)) vec1' vec2'
  | _, _ => a
  end.

Definition cosineSimilarity (vec1 vec2 : list R) : R :=
  if negb (length vec1 =? length vec2)%nat then 0
  else
    let a := loop (mkAcc 0 0 0) vec1 vec2 in
    if Req_dec_T (norm1 a) 0 then 0
    else if Req_dec_T (norm2 a) 0 then 0
    else dotProduct a / (sqrt (norm1 a) * sqrt (norm2 a)).

(** Specification vocabulary: the dot product and the squared norm. *)
Fixpoint dot (v1 v2 : list R) : R :=
  match v1, v2 with
  | x :: v1', y :: v2' => x * y + dot v1' v2'
  | _, _ => 0
  end.

Definition norm_sq (v : list R) : R := dot v v.

Definition norm (v : list R) : R := sqrt (norm_sq v).

(** [calcSemanticDistanceWithEmbeddings]. *)
Definition calcSemanticDistanceWithEmbeddings (queryEmbedding : list R)
    (contextEmbeddings : list (list R)) : R :=
  if (length contextEmbeddings =? 0)%nat then 0.5
  else
    let totalSimilarity :=
      foldl (λ total contextEmb,
               total + cosineSimilarity queryEmbedding contextEmb)
            0 contextEmbeddings in
    let avgSimilarity := totalSimilarity / INR (length contextEmbeddings) in
    1 - avgSimilarity.

End Cosine.

(** ** Eviction manager (adaptive/eviction.ts) *)

Module Eviction.

Import BridgeBlocks.

Definition TIME_THRESHOLD_HOURS : Z := 24.
Definition MAX_TIER2_TOKENS : nat := 5000.
Definition MAX_TIER2_TURNS : nat := 30.

(** A document of the [topicAffinity] table. *)
Record affinity : Set := mkAffinity {
  topic : string;
  evictionCount : Z;
  totalTimeInWindow : Z;
  avgTimeInWindow : Q
}.

(** Everything the eviction mutations can read or write. *)
Record state : Set := mkState {
  st_db : db;
  topicAffinity : list affinity
}.

(** [withIndex("by_topic", q => q.eq("topic", t)).first()]. *)
Definition first_by_topic (t : string) (ta : list affinity)
  : option (nat * affinity) :=
  head (filter (λ p, topic p.2 = t) (imap (λ i a, (i, a)) ta)).

Definition updateTopicAffinityInternal (topic0 : string)
    (addedTimestamp evictedTimestamp : Z) (ta : list affinity)
  : list affinity :=
  let topicLower := Js.toLowerCase topic0 in
  let timeInWindow := (evictedTimestamp - addedTimestamp)%Z in
  match first_by_topic topicLower ta with
  | Some (id, existing) =>
      let newTotal := (totalTimeInWindow existing + timeInWindow)%Z in
      let newCount := (evictionCount existing + 1)%Z in
      alter (λ a, mkAffinity (topic a) newCount newTotal
                             (inject_Z newTotal / inject_Z newCount))
            id ta
  | None =>
      ta ++ [mkAffinity topicLower 1 timeInWindow (inject_Z timeInWindow)]
  end.

(** [withIndex("by_day", q => q.eq("dayId", day)).collect()]. *)
Definition by_day (day : string) (bs : list block) : list (nat * block) :=
  filter (λ p, dayId p.2 = day) (imap (λ i b, (i, b)) bs).

(** The result of one of the two internal passes. *)
Record evicted : Set := mkEvicted {
  evictedCount : nat;
  evictedTurnIds : list string
}.

Definition evictByTimeInternal (now : Z) (day : string) (s : state)
  : evicted * state :=
  let threshold := (TIME_THRESHOLD_HOURS * 60 * 60 * 1000)%Z in
  let blocks := by_day day (bridgeBlocks (st_db s)) in
  let '(ids, ta) :=
    foldl (λ acc blk,
             foldl (λ acc t,
                      if (threshold <? now - timestamp t)%Z
                      then (acc.1 ++ [turnId t],
                            updateTopicAffinityInternal
                              (topicLabel blk.2) (timestamp t) now acc.2)
                      else acc)
                   acc (turns_by_block blk.1 (turns (st_db s))))
          ([], topicAffinity s) blocks in
  (mkEvicted (length ids) ids, mkState (st_db s) ta).

(** An element of [allTurns]. *)
Record dayTurn : Set := mkDayTurn {
  dt_turnId : string;
  dt_topicLabel : string;
  dt_timestamp : Z;
  dt_tokenEstimate : nat
}.

(** [Math.ceil((userMessage.length + aiResponse.length) / 4)]. *)
Definition tokenEstimate (t : turn) : nat :=
  Hydrator.ceil_div4 (Js.len (userMessage t) + Js.len (aiResponse t)).

(** The turns of the day, block by block, as the collecting loops build
    them. *)
Definition collect_day_turns (day : string) (d : db) : list dayTurn :=
  foldl (λ all blk,
           all ++ ((λ t, mkDayTurn (turnId t) (topicLabel blk.2)
                                   (timestamp t) (tokenEstimate t))
                     <$> turns_by_block blk.1 (turns d)))
        [] (by_day day (bridgeBlocks d)).

(** [allTurns.sort((a, b) => a.timestamp - b.timestamp)]: a stable sort by
    ascending timestamp. *)
Fixpoint insert_by_timestamp (x : dayTurn) (l : list dayTurn)
  : list dayTurn :=
  match l with
  | [] => [x]
  | y :: l' => if (dt_timestamp x <=? dt_timestamp y)%Z then x :: l
               else y :: insert_by_timestamp x l'
  end.

Definition sort_by_timestamp (l : list dayTurn) : list dayTurn :=
  foldr insert_by_timestamp [] l.

Definition evictBySpaceInternal (now : Z) (day : string) (s : state)
  : evicted * state :=
  let maxTurns := MAX_TIER2_TURNS in
  let allTurns := sort_by_timestamp (collect_day_turns day (st_db s)) in
  let excess := (Z.of_nat (length allTurns) - Z.of_nat maxTurns)%Z in
  let '(ids, ta) :=
    if (0 <? excess)%Z
    then foldl (λ acc t,
                  (acc.1 ++ [dt_turnId t],
                   updateTopicAffinityInternal (dt_topicLabel t)
                     (dt_timestamp t) now acc.2))
               ([], topicAffinity s) (take (Z.to_nat excess) allTurns)
    else ([], topicAffinity s) in
  (mkEvicted (length ids) ids, mkState (st_db s) ta).

Record evictionStats : Set := mkStats {
  timeEvicted : nat;
  spaceEvicted : nat;
  totalEvicted : nat;
  allEvictedTurnIds : list string
}.

Definition checkAndEvict (now : Z) (day : string) (s : state)
  : evictionStats * state :=
  let '(timeResult, s1) := evictByTimeInternal now day s in
  let '(spaceResult, s2) := evictBySpaceInternal now day s1 in
  let allEvicted :=
    Js.Set_of (evictedTurnIds timeResult ++ evictedTurnIds spaceResult) in
  (mkStats (evictedCount timeResult) (evictedCount spaceResult)
           (length allEvicted) allEvicted,
   s2).

(** An element of the answer of [getTimeEvictionCandidates]. *)
Record timeCandidate : Set := mkTimeCandidate {
  tc_turnId : string;
  tc_blockId : nat;
  tc_timestamp : Z;
  hoursOld : Q
}.

Definition getTimeEvictionCandidates (now : Z) (day : string) (d : db)
  : list timeCandidate :=
  let blocks := by_day day (bridgeBlocks d) in
  let threshold := (TIME_THRESHOLD_HOURS * 60 * 60 * 1000)%Z in
  foldl (λ candidates blk,
           foldl (λ candidates t,
                    let age := (now - timestamp t)%Z in
                    if (threshold <? age)%Z
                    then candidates ++
                           [mkTimeCandidate (turnId t) blk.1 (timestamp t)
                              (inject_Z age / inject_Z (60 * 60 * 1000))]
                    else candidates)
                 candidates (turns_by_block blk.1 (turns d)))
        [] blocks.

(** An element of [allTurns] in [getSpaceEvictionCandidates]. *)
Record candidate : Set := mkCandidate {
  c_turnId : string;
  c_blockId : nat;
  c_timestamp : Z;
  c_tokenEstimate : nat
}.

Definition collect_candidates (day : string) (d : db) : list candidate :=
  foldl (λ all blk,
           all ++ ((λ t, mkCandidate (turnId t) blk.1 (timestamp t)
                                     (tokenEstimate t))
                     <$> turns_by_block blk.1 (turns d)))
        [] (by_day day (bridgeBlocks d)).

Fixpoint insert_candidate (x : candidate) (l : list candidate)
  : list candidate :=
  match l with
  | [] => [x]
  | y :: l' => if (c_timestamp x <=? c_timestamp y)%Z then x :: l
               else y :: insert_candidate x l'
  end.

Definition sort_candidates (l : list candidate) : list candidate :=
  foldr insert_candidate [] l.

(** The sum of the token estimates of a list of turns. *)
Definition tokens_of (l : list candidate) : nat :=
  foldr Nat.add 0 (c_tokenEstimate <$> l).

(** Specification vocabulary: a list of turns in order of ascending
    timestamp. *)
Fixpoint oldest_first (l : list candidate) : Prop :=
  match l with
  | [] => True
  | x :: l' =>
      Forall (λ y, (c_timestamp x ≤ c_timestamp y)%Z) l' ∧ oldest_first l'
  end.

(** The loop that counts the turns to evict for the token bound; it
    breaks at the first turn at which enough tokens are evicted. *)
Fixpoint token_loop (tokenExcess : Z) (tokenEvictionCount : nat)
    (evictedTokens : Z) (allTurns : list candidate) : nat :=
  match allTurns with
  | [] => tokenEvictionCount
  | turn :: rest =>
      if (evictedTokens <? tokenExcess)%Z
      then token_loop tokenExcess (S tokenEvictionCount)
             (evictedTokens + Z.of_nat (c_tokenEstimate turn)) rest
      else tokenEvictionCount
  end.

Record spaceCandidates : Set := mkSpaceCandidates {
  needsEviction : bool;
  currentTurnCount : nat;
  currentTokenEstimate : nat;
  candidates : list candidate
}.

(** [getSpaceEvictionCandidates]; [maxTurns] is an integer when given. *)
Definition getSpaceEvictionCandidates (day : string)
    (a_maxTurns : option Z) (d : db) : spaceCandidates :=
  let maxTurns := default (Z.of_nat MAX_TIER2_TURNS) a_maxTurns in
  let collected := collect_candidates day d in
  let totalTokens := tokens_of collected in
  let allTurns := sort_candidates collected in
  let needsEviction :=
    (maxTurns <? Z.of_nat (length allTurns))%Z
    || (MAX_TIER2_TOKENS <? totalTokens)%nat in
  let candidates :=
    if needsEviction
    then
      let turnExcess := Z.max 0 (Z.of_nat (length allTurns) - maxTurns) in
      let tokenExcess :=
        (Z.of_nat totalTokens - Z.of_nat MAX_TIER2_TOKENS)%Z in
      let tokenEvictionCount := token_loop tokenExcess 0 0 allTurns in
      let evictionCount :=
        Z.max turnExcess (Z.of_nat tokenEvictionCount) in
      take (Z.to_nat evictionCount) allTurns
    else [] in
  mkSpaceCandidates needsEviction (length allTurns) totalTokens candidates.

(** The two quantities the space policy bounds, over the stored turns of
    the day. *)
Definition dayTurnCount (day : string) (d : db) : nat :=
  length (collect_day_turns day d).

Definition daySumTokens (day : string) (d : db) : nat :=
  foldr Nat.add 0 (dt_tokenEstimate <$> collect_day_turns day d).

(** The same two quantities over the turns of the day that a result does
    not list as evicted. *)
Definition kept_turns (ids : list string) (day : string) (d : db)
  : list dayTurn :=
  filter (λ t, dt_turnId t ∉ ids) (collect_day_turns day d).

End Eviction.

(** ** Adaptive compressor (adaptive/compressor.ts) *)

Module Compressor.

Import Js Regex.

Inductive CompressionLevel : Set :=
| NO_COMPRESSION | COMPRESS_PARTIAL | COMPRESS_ALL.

Record CompressionDecision : Set := mkDecision {
  level : CompressionLevel;
  reason : string;
  semanticDistance : Q;
  timeGapHours : Q;
  hasExplicitReference : bool;
  keepVerbatimCount : nat
}.

Definition VERY_DIFFERENT_THRESHOLD : Q := 0.8.
Definition SOMEWHAT_DIFFERENT_THRESHOLD : Q := 0.6.
Definition LONG_GAP_HOURS : Q := 12.
Definition MAX_VERBATIM_HARD_LIMIT : nat := 15.
Definition COMPRESS_ALL_KEEP : nat := 5.
Definition COMPRESS_PARTIAL_KEEP : nat := 10.

(** [/\bwe discussed\b/i] and its siblings. *)
Definition REFERENCE_PATTERNS : list re :=
  (λ w, seq_of [Wb; lit w; Wb]) <$>
    ["we discussed"; "you mentioned"; "you said"; "as I said";
     "earlier you"; "previously"; "going back to"]%string.

Definition detectExplicitReference (query : string) : bool :=
  existsb (λ pattern, test true pattern query) REFERENCE_PATTERNS.

(** [new Set(q.toLowerCase().split(/\W+/).filter(w => w.length > 3))]. *)
Definition content_words (q : string) : list string :=
  Set_of (filter (λ w, 3 < len w)
                 (split false (PlusG (λ c, negb (is_word c)))
                        (toLowerCase q))).

Definition calculateSimpleDistance (query1 query2 : string) : Q :=
  let words1 := content_words query1 in
  let words2 := content_words query2 in
  if (length words1 =? 0)%nat || (length words2 =? 0)%nat then 0.5
  else
    let intersection := Set_of (filter (λ x, x ∈ words2) words1) in
    let union := Set_of (words1 ++ words2) in
    (1 - inject_Z (Z.of_nat (length intersection))
         / inject_Z (Z.of_nat (length union)))%Q.

(** [recentQueries.slice(-3)]. *)
Definition last3 (l : list string) : list string := drop (length l - 3) l.

Definition decideCompression (now : Z) (currentQuery : string)
    (recentQueries : list string) (lastTurnTimestamp : Z)
  : CompressionDecision :=
  if (length recentQueries =? 0)%nat
  then mkDecision NO_COMPRESSION "No recent turns to compress" 0 0 false 0
  else if detectExplicitReference currentQuery
  then mkDecision NO_COMPRESSION
         "Explicit reference to previous conversation detected" 0 0 true
         (length recentQueries)
  else
    let combinedRecent := join " " (last3 recentQueries) in
    let semanticDistance :=
      calculateSimpleDistance currentQuery combinedRecent in
    let timeGapHours :=
      (inject_Z (now - lastTurnTimestamp) / inject_Z (1000 * 60 * 60))%Q in
    let '(level, reason, keepVerbatimCount) :=
      if Qlt_le_dec VERY_DIFFERENT_THRESHOLD semanticDistance
      then if Qlt_le_dec LONG_GAP_HOURS timeGapHours
           then (COMPRESS_ALL, "Very different topic + long time gap"%string,
                 COMPRESS_ALL_KEEP)
           else (COMPRESS_PARTIAL, "Very different topic"%string,
                 COMPRESS_PARTIAL_KEEP)
      else if Qlt_le_dec SOMEWHAT_DIFFERENT_THRESHOLD semanticDistance
      then if Qlt_le_dec LONG_GAP_HOURS timeGapHours
           then (COMPRESS_PARTIAL,
                 "Somewhat different topic + long time gap"%string,
                 COMPRESS_PARTIAL_KEEP)
           else (NO_COMPRESSION, "Similar enough topic and recent"%string,
                 length recentQueries)
      else (NO_COMPRESSION, "Similar topic"%string, length recentQueries) in
    mkDecision level reason semanticDistance timeGapHours false
               (Nat.min keepVerbatimCount MAX_VERBATIM_HARD_LIMIT).

End Compressor.

(** ** Tabula Rasa, the topic-shift detector (tabulaRasa.ts) *)

Module TabulaRasa.

Import Js Regex.

Record TopicShiftResult : Set := mkResult {
  isShift : bool;
  reason : string;
  newTopicLabel : option string;
  confidence : Q
}.

Definition SHIFT_THRESHOLD : Q := 0.7.

Definition SHIFT_PHRASES : list re :=
  [ seq_of [lit "let's talk about "; Grp (PlusL is_dot); lit " instead"];
    seq_of [lit "changing topic"; Opt (Chr "s"); lit " to ";
            Grp (PlusG is_dot)];
    seq_of [lit "moving on to "; Grp (PlusG is_dot)];
    seq_of [lit "new topic";
            PlusG (λ c, Ascii.eqb c ":" || is_space c);
            Grp (PlusG is_dot)];
    seq_of [lit "can we discuss "; Grp (PlusG is_dot)];
    seq_of [lit "switching to "; Grp (PlusG is_dot)] ].

Definition CONTINUATION_PHRASES : list re :=
  [ seq_of [Bol; Grp (alt_of (lit <$> ["so"; "and"; "but"; "also";
                                       "additionally"; "furthermore"]%string))];
    seq_of [lit "as "; Grp (alt_of [lit "i"; lit "we"]); lit " ";
            Grp (alt_of (lit <$> ["said"; "mentioned"; "discussed"]%string))];
    lit "going back to";
    seq_of [lit "regarding ";
            Grp (alt_of (lit <$> ["that"; "this"; "the"]%string))] ].

Record explicitShift : Set := mkExplicit {
  e_isShift : bool;
  e_topic : option string
}.

(** The loop over [SHIFT_PHRASES]: the first pattern that matches decides;
    the topic is [match[1]?.trim()]. *)
Definition detectExplicitShift (query : string) : explicitShift :=
  match list_find (λ pattern, is_Some (exec true pattern query))
                  SHIFT_PHRASES with
  | Some (_, pattern) =>
      mkExplicit true
        (match exec true pattern query with
         | Some (Some g) => Some (trim g)
         | _ => None
         end)
  | None => mkExplicit false None
  end.

Definition detectContinuation (query : string) : bool :=
  existsb (λ pattern, test true pattern query) CONTINUATION_PHRASES.

Definition stopWords : list string :=
  ["the"; "a"; "an"; "is"; "are"; "was"; "were"; "and"; "or"; "but";
   "in"; "on"; "at"; "to"; "for"; "of"; "with"; "by"; "from"; "i";
   "you"; "we"; "they"; "it"; "this"; "that"; "what"; "how"; "why";
   "when"; "where"; "can"; "could"; "would"; "should"; "do"; "does";
   "did"; "have"; "has"; "had"; "be"; "been"; "being"; "my"; "your";
   "me"; "about"; "help"; "want"; "need"; "please"; "tell"]%string.

Definition extractTopicsFromQuery (query : string) : list string :=
  take 5
    (filter (λ w, 2 < len w ∧ w ∉ stopWords)
            (split false (PlusG is_space)
                   (blank_punctuation (toLowerCase query)))).

(** [(x * 100).toFixed(0)] for a non-negative [x]. *)
Definition percent (x : Q) : string :=
  pretty (Qfloor (x * 100 + (1 # 2))%Q).

Definition checkForShift (query : string)
    (activeBlockKeywords : list string) : TopicShiftResult :=
  if (length activeBlockKeywords =? 0)%nat
  then
    let topics := extractTopicsFromQuery query in
    mkResult true "No active topic - starting new conversation"
             (Some (or_else (head topics) "General Conversation")) 1
  else
    let explicitShift := detectExplicitShift query in
    if e_isShift explicitShift
    then mkResult true "Explicit topic change detected"
                  (Some (or_else (e_topic explicitShift) "New Topic")) 1
    else if detectContinuation query
    then mkResult false "Continuation phrase detected" None 0.1
    else
      let queryTopics := extractTopicsFromQuery query in
      let querySet := Set_of queryTopics in
      let blockSet := Set_of (toLowerCase <$> activeBlockKeywords) in
      let matches := length (filter (λ topic, topic ∈ blockSet) querySet) in
      let union := Set_of (querySet ++ blockSet) in
      let similarity :=
        if (0 <? length union)%nat
        then (inject_Z (Z.of_nat matches)
              / inject_Z (Z.of_nat (length union)))%Q
        else 0%Q in
      let shiftConfidence := (1 - similarity)%Q in
      if Qlt_le_dec SHIFT_THRESHOLD shiftConfidence
      then mkResult true
             (concat ["Low topic similarity ("; percent similarity; "%)"])
             (Some (or_else (head queryTopics) "New Topic"))
             shiftConfidence
      else mkResult false
             (concat ["Topics similar ("; percent similarity; "% match)"])
             None (1 - shiftConfidence)%Q.

(** The optional metadata of the language model. *)
Record nanoMetadata : Set := mkNano {
  isTopicShift : option bool;
  nm_newTopicLabel : option string;
  topics : option (list string);
  nm_confidence : option Q
}.

Definition checkForShiftWithMetadata (query : string)
    (activeBlockKeywords : list string) (nano : option nanoMetadata)
  : TopicShiftResult :=
  if (length activeBlockKeywords =? 0)%nat
  then
    let firstTopic : option string :=
      n ← nano; l ← topics n; head l in
    let newLabel :=
      if BridgeBlocks.truthy firstTopic
      then default ""%string firstTopic
      else if BridgeBlocks.truthy (nano ≫= nm_newTopicLabel)
      then default ""%string (nano ≫= nm_newTopicLabel)
      else or_else (head (extractTopicsFromQuery query))
                   "General Conversation" in
    mkResult true "No active topic - starting new conversation"
             (Some newLabel) 1
  else
    match nano ≫= isTopicShift with
    | Some true =>
        mkResult true "LLM detected topic shift"
                 (Some (or_else (nano ≫= nm_newTopicLabel) "New Topic"))
                 (default 0.95%Q (nano ≫= nm_confidence))
    | Some false =>
        mkResult false "LLM confirmed topic continuation" None
                 (default 0.9%Q (nano ≫= nm_confidence))
    | None => checkForShift query activeBlockKeywords
    end.

(** [getActiveBlock]: the first ACTIVE block of the by_day index. *)
Definition getActiveBlock (day : string) (bs : list BridgeBlocks.block)
  : option (nat * BridgeBlocks.block) :=
  head (filter (λ p, BridgeBlocks.blockStatus p.2 = BridgeBlocks.ACTIVE)
               (BridgeBlocks.by_day day bs)).

(** [closeBlock]: [None] when the patch throws. *)
Definition closeBlock (now : Z) (blockId : nat)
    (bs : list BridgeBlocks.block) : option (nat * list BridgeBlocks.block) :=
  bs' ← BridgeBlocks.db_patch blockId
          (BridgeBlocks.mkPatch None None (Some BridgeBlocks.CLOSED) None
                                None None (Some now)) bs;
  Some (blockId, bs').

(** [createNewBlock]: a plain insert; [createdAt] and [updatedAt] are two
    readings of the clock. *)
Definition createNewBlock (now now' : Z) (a_dayId a_topicLabel : string)
    (a_keywords : list string) (a_prevBlockId : option nat)
    (bs : list BridgeBlocks.block) : nat * list BridgeBlocks.block :=
  (length bs,
   bs ++ [BridgeBlocks.mkBlock a_dayId a_topicLabel None a_keywords
            BridgeBlocks.ACTIVE a_prevBlockId [] [] 0 now now']).

End TabulaRasa.

(** ** Chunking engine (chunking/index.ts) *)

Module Chunking.

Import Js Regex.

Inductive chunkType : Set := sentence | paragraph.

Global Instance chunkType_eq_dec : EqDecision chunkType.
Proof. solve_decision. Defined.

Record Chunk : Set := mkChunk {
  chunkId : string;
  c_type : chunkType;
  textVerbatim : string;
  lexicalFilters : list string;
  parentChunkId : option string;
  c_turnId : string;
  tokenCount : nat
}.

Definition STOP_WORDS : list string :=
  ["the"; "a"; "an"; "is"; "are"; "was"; "were"; "and"; "or"; "but";
   "in"; "on"; "at"; "to"; "for"; "of"; "with"; "by"; "from"; "as";
   "this"; "that"; "these"; "those"; "it"; "its"; "be"; "been"; "being";
   "have"; "has"; "had"; "do"; "does"; "did"; "will"; "would"; "should";
   "could"; "may"; "might"; "can"; "my"; "your"; "his"; "her"; "their";
   "our"; "i"; "you"; "he"; "she"; "we"; "they"; "what"; "which"; "who";
   "when"; "where"; "why"; "how"; "all"; "each"; "every"; "both"; "few";
   "more"; "most"; "other"; "some"; "such"; "no"; "nor"; "not";
   "only"]%string.

(** The environment of [generateChunkId]: what [Date.now()] and
    [Math.random().toString(36).substring(2, 8)] return at the [n]-th
    call. *)
Definition env : Type := nat → Z * string.

Definition generateChunkId (e : env) (call : nat) (ty : chunkType)
    (index : nat) : string :=
  let prefix := match ty with sentence => "sent" | paragraph => "para" end in
  concat [prefix; "_"; pretty (e call).1; "_"; pretty index; "_";
          (e call).2]%string.

Definition extractKeywords (text : string) : list string :=
  take 20
    (Set_of (filter (λ w, 2 < len w ∧ w ∉ STOP_WORDS)
                    (split false (PlusG is_space)
                           (blank_punctuation (toLowerCase text))))).

Definition estimateTokenCount (text : string) : nat :=
  Hydrator.ceil_div4 (len text).

(** [/(?<=[.!?])\s+/]. *)
Definition sentence_break : re :=
  Seq (Lb (λ c, Ascii.eqb c "." || Ascii.eqb c "!" || Ascii.eqb c "?"))
      (PlusG is_space).

(** [/\n\s*\n/]. *)
Definition paragraph_break : re :=
  seq_of [Chr lf; StarG is_space; Chr lf].

Definition nonempty (s : string) : Prop := 0 < len s.

Definition splitIntoSentences (text : string) : list string :=
  filter nonempty (trim <$> split false sentence_break text).

Definition splitIntoParagraphs (text : string) : list string :=
  let paragraphs :=
    filter nonempty (trim <$> split false paragraph_break text) in
  if (length paragraphs =? 0)%nat && (0 <? len (trim text))%nat
  then [trim text]
  else paragraphs.

(** The state of the two loops of [chunkText]: the chunks so far, the
    sentence index and the number of calls of [generateChunkId]. *)
Record loopState : Set := mkLoop {
  chunks : list Chunk;
  sentenceIndex : nat;
  calls : nat
}.

Definition chunk_paragraph (e : env) (turnId : string) (st : loopState)
    (pIndex : nat) (paragraphText : string) : loopState :=
  let paragraphId := generateChunkId e (calls st) paragraph pIndex in
  let st1 :=
    mkLoop (chunks st ++
              [mkChunk paragraphId paragraph paragraphText
                       (extractKeywords paragraphText) None turnId
                       (estimateTokenCount paragraphText)])
           (sentenceIndex st) (S (calls st)) in
  foldl (λ st sentenceText,
           mkLoop (chunks st ++
                     [mkChunk (generateChunkId e (calls st) sentence
                                               (sentenceIndex st))
                              sentence sentenceText
                              (extractKeywords sentenceText)
                              (Some paragraphId) turnId
                              (estimateTokenCount sentenceText)])
                  (S (sentenceIndex st)) (S (calls st)))
        st1 (splitIntoSentences paragraphText).

Definition chunkText (e : env) (text turnId : string) : list Chunk :=
  chunks
    (foldl (λ st p, chunk_paragraph e turnId st p.1 p.2)
           (mkLoop [] 0 0)
           (imap (λ pIndex paragraphText, (pIndex, paragraphText))
                 (splitIntoParagraphs text))).

(** A document of the [chunks] table. *)
Record chunkRow : Set := mkRow {
  r_chunk : Chunk;
  blockId : option nat;
  createdAt : Z
}.

Record chunkStats : Set := mkChunkStats {
  sentenceCount : nat;
  paragraphCount : nat;
  totalTokens : nat
}.

(** [chunkTurn]: [clock n] is the reading of [Date.now()] at the [n]-th
    insert of the call. *)
Definition chunkTurn (e : env) (clock : nat → Z) (text turnId : string)
    (a_blockId : option nat) (t : list chunkRow)
  : chunkStats * list chunkRow :=
  foldl (λ acc p,
           let chunk := p.2 in
           let t' := acc.2 ++ [mkRow chunk a_blockId (clock p.1)] in
           match c_type chunk with
           | sentence =>
               (mkChunkStats (S (sentenceCount acc.1))
                             (paragraphCount acc.1)
                             (totalTokens acc.1 + tokenCount chunk), t')
           | paragraph =>
               (mkChunkStats (sentenceCount acc.1)
                             (S (paragraphCount acc.1))
                             (totalTokens acc.1 + tokenCount chunk), t')
           end)
        (mkChunkStats 0 0 0, t)
        (imap (λ i c, (i, c)) (chunkText e text turnId)).

(** [updateBlockId] of the chunks: the rows of the by_turn index get the
    block id; their number is returned. *)
Definition updateBlockId (a_turnId : string) (a_blockId : nat)
    (t : list chunkRow) : nat * list chunkRow :=
  let chunks :=
    filter (λ p, c_turnId (r_chunk p.2) = a_turnId)
           (imap (λ i r, (i, r)) t) in
  (length chunks,
   foldl (λ t p, alter (λ r, mkRow (r_chunk r) (Some a_blockId)
                                   (createdAt r)) p.1 t)
         t chunks).

(** Specification vocabulary: the chunk list read back as paragraphs, each
    with the sentence chunks that follow it. *)
Definition groups (cs : list Chunk) : list (Chunk * list Chunk) :=
  (foldr (λ c acc,
            match c_type c with
            | sentence => (c :: acc.1, acc.2)
            | paragraph => ([], (c, acc.1) :: acc.2)
            end)
         ([], []) cs).2.

(** A paragraph chunk with its sentence chunks, for the paragraph text
    [p]. *)
Definition group_of (p : string) (g : Chunk * list Chunk) : Prop :=
  c_type g.1 = paragraph ∧ textVerbatim g.1 = p ∧
  textVerbatim <$> g.2 = splitIntoSentences p ∧
  Forall (λ c, c_type c = sentence ∧ parentChunkId c = Some (chunkId g.1))
         g.2.

Definition ungroup (gs : list (Chunk * list Chunk)) : list Chunk :=
  flat_map (λ g, g.1 :: g.2) gs.

(** The texts of the paragraph chunks, in order. *)
Definition paragraph_texts (cs : list Chunk) : list string :=
  textVerbatim <$> filter (λ c, c_type c = paragraph) cs.

(** The concatenation of the whitespace-free elements of a list of
    strings. *)
Definition stripped (l : list string) : list ascii :=
  List.concat ((λ s, strip_ws_chars (chars s)) <$> l).

End Chunking.

(** ** Lineage tracker (lineage/tracker.ts) *)

Module Lineage.

Inductive ItemType : Set := turn | fact | memory | block | summary | chunk.

(** A document of the [lineage] table. *)
Record node : Set := mkNode {
  itemId : string;
  itemType : ItemType;
  derivedFrom : list string;
  derivedBy : string;
  createdAt : Z
}.

(** [withIndex("by_itemId", q => q.eq("itemId", id)).first()]. *)
Definition first_by_itemId (id : string) (t : list node)
  : option (nat * node) :=
  head (filter (λ p, itemId p.2 = id) (imap (λ i n, (i, n)) t)).

Definition recordLineage (now : Z) (a_itemId : string)
    (a_itemType : ItemType) (a_derivedFrom : list string)
    (a_derivedBy : string) (t : list node) : nat * list node :=
  match first_by_itemId a_itemId t with
  | Some existing =>
      (existing.1,
       alter (λ n, mkNode (itemId n) (itemType n) a_derivedFrom a_derivedBy
                          now)
             existing.1 t)
  | None =>
      (length t,
       t ++ [mkNode a_itemId a_itemType a_derivedFrom a_derivedBy now])
  end.

Definition recordFactLineage (now : Z) (factKey turnId blockId : string)
    (t : list node) : nat * list node :=
  (length t,
   t ++ [mkNode (String.append "fact:" factKey) fact [turnId; blockId]
                "fact_scrubber_v1" now]).

Definition recordMemoryLineage (now : Z) (memoryId turnId : string)
    (chunkId : option string) (t : list node) : nat * list node :=
  let derivedFrom :=
    [turnId] ++ (if BridgeBlocks.truthy chunkId
                 then [default ""%string chunkId] else []) in
  (length t,
   t ++ [mkNode memoryId memory derivedFrom "embedding_engine_v1" now]).

Definition recordChunkLineage (now : Z) (chunkId turnId blockId : string)
    (parentChunkId : option string) (t : list node) : nat * list node :=
  let derivedFrom :=
    [turnId; blockId] ++ (if BridgeBlocks.truthy parentChunkId
                          then [default ""%string parentChunkId] else []) in
  (length t,
   t ++ [mkNode chunkId chunk derivedFrom "chunk_engine_v1" now]).

Definition getLineage (id : string) (t : list node) : option node :=
  snd <$> first_by_itemId id t.

Record integrity : Set := mkIntegrity {
  valid : bool;
  orphanedItems : list string;
  brokenReferences : list (string * string)
}.

Definition validateIntegrity (allLineage : list node) : integrity :=
  let allItemIds := Js.Set_of (itemId <$> allLineage) in
  let '(orphanedItems, brokenReferences) :=
    foldl (λ acc lineage,
             let broken :=
               foldl (λ broken ref,
                        if negb (Js.Set_has allItemIds ref)
                        then broken ++ [(itemId lineage, ref)]
                        else broken)
                     acc.2 (derivedFrom lineage) in
             let orphaned :=
               if (length (derivedFrom lineage) =? 0)%nat
               then
                 let hasChildren :=
                   existsb (λ l, bool_decide (itemId lineage ∈ derivedFrom l))
                           allLineage in
                 if negb hasChildren then acc.1 ++ [itemId lineage]
                 else acc.1
               else acc.1 in
             (orphaned, broken))
          ([], []) allLineage in
  mkIntegrity (length brokenReferences =? 0)%nat orphanedItems
              brokenReferences.

End Lineage.


(** * Proofs *)

(** ** Fact store *)

Section FactStore.
Import Facts.

Lemma by_key_snoc k t x :
  by_key k (t ++ [x]) =
  by_key k t ++ (if decide (key x = k) then [(length t, x)] else []).
Proof.
  unfold by_key. rewrite imap_app, filter_app. f_equal.
  cbn. by rewrite Nat.add_0_r.
Qed.

Lemma get_snoc k t x :
  get k (t ++ [x]) =
  if decide (key x = k)
  then (if not_superseded x then Some (length t, x) else get k t)
  else get k t.
Proof.
  unfold get. rewrite by_key_snoc. case_decide.
  - rewrite reverse_app. cbn. done.
  - by rewrite app_nil_r.
Qed.

Lemma not_superseded_true f : not_superseded f = true ↔ supersededBy f = None.
Proof. unfold not_superseded. destruct (supersededBy f); naive_solver. Qed.

Lemma get_Some_inv k t i f :
  get k t = Some (i, f) →
  t !! i = Some f ∧ key f = k ∧ supersededBy f = None ∧
  ∀ j g, t !! j = Some g → key g = k → supersededBy g = None → j ≤ i.
Proof.
  revert i f. induction t as [|x t IH] using rev_ind; intros i f.
  - discriminate.
  - rewrite get_snoc. intros Hget.
    assert (Hold : get k t = Some (i, f) →
                   (key x = k → supersededBy x = None → False) →
      (t ++ [x]) !! i = Some f ∧ key f = k ∧ supersededBy f = None ∧
      ∀ j g, (t ++ [x]) !! j = Some g → key g = k →
             supersededBy g = None → j ≤ i).
    { intros Hg Hx. destruct (IH _ _ Hg) as (Hi & Hk & Hs & Hmax).
      split_and!; try done.
      - by apply lookup_app_l_Some.
      - intros j g Hj Hgk Hgs.
        apply lookup_app_Some in Hj as [Hj | [Hlen Hj]]; [by eauto|].
        apply list_lookup_singleton_Some in Hj as [_ <-]. by destruct Hx. }
    case_decide as Hk.
    + destruct (not_superseded x) eqn:Hns.
      * injection Hget as <- <-. apply not_superseded_true in Hns.
        split_and!; try done.
        -- by rewrite lookup_app_r, Nat.sub_diag.
        -- intros j g Hj _ _. apply lookup_lt_Some in Hj.
           rewrite length_app in Hj. cbn in Hj. lia.
      * apply Hold; [done|]. intros _ Hs.
        apply not_superseded_true in Hs. congruence.
    + apply Hold; [done|]. intros Hk' _. done.
Qed.

Lemma get_None_iff k t : get k t = None ↔ live k t = [].
Proof.
  induction t as [|x t IH] using rev_ind; [done|].
  rewrite get_snoc. unfold live in *. rewrite filter_app, filter_cons, filter_nil.
  case_decide as Hk.
  - destruct (not_superseded x) eqn:Hns.
    + apply not_superseded_true in Hns.
      rewrite decide_True by done. split; [done|].
      intros H. apply app_nil in H. naive_solver.
    + rewrite decide_False, app_nil_r; [done|].
      intros [_ Hs]. apply not_superseded_true in Hs. congruence.
  - rewrite decide_False, app_nil_r; [done|]. naive_solver.
Qed.

Lemma supersede_row_hit k n x :
  key x = k → not_superseded x = true →
  supersede_row k n x = set_supersededBy n x.
Proof.
  intros Hk Hns. apply not_superseded_true in Hns.
  unfold supersede_row. by rewrite decide_True.
Qed.

Lemma supersede_row_miss k n x :
  key x ≠ k ∨ not_superseded x = false → supersede_row k n x = x.
Proof.
  intros H. unfold supersede_row. rewrite decide_False; [done|].
  intros [Hk Hs]. apply not_superseded_true in Hs.
  destruct H; congruence.
Qed.

(** What the supersession loop of [store] does to the table. *)
Lemma supersede_existing_spec k n pre l post :
  supersede_existing n
    (filter (λ p, key p.2 = k) (imap (λ i f, (length pre + i, f)) l))
    (pre ++ l ++ post)
  = pre ++ (supersede_row k n <$> l) ++ post.
Proof.
  revert pre. induction l as [|x l IH]; intros pre; [done|].
  rewrite imap_cons, filter_cons. cbn [snd fmap list_fmap].
  assert (Hrest :
    supersede_existing n
      (filter (λ p, key p.2 = k)
              (imap ((λ i f, (length pre + i, f)) ∘ S) l))
      (pre ++ supersede_row k n x :: l ++ post)
    = pre ++ supersede_row k n x :: (supersede_row k n <$> l) ++ post).
  { specialize (IH (pre ++ [supersede_row k n x])).
    rewrite <- !(assoc_L (++)) in IH. cbn in IH. rewrite <- IH.
    f_equal. f_equal. apply imap_ext. intros i f _. cbn.
    rewrite length_app. cbn. f_equal. lia. }
  unfold supersede_existing in *. case_decide as Hk.
  - cbn [foldl fst snd]. destruct (not_superseded x) eqn:Hns.
    + rewrite (supersede_row_hit k n x) in * by done.
      change (pre ++ (set_supersededBy n x :: (supersede_row k n <$> l)) ++ post)
        with (pre ++ set_supersededBy n x :: (supersede_row k n <$> l) ++ post).
      rewrite <- Hrest. f_equal.
      unfold patch_supersededBy.
      by rewrite (alter_app_r (set_supersededBy n) pre ((x :: l) ++ post) 0).
    + rewrite (supersede_row_miss k n x) in * by (right; done). done.
  - rewrite (supersede_row_miss k n x) in * by (left; done). done.
Qed.

Lemma store_spec now a t :
  store now a t =
  (length t,
   (supersede_row (d_key a) (length t) <$> t) ++ [new_row now a]).
Proof.
  unfold store, db_insert, by_key. f_equal.
  pose proof (supersede_existing_spec (d_key a) (length t) [] t
                [new_row now a]) as H.
  cbn in H. exact H.
Qed.

Lemma supersede_row_key k n f : key (supersede_row k n f) = key f.
Proof. unfold supersede_row. by case_decide. Qed.

Lemma live_supersede_same k n t : live k (supersede_row k n <$> t) = [].
Proof.
  unfold live. induction t as [|x t IH]; [done|].
  cbn [fmap list_fmap]. rewrite filter_cons, IH.
  rewrite decide_False; [done|].
  unfold supersede_row. case_decide; cbn; naive_solver.
Qed.

Lemma live_supersede_other k k' n t :
  k' ≠ k → live k' (supersede_row k n <$> t) = live k' t.
Proof.
  intros Hne. unfold live. induction t as [|x t IH]; [done|].
  cbn [fmap list_fmap]. rewrite !filter_cons, IH.
  unfold supersede_row.
  destruct (decide (key x = k ∧ supersededBy x = None)) as [[Hx _]|Hx];
    [|done].
  rewrite !decide_False; [done| |]; cbn; naive_solver.
Qed.

(** After [store], the inserted row is the only live row of its key. *)
Lemma live_store_same now a t :
  live (d_key a) (store now a t).2 = [new_row now a].
Proof.
  rewrite store_spec. cbn [snd]. unfold live.
  rewrite filter_app. fold (live (d_key a) (supersede_row (d_key a) (length t) <$> t)).
  rewrite live_supersede_same, app_nil_l.
  rewrite filter_cons, filter_nil. by rewrite decide_True.
Qed.

Lemma live_store_other now a t k :
  k ≠ d_key a → live k (store now a t).2 = live k t.
Proof.
  intros Hne. rewrite store_spec. cbn [snd]. unfold live.
  rewrite filter_app. fold (live k (supersede_row (d_key a) (length t) <$> t)).
  rewrite live_supersede_other by done.
  rewrite filter_cons, filter_nil. rewrite decide_False, app_nil_r; [done|].
  cbn. naive_solver.
Qed.

(** [store] keeps the invariant "at most one live row per key". *)
Lemma store_preserves_unique now a t :
  unique_live t → unique_live (store now a t).2.
Proof.
  intros Hinv k. destruct (decide (k = d_key a)) as [->|Hne].
  - by rewrite live_store_same.
  - rewrite live_store_other by done. apply Hinv.
Qed.

Lemma storeBatch_snd now facts t :
  (storeBatch now facts t).2 = foldl (λ t a, (store now a t).2) t facts.
Proof.
  unfold storeBatch. change t with (([] : list nat, t).2) at 2.
  generalize (([] : list nat), t). clear t.
  induction facts as [|a facts IH]; intros acc; [done|].
  cbn [foldl]. rewrite IH. by destruct (store now a acc.2).
Qed.

Lemma storeBatch_preserves_unique now facts t :
  unique_live t → unique_live (storeBatch now facts t).2.
Proof.
  rewrite storeBatch_snd. revert t.
  induction facts as [|a facts IH]; intros t Hinv; [done|].
  cbn [foldl]. apply IH. by apply store_preserves_unique.
Qed.

Lemma get_Some_iff k t i f :
  get k t = Some (i, f) ↔
  t !! i = Some f ∧ key f = k ∧ supersededBy f = None ∧
  ∀ j g, t !! j = Some g → key g = k → supersededBy g = None → j ≤ i.
Proof.
  split; [apply get_Some_inv|].
  intros (Hi & Hk & Hs & Hmax).
  destruct (get k t) as [[j g]|] eqn:Hget.
  - apply get_Some_inv in Hget as (Hj & Hgk & Hgs & Hgmax).
    assert (j = i) as -> by (apply Nat.le_antisymm; eauto).
    congruence.
  - apply get_None_iff in Hget.
    assert (f ∈ live k t) as Hin.
    { apply list_elem_of_filter. split; [done|].
      by eapply list_elem_of_lookup_2. }
    rewrite Hget in Hin. by apply elem_of_nil in Hin.
Qed.

Lemma remove_spec now i f t :
  t !! i = Some f →
  remove now i t =
  take i t ++ set_supersededBy (length t) f :: drop (S i) t
       ++ [deleted_row now f].
Proof.
  intros Hi. unfold remove, db_insert, patch_supersededBy. rewrite Hi.
  pose proof (lookup_lt_Some _ _ _ Hi) as Hlt.
  rewrite <- (take_drop_middle t i f Hi) at 2.
  rewrite <- (assoc_L (++)). cbn [app].
  assert (i = length (take i t) + 0) as Hlen
    by (rewrite length_take; lia).
  rewrite Hlen at 1. rewrite alter_app_r. done.
Qed.

(** [remove] keeps the invariant when its target is the live row. *)
Lemma remove_live_preserves_unique now i f t :
  t !! i = Some f → supersededBy f = None →
  unique_live t → unique_live (remove now i t).
Proof.
  intros Hi Hs Hinv k. rewrite (remove_spec now i f t Hi).
  specialize (Hinv k). rewrite <- (take_drop_middle t i f Hi) in Hinv.
  unfold live in *.
  rewrite filter_app, filter_cons, length_app in Hinv.
  rewrite filter_app, filter_cons, filter_app, filter_cons, filter_nil.
  rewrite (decide_False (P := _ ∧ supersededBy (set_supersededBy _ _) = None))
    by (cbn; naive_solver).
  rewrite !length_app.
  destruct (decide (key f = k)) as [Hk|Hk].
  - rewrite decide_True in Hinv by done.
    rewrite decide_True by done. cbn in *. lia.
  - rewrite decide_False in Hinv by naive_solver.
    rewrite decide_False by (cbn; naive_solver). cbn in *. lia.
Qed.

(** A [remove] of an existing row always inserts a row. *)
Lemma remove_length now i t :
  i < length t → length (remove now i t) = S (length t).
Proof.
  intros Hlt. destruct (lookup_lt_is_Some_2 t i Hlt) as [f Hi].
  unfold remove, db_insert, patch_supersededBy. rewrite Hi.
  rewrite length_alter, length_app. cbn. lia.
Qed.



(** Claim C1, evaluated on the code.  Store a key twice, then [remove] the
    first (already superseded) row: the call inserts a second live row for
    the key, so two rows have [supersededBy = null]; [get] then answers
    with the [[DELETED]] row although the current value was never removed;
    and the call is not idempotent on the superseded row. *)
Theorem remove_superseded_breaks_unique_live :
  let a1 := mkFactData "project_alpha_deadline"%string "Friday"%string (Some date) 1 None None in
  let a2 := mkFactData "project_alpha_deadline"%string "Monday"%string (Some date) 2 None None in
  let t2 := run [Store 10 a1; Store 20 a2] in
  let t3 := run [Store 10 a1; Store 20 a2; Remove 30 0] in
  length (live "project_alpha_deadline"%string t2) = 1 ∧
  not_superseded <$> (t2 !! 0) = Some false ∧
  value <$> live "project_alpha_deadline"%string t3 = ["Monday"%string; "[DELETED]"%string] ∧
  (value ∘ snd) <$> get "project_alpha_deadline"%string t3 = Some "[DELETED]"%string ∧
  length t3 = S (length t2).
Proof. vm_compute. done. Qed.

End FactStore.


(** ** Bridge block manager *)

Section IndexedLoops.
Context {A : Type}.

(** A loop that patches, in a table, the rows of an index read taken from
    that same table: every row the index returns and the guard accepts is
    rewritten in place, every other row is left as it is. *)
Lemma foldl_alter_indexed (Q : nat * A → Prop) `{!∀ p, Decision (Q p)}
    (c : nat * A → bool) (g : A → A) (pre l post : list A) :
  foldl (λ t p, if c p then alter g p.1 t else t) (pre ++ l ++ post)
        (filter Q (imap (λ i x, (length pre + i, x)) l))
  = pre ++ imap (λ i x, if bool_decide (Q (length pre + i, x))
                             && c (length pre + i, x)
                        then g x else x) l ++ post.
Proof.
  revert pre. induction l as [|x l IH]; intros pre; [done|].
  rewrite !imap_cons, filter_cons.
  specialize (IH (pre ++ [if bool_decide (Q (length pre + 0, x))
                             && c (length pre + 0, x) then g x else x])).
  rewrite <- !(assoc_L (++)) in IH. cbn [app] in IH.
  rewrite length_app in IH. cbn [length] in IH.
  erewrite (imap_ext (λ i x0, (length pre + 1 + i, x0))
                     ((λ i x0, (length pre + i, x0)) ∘ S)) in IH;
    [|intros; cbn; f_equal; lia].
  erewrite (imap_ext (λ i x0, if bool_decide (Q (length pre + 1 + i, x0))
                                 && c (length pre + 1 + i, x0)
                              then g x0 else x0)
              (λ i x0, if bool_decide (Q (length pre + S i, x0))
                          && c (length pre + S i, x0)
                       then g x0 else x0)) in IH;
    [|intros i y _; cbn; by replace (length pre + 1 + i) with (length pre + S i) by lia].
  cbn [app]. change ((x :: l) ++ post) with (x :: l ++ post).
  etrans; [|exact IH]. clear IH.
  case_decide as HQ.
  - rewrite bool_decide_eq_true_2 by done. cbn [andb foldl fst].
    destruct (c (length pre + 0, x)) eqn:Hc; [|done].
    by rewrite (alter_app_r g pre (x :: l ++ post) 0).
  - rewrite bool_decide_eq_false_2 by done. done.
Qed.

Lemma foldl_alter_index_read (Q : nat * A → Prop) `{!∀ p, Decision (Q p)}
    (c : nat * A → bool) (g : A → A) (l : list A) :
  foldl (λ t p, if c p then alter g p.1 t else t) l
        (filter Q (imap (λ i x, (i, x)) l))
  = imap (λ i x, if bool_decide (Q (i, x)) && c (i, x) then g x else x) l.
Proof.
  pose proof (foldl_alter_indexed Q c g [] l []) as Hgen.
  cbn in Hgen. rewrite !app_nil_r in Hgen. exact Hgen.
Qed.
End IndexedLoops.

Section Blocks.
Import BridgeBlocks.

(** The status a block has after the pausing loops: an ACTIVE block that
    the loop reaches becomes PAUSED. *)
Lemma status_apply_patch p b :
  blockStatus (apply_patch p b) = default (blockStatus b) (p_status p).
Proof. done. Qed.

Lemma pause_all_spec now bs :
  pause_all now (by_status ACTIVE bs) bs =
  imap (λ _ b, if bool_decide (blockStatus b = ACTIVE)
               then apply_patch (pause_patch now) b else b) bs.
Proof.
  unfold pause_all, by_status.
  etrans; [exact (foldl_alter_index_read
                    (λ p, blockStatus p.2 = ACTIVE) (λ _, true)
                    (apply_patch (pause_patch now)) bs)|].
  apply imap_ext. intros i b _. cbn. by rewrite andb_true_r.
Qed.

Lemma pause_others_spec now id bs :
  pause_others now id (by_status ACTIVE bs) bs =
  imap (λ i b, if bool_decide (blockStatus b = ACTIVE) && bool_decide (i ≠ id)
               then apply_patch (pause_patch now) b else b) bs.
Proof.
  unfold pause_others, by_status.
  exact (foldl_alter_index_read
           (λ p, blockStatus p.2 = ACTIVE) (λ p, bool_decide (p.1 ≠ id))
           (apply_patch (pause_patch now)) bs).
Qed.

Lemma one_active_mono bs bs' :
  no_new_active bs bs' → one_active bs → one_active bs'.
Proof.
  intros Hnew Hone i j b c Hi Hj Hb Hc.
  destruct (Hnew _ _ Hi Hb) as (b0 & Hi0 & Hb0).
  destruct (Hnew _ _ Hj Hc) as (c0 & Hj0 & Hc0).
  eauto.
Qed.

Lemma no_new_active_refl bs : no_new_active bs bs.
Proof. intros i b Hi Hb. eauto. Qed.

(** A patch that does not set the status to ACTIVE creates no ACTIVE
    block. *)
Lemma no_new_active_alter p id bs :
  p_status p ≠ Some ACTIVE →
  no_new_active bs (alter (apply_patch p) id bs).
Proof.
  intros Hp i b Hi Hb. destruct (decide (i = id)) as [->|Hne].
  - rewrite list_lookup_alter_eq in Hi.
    destruct (bs !! id) as [b0|] eqn:E; [|done]. injection Hi as <-.
    exists b0. split; [done|]. rewrite status_apply_patch in Hb.
    destruct (p_status p) as [st|]; [|done]. cbn in Hb. congruence.
  - rewrite list_lookup_alter_ne in Hi by done. eauto.
Qed.

(** After [create], the only ACTIVE block is the new one. *)
Lemma create_only_new_active now day label kws prev d i b :
  bridgeBlocks (create now day label kws prev d).2 !! i = Some b →
  blockStatus b = ACTIVE →
  i = (create now day label kws prev d).1.
Proof.
  unfold create. cbn [fst snd bridgeBlocks]. rewrite pause_all_spec.
  intros Hi Hb. apply lookup_app_Some in Hi as [Hi|[Hlen Hi]].
  - rewrite list_lookup_imap in Hi.
    destruct (bridgeBlocks d !! i) as [b0|]; [|done]. injection Hi as <-.
    case_bool_decide; [done|congruence].
  - apply list_lookup_singleton_Some in Hi as [Hi _]. lia.
Qed.

Lemma create_one_active now day label kws prev d :
  one_active (bridgeBlocks (create now day label kws prev d).2).
Proof.
  intros i j b c Hi Hj Hb Hc.
  rewrite (create_only_new_active _ _ _ _ _ _ _ _ Hi Hb).
  by rewrite (create_only_new_active _ _ _ _ _ _ _ _ Hj Hc).
Qed.

(** After [updateStatus(blockId, ACTIVE)], the only ACTIVE block is
    [blockId]. *)
Lemma updateStatus_only_target_active now id d d' i b :
  updateStatus now id ACTIVE d = Some d' →
  bridgeBlocks d' !! i = Some b → blockStatus b = ACTIVE → i = id.
Proof.
  unfold updateStatus, db_patch. rewrite decide_True by done.
  rewrite pause_others_spec.
  destruct (imap _ _ !! id) as [b1|]; [|done]. cbn.
  intros [= <-]. cbn [bridgeBlocks]. intros Hi Hb.
  destruct (decide (i = id)) as [|Hne]; [done|].
  rewrite list_lookup_alter_ne, list_lookup_imap in Hi by done.
  destruct (bridgeBlocks d !! i) as [b0|]; [|done]. injection Hi as <-.
  rewrite (bool_decide_eq_true_2 (i ≠ id)), andb_true_r in Hb by done.
  case_bool_decide; [done|congruence].
Qed.

Lemma updateStatus_other_no_new now id st d d' :
  st ≠ ACTIVE → updateStatus now id st d = Some d' →
  no_new_active (bridgeBlocks d) (bridgeBlocks d').
Proof.
  intros Hst. unfold updateStatus, db_patch. rewrite decide_False by done.
  destruct (bridgeBlocks d !! id); [|done]. cbn. intros [= <-].
  cbn [bridgeBlocks]. apply no_new_active_alter. cbn. congruence.
Qed.

Lemma pauseWithSummary_no_new now id d :
  no_new_active (bridgeBlocks d) (bridgeBlocks (pauseWithSummary now id d)).
Proof.
  unfold pauseWithSummary. destruct (bridgeBlocks d !! id).
  - cbn [bridgeBlocks]. by apply no_new_active_alter.
  - apply no_new_active_refl.
Qed.

Lemma appendTurn_no_new now id tid u a kws aff d :
  no_new_active (bridgeBlocks d)
                (bridgeBlocks (appendTurn now id tid u a kws aff d).2).
Proof.
  unfold appendTurn. cbn [snd bridgeBlocks]. destruct (bridgeBlocks d !! id).
  - by apply no_new_active_alter.
  - apply no_new_active_refl.
Qed.

Lemma updateMetadata_no_new now id s kws ol dm d d' :
  updateMetadata now id s kws ol dm d = Some d' →
  no_new_active (bridgeBlocks d) (bridgeBlocks d').
Proof.
  unfold updateMetadata, db_patch.
  destruct (bridgeBlocks d !! id); [|done]. cbn. intros [= <-].
  cbn [bridgeBlocks]. by apply no_new_active_alter.
Qed.

Lemma updateMetadataFromResponse_no_new now id m d :
  no_new_active (bridgeBlocks d)
                (bridgeBlocks (updateMetadataFromResponse now id m d)).
Proof.
  unfold updateMetadataFromResponse. destruct (bridgeBlocks d !! id).
  - cbn [bridgeBlocks]. by apply no_new_active_alter.
  - apply no_new_active_refl.
Qed.

(** Every mutation keeps "at most one ACTIVE block". *)
Lemma step_one_active d o :
  one_active (bridgeBlocks d) → one_active (bridgeBlocks (step d o)).
Proof.
  intros Hone. destruct o as [now day label kws prev|now id st|now id
    |now id tid u a kws aff|now id s kws ol dm|now id m]; cbn [step].
  - apply create_one_active.
  - destruct (updateStatus now id st d) as [d'|] eqn:E; [|done]. cbn.
    destruct (decide (st = ACTIVE)) as [->|Hst].
    + intros i j b c Hi Hj Hb Hc.
      rewrite (updateStatus_only_target_active _ _ _ _ _ _ E Hi Hb).
      by rewrite (updateStatus_only_target_active _ _ _ _ _ _ E Hj Hc).
    + eapply one_active_mono; [|done].
      by eapply updateStatus_other_no_new.
  - eapply one_active_mono; [|done]. apply pauseWithSummary_no_new.
  - eapply one_active_mono; [|done]. apply appendTurn_no_new.
  - destruct (updateMetadata now id s kws ol dm d) as [d'|] eqn:E; [|done].
    cbn. eapply one_active_mono; [|done]. by eapply updateMetadata_no_new.
  - eapply one_active_mono; [|done]. apply updateMetadataFromResponse_no_new.
Qed.

Lemma run_one_active ops d :
  one_active (bridgeBlocks d) → one_active (bridgeBlocks (run ops d)).
Proof.
  revert d. induction ops as [|o ops IH]; intros d Hone; [done|].
  cbn. apply IH. by apply step_one_active.
Qed.

(** Index uniqueness bounds the number of ACTIVE blocks of any day. *)
Lemma one_active_day day bs :
  one_active bs → length (active_of_day day bs) ≤ 1.
Proof.
  unfold active_of_day. induction bs as [|b bs IH]; intros Hone; [cbn; lia|].
  rewrite filter_cons. case_decide as Hb.
  - assert (filter (λ b, dayId b = day ∧ blockStatus b = ACTIVE) bs = [])
      as ->; [|cbn; lia].
    destruct (filter _ bs) as [|y l'] eqn:E; [done|].
    assert (y ∈ filter (λ b, dayId b = day ∧ blockStatus b = ACTIVE) bs)
      as Hy by (rewrite E; left).
    apply list_elem_of_filter in Hy as [[_ Hya] Hy].
    apply list_elem_of_lookup in Hy as [j Hj].
    assert (0 = S j) by (eapply (Hone 0 (S j)); naive_solver). lia.
  - apply IH. intros i j x y Hi Hj Hx Hy.
    assert (S i = S j) by (eapply (Hone (S i) (S j)); eauto). lia.
Qed.

Lemma create_lookup_old now day label kws prev d i b :
  bridgeBlocks d !! i = Some b →
  blockStatus <$> bridgeBlocks (create now day label kws prev d).2 !! i =
  Some (if bool_decide (blockStatus b = ACTIVE) then PAUSED
        else blockStatus b).
Proof.
  intros Hi. unfold create. cbn [snd bridgeBlocks]. rewrite pause_all_spec.
  rewrite lookup_app_l
    by (rewrite length_imap; by eapply lookup_lt_Some).
  rewrite list_lookup_imap, Hi. cbn. by case_bool_decide.
Qed.

Lemma create_lookup_new now day label kws prev d :
  (create now day label kws prev d).1 = length (bridgeBlocks d) ∧
  blockStatus <$> bridgeBlocks (create now day label kws prev d).2
                  !! (create now day label kws prev d).1 = Some ACTIVE.
Proof.
  unfold create. cbn [fst snd bridgeBlocks]. rewrite pause_all_spec.
  rewrite length_imap. split; [done|].
  rewrite lookup_app_r by (rewrite length_imap; lia).
  by rewrite length_imap, Nat.sub_diag.
Qed.

Lemma updateStatus_active_spec now id d b0 :
  bridgeBlocks d !! id = Some b0 →
  ∃ d', updateStatus now id ACTIVE d = Some d' ∧
        blockStatus <$> bridgeBlocks d' !! id = Some ACTIVE ∧
        ∀ i b, i ≠ id → bridgeBlocks d !! i = Some b →
               blockStatus <$> bridgeBlocks d' !! i =
               Some (if bool_decide (blockStatus b = ACTIVE) then PAUSED
                     else blockStatus b).
Proof.
  intros Hid. unfold updateStatus, db_patch. rewrite decide_True by done.
  rewrite pause_others_spec. rewrite list_lookup_imap, Hid. cbn.
  eexists. split; [done|]. cbn [bridgeBlocks]. split.
  - rewrite list_lookup_alter_eq, list_lookup_imap, Hid. done.
  - intros i b Hne Hi.
    rewrite list_lookup_alter_ne, list_lookup_imap, Hi by done. cbn.
    rewrite (bool_decide_eq_true_2 (i ≠ id)), andb_true_r by done.
    by case_bool_decide.
Qed.

Lemma pauseWithSummary_spec now id d :
  (∀ b, bridgeBlocks d !! id = Some b →
        blockStatus <$> bridgeBlocks (pauseWithSummary now id d) !! id
        = Some PAUSED) ∧
  (∀ i, i ≠ id →
        bridgeBlocks (pauseWithSummary now id d) !! i = bridgeBlocks d !! i).
Proof.
  unfold pauseWithSummary. split.
  - intros b Hid. rewrite Hid. cbn [bridgeBlocks].
    by rewrite list_lookup_alter_eq, Hid.
  - intros i Hne. destruct (bridgeBlocks d !! id); [|done].
    cbn [bridgeBlocks]. by rewrite list_lookup_alter_ne.
Qed.

(** Claim C3.  After any sequence of block mutations from the empty table
    at most one block is ACTIVE, process-wide and so for every [dayId];
    [create] turns every ACTIVE block into PAUSED and inserts the new block
    as ACTIVE; [updateStatus(blockId, ACTIVE)] on an existing block turns
    every other ACTIVE block into PAUSED and the target into ACTIVE;
    [pauseWithSummary] sets its target to PAUSED and touches no other
    block. *)
Theorem at_most_one_active_block :
  (∀ (ops : list op) (day : string),
     one_active (bridgeBlocks (run ops empty)) ∧
     length (active_of_day day (bridgeBlocks (run ops empty))) ≤ 1) ∧
  (∀ now day label kws prev d,
     let r := create now day label kws prev d in
     r.1 = length (bridgeBlocks d) ∧
     blockStatus <$> bridgeBlocks r.2 !! r.1 = Some ACTIVE ∧
     ∀ i b, bridgeBlocks d !! i = Some b →
            blockStatus <$> bridgeBlocks r.2 !! i =
            Some (if bool_decide (blockStatus b = ACTIVE) then PAUSED
                  else blockStatus b)) ∧
  (∀ now id d b0,
     bridgeBlocks d !! id = Some b0 →
     ∃ d', updateStatus now id ACTIVE d = Some d' ∧
           blockStatus <$> bridgeBlocks d' !! id = Some ACTIVE ∧
           ∀ i b, i ≠ id → bridgeBlocks d !! i = Some b →
                  blockStatus <$> bridgeBlocks d' !! i =
                  Some (if bool_decide (blockStatus b = ACTIVE) then PAUSED
                        else blockStatus b)) ∧
  (∀ now id d,
     (∀ b, bridgeBlocks d !! id = Some b →
           blockStatus <$> bridgeBlocks (pauseWithSummary now id d) !! id
           = Some PAUSED) ∧
     (∀ i, i ≠ id →
           bridgeBlocks (pauseWithSummary now id d) !! i
           = bridgeBlocks d !! i)).
Proof.
  split_and!.
  - intros ops day.
    assert (one_active (bridgeBlocks (run ops empty))) as Hone.
    { apply run_one_active. intros i j b c Hi. done. }
    split; [done|]. by apply one_active_day.
  - intros now day label kws prev d r. subst r.
    destruct (create_lookup_new now day label kws prev d) as [H1 H2].
    split_and!; [done..|]. intros i b. apply create_lookup_old.
  - intros now id d b0. apply updateStatus_active_spec.
  - intros now id d. apply pauseWithSummary_spec.
Qed.

(** The theorem on a table of two blocks: re-activating the first one
    pauses the second. *)
Lemma at_most_one_active_block_witness :
  let d1 := (create 1 "2025-01-01" "Contracts" [] None empty).2 in
  let d2 := (create 2 "2025-01-01" "Cooking" [] None d1).2 in
  ∃ d', updateStatus 3 0 ACTIVE d2 = Some d' ∧
        blockStatus <$> bridgeBlocks d' !! 0 = Some ACTIVE ∧
        blockStatus <$> bridgeBlocks d' !! 1 = Some PAUSED.
Proof.
  intros d1 d2.
  destruct (proj1 (proj2 (proj2 at_most_one_active_block)) 3%Z 0 d2
              (mkBlock "2025-01-01" "Contracts" None [] PAUSED None [] []
                       0 1 2) eq_refl)
    as (d' & Hd' & Hid & Hothers).
  exists d'. split_and!; [exact Hd'|exact Hid|].
  exact (Hothers 1 (mkBlock "2025-01-01" "Cooking" None [] ACTIVE None [] []
                            0 2 2) ltac:(lia) eq_refl).
Defined.

End Blocks.


(** ** Sets in insertion order, and the metadata merge *)

Section JsSets.
Import Js.

Lemma Set_add_elem_of s x y : y ∈ Set_add s x ↔ y ∈ s ∨ y = x.
Proof.
  unfold Set_add, Set_has. case_bool_decide as Hx.
  - split; [by left|]. intros [?| ->]; done.
  - rewrite elem_of_app, list_elem_of_singleton. done.
Qed.

Lemma Set_add_NoDup s x : NoDup s → NoDup (Set_add s x).
Proof.
  intros Hs. unfold Set_add, Set_has. case_bool_decide as Hx; [done|].
  apply NoDup_app. split_and!; [done| |apply NoDup_singleton].
  intros y Hy Hyx. apply list_elem_of_singleton in Hyx as ->. done.
Qed.

Lemma Set_add_prefix s x : s `prefix_of` Set_add s x.
Proof.
  unfold Set_add. destruct (Set_has s x); [done|]. by apply prefix_app_r.
Qed.

Lemma foldl_Set_add_elem_of s l y :
  y ∈ foldl Set_add s l ↔ y ∈ s ∨ y ∈ l.
Proof.
  revert s. induction l as [|x l IH]; intros s; cbn.
  - rewrite elem_of_nil. naive_solver.
  - rewrite IH, Set_add_elem_of, elem_of_cons. naive_solver.
Qed.

Lemma foldl_Set_add_NoDup s l : NoDup s → NoDup (foldl Set_add s l).
Proof.
  revert s. induction l as [|x l IH]; intros s Hs; [done|].
  cbn. apply IH. by apply Set_add_NoDup.
Qed.

Lemma foldl_Set_add_prefix s l : s `prefix_of` foldl Set_add s l.
Proof.
  revert s. induction l as [|x l IH]; intros s; [done|].
  cbn. etrans; [apply Set_add_prefix|apply IH].
Qed.

(** Elements already present are skipped. *)
Lemma foldl_Set_add_absorb s l :
  (∀ x, x ∈ l → x ∈ s) → foldl Set_add s l = s.
Proof.
  revert s. induction l as [|x l IH]; intros s Hl; [done|].
  cbn. unfold Set_add at 2, Set_has.
  rewrite bool_decide_eq_true_2 by (apply Hl; left).
  apply IH. intros y Hy. apply Hl. by right.
Qed.

Lemma Set_of_app l1 l2 : foldl Set_add (Set_of l1) l2 = Set_of (l1 ++ l2).
Proof. unfold Set_of. by rewrite foldl_app. Qed.

Lemma Set_of_elem_of l y : y ∈ Set_of l ↔ y ∈ l.
Proof.
  unfold Set_of. rewrite foldl_Set_add_elem_of, elem_of_nil. naive_solver.
Qed.

Lemma Set_of_NoDup l : NoDup (Set_of l).
Proof. apply foldl_Set_add_NoDup. constructor. Qed.

(** A list without repetition is its own set. *)
Lemma Set_of_id l : NoDup l → Set_of l = l.
Proof.
  induction l as [|x l IH] using rev_ind; intros Hl; [done|].
  apply NoDup_app in Hl as (Hl & Hx & _).
  unfold Set_of in *. rewrite foldl_app. cbn. rewrite IH by done.
  unfold Set_add, Set_has. rewrite bool_decide_eq_false_2; [done|].
  intros Hin. apply (Hx x Hin). left.
Qed.

End JsSets.

Section Metadata.
Import BridgeBlocks.

Lemma merge_eq n existing new :
  merge n existing new = take n (Js.Set_of (existing ++ new)).
Proof. unfold merge. by rewrite Set_of_app. Qed.

(** The merge is a deduplicated ordered set, clamped to [n] elements: no
    repetition, at most [n] elements, only supplied or stored elements, and
    the stored elements come first, in their stored order. *)
Lemma merge_spec n existing new :
  NoDup (merge n existing new) ∧
  length (merge n existing new) ≤ n ∧
  (∀ x, x ∈ merge n existing new → x ∈ existing ∨ x ∈ new) ∧
  (length (Js.Set_of (existing ++ new)) ≤ n →
   ∀ x, x ∈ existing ∨ x ∈ new → x ∈ merge n existing new) ∧
  take n (Js.Set_of existing) `prefix_of` merge n existing new.
Proof.
  rewrite merge_eq. split_and!.
  - eapply sublist_NoDup; [apply Set_of_NoDup|apply sublist_take].
  - rewrite length_take. lia.
  - intros x Hx. apply elem_of_take in Hx as (i & Hx & _).
    apply list_elem_of_lookup_2 in Hx.
    by rewrite Set_of_elem_of, elem_of_app in Hx.
  - intros Hlen x Hx. rewrite take_ge by done.
    by rewrite Set_of_elem_of, elem_of_app.
  - rewrite <- Set_of_app.
    destruct (foldl_Set_add_prefix (Js.Set_of existing) new) as [k ->].
    rewrite take_app. apply prefix_app_r. done.
Qed.

(** Claim C5 fails as stated: [updateMetadata] neither merges, nor
    deduplicates, nor clamps.  On a block that stores the keyword
    [contract], supplying [law; law] leaves exactly [law; law], and
    supplying 21 distinct keywords leaves all 21. *)
Lemma updateMetadata_does_not_merge :
  let d0 := (create 1 "2025-01-01" "Contracts" ["contract"%string] None
                    empty).2 in
  (d' ← updateMetadata 2 0 None (Some ["law"; "law"]%string) None None d0;
   keywords <$> bridgeBlocks d' !! 0) = Some ["law"; "law"]%string ∧
  (d' ← updateMetadata 2 0 None (Some (pretty <$> seq 0 21)) None None d0;
   length ∘ keywords <$> bridgeBlocks d' !! 0) = Some 21.
Proof. vm_compute. done. Qed.

(** Claim C5, as amended.  [updateMetadata] on an existing block writes
    each supplied field over the stored one and leaves the others as they
    are.  The merge is the work of [updateMetadataFromResponse]: supplied
    keywords, open loops and decisions are merged into the stored lists
    as deduplicated ordered sets clamped to 20, 10 and 10 elements (the
    supplied topics, lower-cased, are merged into the keywords as well),
    and a supplied non-empty summary replaces the stored one. *)
Theorem metadata_overwrite_and_merge :
  (∀ now id s kws ol dm d b,
     bridgeBlocks d !! id = Some b →
     ∃ d' b', updateMetadata now id s kws ol dm d = Some d' ∧
              bridgeBlocks d' !! id = Some b' ∧
              summary b' = (if s is Some x then Some x else summary b) ∧
              keywords b' = default (keywords b) kws ∧
              openLoops b' = default (openLoops b) ol ∧
              decisionsMade b' = default (decisionsMade b) dm) ∧
  (∀ now id m d b,
     bridgeBlocks d !! id = Some b →
     ∃ b', bridgeBlocks (updateMetadataFromResponse now id m d) !! id
           = Some b' ∧
           summary b' = (if truthy (m_summary m) then m_summary m
                         else summary b) ∧
           keywords b' =
             (let kw1 := if m_keywords m is Some kws
                         then take 20 (Js.Set_of (keywords b ++ kws))
                         else keywords b in
              if m_topics m is Some topics
              then take 20 (Js.Set_of (kw1 ++ (Js.toLowerCase <$> topics)))
              else kw1) ∧
           openLoops b' =
             (if m_openLoops m is Some loops
              then take 10 (Js.Set_of (openLoops b ++ loops))
              else openLoops b) ∧
           decisionsMade b' =
             (if m_decisionsMade m is Some ds
              then take 10 (Js.Set_of (decisionsMade b ++ ds))
              else decisionsMade b) ∧
           (is_Some (m_keywords m) ∨ is_Some (m_topics m) →
            NoDup (keywords b') ∧ length (keywords b') ≤ 20) ∧
           (is_Some (m_openLoops m) →
            NoDup (openLoops b') ∧ length (openLoops b') ≤ 10) ∧
           (is_Some (m_decisionsMade m) →
            NoDup (decisionsMade b') ∧ length (decisionsMade b') ≤ 10)).
Proof.
  split.
  - intros now id s kws ol dm d b Hid.
    unfold updateMetadata, db_patch. rewrite Hid. cbn.
    eexists _, _. split; [done|]. cbn [bridgeBlocks].
    rewrite list_lookup_alter_eq, Hid. cbn. split; [done|].
    by destruct s.
  - intros now id m d b Hid.
    unfold updateMetadataFromResponse. rewrite Hid. cbn [bridgeBlocks].
    rewrite list_lookup_alter_eq, Hid. cbn [fmap option_fmap option_map].
    eexists. split; [done|].
    assert (Hclamp : ∀ n l, NoDup (take n (Js.Set_of l)) ∧
                            length (take n (Js.Set_of l)) ≤ n).
    { intros n l. split;
        [eapply sublist_NoDup; [apply Set_of_NoDup|apply sublist_take]|].
      rewrite length_take. lia. }
    destruct m as [aff topics kws s ol dm]. cbn.
    split_and!.
    + destruct (truthy s) eqn:Hs; [|done]. by destruct s.
    + destruct kws, topics; cbn; by rewrite ?merge_eq.
    + destruct ol; cbn; by rewrite ?merge_eq.
    + destruct dm; cbn; by rewrite ?merge_eq.
    + intros Hsome. destruct kws, topics; cbn; rewrite ?merge_eq;
        try apply Hclamp. destruct Hsome as [[? [=]]|[? [=]]].
    + intros [? [= ->]]. cbn. rewrite merge_eq. apply Hclamp.
    + intros [? [= ->]]. cbn. rewrite merge_eq. apply Hclamp.
Qed.

(** The theorem on a block that stores the keyword [contract]: the plain
    update leaves [law; law], the merging update leaves
    [contract; law]. *)
Lemma metadata_overwrite_and_merge_witness :
  let b := mkBlock "2025-01-01" "Contracts" None ["contract"%string] ACTIVE
                   None [] [] 0 1 1 in
  let d := mkDb [b] [] in
  (∃ d' b', updateMetadata 2 0 None (Some ["law"; "law"]%string) None None d
            = Some d' ∧
            bridgeBlocks d' !! 0 = Some b' ∧
            keywords b' = ["law"; "law"]%string) ∧
  (∃ b', bridgeBlocks
           (updateMetadataFromResponse 2 0
              (mkMetadata None None (Some ["law"; "law"]%string) None None
                          None) d) !! 0 = Some b' ∧
         keywords b' = ["contract"; "law"]%string).
Proof.
  intros b d. split.
  - destruct (proj1 metadata_overwrite_and_merge 2%Z 0 None
                (Some ["law"; "law"]%string) None None d b eq_refl)
      as (d' & b' & Hd' & Hb' & _ & Hkw & _).
    by exists d', b'.
  - destruct (proj2 metadata_overwrite_and_merge 2%Z 0
                (mkMetadata None None (Some ["law"; "law"]%string) None
                            None None) d b eq_refl)
      as (b' & Hb' & _ & Hkw & _).
    exists b'. split; [exact Hb'|]. rewrite Hkw. by vm_compute.
Defined.

End Metadata.


(** ** Token budget *)

Section TokenBudget.
Import Hydrator.
Local Open Scope Z_scope.

(** [Math.floor] of an integer times a fraction is a floored division. *)
Lemma floor_share_div (n a : Z) (b : positive) :
  floor_share n (a # b) = (n * a) / Z.pos b.
Proof. unfold floor_share. by cbn. Qed.


End TokenBudget.


(** ** Cosine similarity *)

Section CosineSimilarity.
Import Cosine.
Local Open Scope R_scope.

(** The loop adds the dot product and the two squared norms to its
    accumulators. *)
Lemma loop_spec a v1 v2 :
  length v1 = length v2 →
  loop a v1 v2 =
  mkAcc (dotProduct a + dot v1 v2) (norm1 a + norm_sq v1)
        (norm2 a + norm_sq v2).
Proof.
  revert a v2. induction v1 as [|x v1 IH]; intros a [|y v2] Hlen;
    try discriminate.
  - destruct a. cbn. unfold norm_sq. cbn. f_equal; lra.
  - cbn [loop]. rewrite IH by (cbn in Hlen; lia).
    unfold norm_sq. cbn. f_equal; lra.
Qed.

Lemma norm_sq_nonneg v : 0 <= norm_sq v.
Proof.
  unfold norm_sq. induction v as [|x v IH]; cbn; [lra|].
  pose proof (Rle_0_sqr x) as Hx. unfold Rsqr in Hx. lra.
Qed.

Lemma norm_sq_zero v : norm_sq v = 0 ↔ Forall (λ x, x = 0) v.
Proof.
  induction v as [|x v IH]; [by split; [constructor|]|].
  unfold norm_sq in *. cbn [dot].
  pose proof (norm_sq_nonneg v) as Hv. unfold norm_sq in Hv.
  pose proof (Rle_0_sqr x) as Hx. unfold Rsqr in Hx.
  rewrite Forall_cons. rewrite <- IH. split.
  - intros Hsum. assert (x * x = 0) as Hxx by lra.
    split; [|lra]. apply Rmult_integral in Hxx. tauto.
  - intros [-> ->]. lra.
Qed.

Lemma norm_zero v : norm v = 0 ↔ norm_sq v = 0.
Proof.
  unfold norm. split.
  - intros H. apply sqrt_eq_0; [apply norm_sq_nonneg|done].
  - intros ->. apply sqrt_0.
Qed.



End CosineSimilarity.


(** ** Eviction *)

Section EvictionProofs.
Import BridgeBlocks Eviction.

Lemma evictByTimeInternal_db now day s :
  st_db (evictByTimeInternal now day s).2 = st_db s.
Proof.
  unfold evictByTimeInternal.
  by destruct (foldl _ _ _) as [ids ta].
Qed.

Lemma evictBySpaceInternal_db now day s :
  st_db (evictBySpaceInternal now day s).2 = st_db s.
Proof.
  unfold evictBySpaceInternal.
  by destruct (if (0 <? _)%Z then _ else _) as [ids ta].
Qed.

(** Neither pass writes the [turns] or the [bridgeBlocks] table: the
    stored turns of a day are the same before and after [checkAndEvict],
    whatever it reports as evicted. *)
Lemma checkAndEvict_db now day s :
  st_db (checkAndEvict now day s).2 = st_db s.
Proof.
  unfold checkAndEvict.
  destruct (evictByTimeInternal now day s) as [r1 s1] eqn:E1.
  destruct (evictBySpaceInternal now day s1) as [r2 s2] eqn:E2.
  cbn [snd].
  pose proof (evictBySpaceInternal_db now day s1) as H2.
  pose proof (evictByTimeInternal_db now day s) as H1.
  rewrite E2 in H2. rewrite E1 in H1. cbn in *. congruence.
Qed.

Lemma checkAndEvict_day_metrics now day s :
  dayTurnCount day (st_db (checkAndEvict now day s).2)
    = dayTurnCount day (st_db s) ∧
  daySumTokens day (st_db (checkAndEvict now day s).2)
    = daySumTokens day (st_db s).
Proof. by rewrite checkAndEvict_db. Qed.

(** Claim C4, evaluated on the code.  First input: a day with one block
    and one turn of 20004 characters, one second old.  The token estimate
    of the day is 5001 > 5000, yet [checkAndEvict] reports no evicted turn
    and leaves the state as it is.  Second input: a day with 31 short
    turns.  [checkAndEvict] reports the oldest turn as evicted, and the
    day still stores 31 > 30 turns. *)
Theorem checkAndEvict_bounds_not_restored :
  let day := "2025-01-01"%string in
  let blk := mkBlock day "Contracts" None [] ACTIVE None [] [] 1 0 0 in
  let long := Js.str (replicate (Z.to_nat 20004) "a"%char) in
  let s0 := mkState (mkDb [blk] [mkTurn 0 "turn_1" long "" None None 1000])
                    [] in
  let r0 := checkAndEvict 2000 day s0 in
  let s1 := mkState
              (mkDb [blk]
                    ((λ i, mkTurn 0 (String.append "turn_" (pretty i))
                                  "hi" "ok" None None (Z.of_nat i))
                       <$> seq 0 31))
              [] in
  let r1 := checkAndEvict 2000 day s1 in
  (allEvictedTurnIds r0.1 = [] ∧ topicAffinity r0.2 = [] ∧
   dayTurnCount day (st_db r0.2) = 1 ∧
   Z.of_nat (daySumTokens day (st_db r0.2)) = 5001%Z ∧
   length (kept_turns (allEvictedTurnIds r0.1) day (st_db r0.2)) = 1) ∧
  (allEvictedTurnIds r1.1 = ["turn_0"%string] ∧
   spaceEvicted r1.1 = 1 ∧
   dayTurnCount day (st_db r1.2) = 31).
Proof. vm_compute. repeat split. Qed.

End EvictionProofs.


(** ** Compression decision *)

Section CompressionDecision.
Import Compressor.
Local Open Scope Q_scope.



(** The clamp to 15 sits on the decision-table path only: with an
    explicit reference and 16 recent queries, all 16 are kept. *)
Remark explicit_reference_keeps_every_query :
  keepVerbatimCount
    (decideCompression 0 "As we discussed, what were the contract terms?"
                       (replicate 16 "Contract terms outlined"%string) 0)
  = 16%nat.
Proof. by vm_compute. Qed.

End CompressionDecision.


(** ** Topic-shift detection *)

Section TopicShift.
Import TabulaRasa.

(** Insertion-ordered sets against finite sets. *)
Lemma list_to_set_Set_of (l : list string) :
  list_to_set (Js.Set_of l) =@{gset string} list_to_set l.
Proof.
  apply set_eq. intros x.
  by rewrite !elem_of_list_to_set, Set_of_elem_of.
Qed.

Lemma length_Set_of (l : list string) :
  length (Js.Set_of l) = size (list_to_set l : gset string).
Proof.
  rewrite <- list_to_set_Set_of. symmetry.
  apply size_list_to_set, Set_of_NoDup.
Qed.

Lemma length_matches (a b : list string) :
  length (filter (λ topic, topic ∈ Js.Set_of b) (Js.Set_of a)) =
  size ((list_to_set a : gset string) ∩ list_to_set b).
Proof.
  rewrite <- (size_list_to_set (C := gset string)).
  - f_equal. apply set_eq. intros x.
    rewrite elem_of_list_to_set, list_elem_of_filter, elem_of_intersection.
    rewrite !elem_of_list_to_set, !Set_of_elem_of. tauto.
  - apply NoDup_filter, Set_of_NoDup.
Qed.

Lemma length_union (a b : list string) :
  length (Js.Set_of (Js.Set_of a ++ Js.Set_of b)) =
  size ((list_to_set a : gset string) ∪ list_to_set b).
Proof.
  rewrite length_Set_of, list_to_set_app_L. by rewrite !list_to_set_Set_of.
Qed.

(** Every extracted topic is longer than two code units; the label
    fallback is used only when there is no topic at all. *)
Lemma first_topic_or_else q d :
  Js.or_else (head (extractTopicsFromQuery q)) d =
  default d (head (extractTopicsFromQuery q)).
Proof.
  destruct (head (extractTopicsFromQuery q)) as [t|] eqn:Hh; [|done].
  apply head_Some_elem_of in Hh. unfold extractTopicsFromQuery in Hh.
  apply elem_of_take in Hh as (i & Hi & _).
  apply list_elem_of_lookup_2, list_elem_of_filter in Hi as [[Hlen _] _].
  cbn. destruct (Js.len t) as [|n] eqn:E; [lia|done].
Qed.

Local Open Scope Q_scope.



End TopicShift.


(** ** Chunker *)

Section RegexConsumption.
Import Js Regex.
Context (ci : bool) (P : ascii → bool).

Local Notation "'all_P'" := (Forall (λ c, P c = true)).

Section WithResult.
Context {A : Type}.

Lemma star_g_eats (p : ascii → bool) (k : cont (A := A)) cap :
  (∀ x, p x = true → P x = true) →
  ∀ s prev x, star_g p k cap prev s = Some x →
  ∃ w s' prev', s = w ++ s' ∧ all_P w ∧ k prev' s' cap = Some x.
Proof.
  intros Hp. induction s as [|c s IH]; intros prev x; cbn.
  - intros Hk. exists [], [], prev. by split_and!.
  - destruct (p c) eqn:Hc.
    + destruct (star_g p k cap (Some c) s) as [y|] eqn:Hrec.
      * intros [= <-]. destruct (IH _ _ Hrec) as (w & s' & prev' & -> & Hw & Hk).
        exists (c :: w), s', prev'. split_and!; [done| |done].
        constructor; [by apply Hp|done].
      * intros Hk. exists [], (c :: s), prev. by split_and!.
    + intros Hk. exists [], (c :: s), prev. by split_and!.
Qed.

Lemma star_l_eats (p : ascii → bool) (k : cont (A := A)) cap :
  (∀ x, p x = true → P x = true) →
  ∀ s prev x, star_l p k cap prev s = Some x →
  ∃ w s' prev', s = w ++ s' ∧ all_P w ∧ k prev' s' cap = Some x.
Proof.
  intros Hp. induction s as [|c s IH]; intros prev x; cbn.
  - destruct (k prev [] cap) eqn:Hk; [|done].
    intros [= <-]. exists [], [], prev. by split_and!.
  - destruct (k prev (c :: s) cap) eqn:Hk.
    + intros [= <-]. exists [], (c :: s), prev. by split_and!.
    + destruct (p c) eqn:Hc; [|done]. intros Hrec.
      destruct (IH _ _ Hrec) as (w & s' & prev' & -> & Hw & Hk').
      exists (c :: w), s', prev'. split_and!; [done| |done].
      constructor; [by apply Hp|done].
Qed.

(** A successful match consumed a prefix of code units that all satisfy
    [P], and handed the rest to its continuation. *)
Lemma m_eats (r : re) :
  eats ci P r →
  ∀ (k : cont (A := A)) prev s cap x,
    m ci r prev s cap k = Some x →
    ∃ w s' prev' cap', s = w ++ s' ∧ all_P w ∧ k prev' s' cap' = Some x.
Proof.
  induction r as [|c|p| | |p|a IHa b IHb|a IHa b IHb|a IHa|p|p|p|a IHa];
    intros Hr k prev s cap x; cbn [m].
  - intros Hk. exists [], s, prev, cap. by split_and!.
  - destruct s as [|y s]; [done|]. destruct (chr_eq ci c y) eqn:Hy; [|done].
    intros Hk. exists [y], s, (Some y), cap. split_and!; [done| |done].
    constructor; [by apply Hr|constructor].
  - destruct s as [|y s]; [done|]. destruct (p y) eqn:Hy; [|done].
    intros Hk. exists [y], s, (Some y), cap. split_and!; [done| |done].
    constructor; [by apply Hr|constructor].
  - destruct prev; [done|]. intros Hk. exists [], s, None, cap. by split_and!.
  - destruct (xorb _ _); [|done].
    intros Hk. exists [], s, prev, cap. by split_and!.
  - destruct prev as [c|]; [|done]. destruct (p c); [|done].
    intros Hk. exists [], s, (Some c), cap. by split_and!.
  - destruct Hr as [Ha Hb]. intros Hm.
    destruct (IHa Ha _ _ _ _ _ Hm) as (w1 & s1 & prev1 & cap1 & -> & Hw1 & Hm2).
    destruct (IHb Hb _ _ _ _ _ Hm2) as (w2 & s2 & prev2 & cap2 & -> & Hw2 & Hk).
    exists (w1 ++ w2), s2, prev2, cap2.
    split_and!; [by rewrite (assoc_L (++))|by apply Forall_app|done].
  - destruct Hr as [Ha Hb].
    destruct (m ci a prev s cap k) as [y|] eqn:Hm.
    + intros [= <-]. by eapply IHa.
    + intros Hm2. by eapply IHb.
  - destruct (m ci a prev s cap k) as [y|] eqn:Hm.
    + intros [= <-]. by eapply IHa.
    + intros Hk. exists [], s, prev, cap. by split_and!.
  - intros Hs. destruct (star_g_eats p k cap Hr _ _ _ Hs)
      as (w & s' & prev' & -> & Hw & Hk).
    by exists w, s', prev', cap.
  - destruct s as [|y s]; [done|]. destruct (p y) eqn:Hy; [|done].
    intros Hs. destruct (star_g_eats p k cap Hr _ _ _ Hs)
      as (w & s' & prev' & -> & Hw & Hk).
    exists (y :: w), s', prev', cap. split_and!; [done| |done].
    constructor; [by apply Hr|done].
  - destruct s as [|y s]; [done|]. destruct (p y) eqn:Hy; [|done].
    intros Hs. destruct (star_l_eats p k cap Hr _ _ _ Hs)
      as (w & s' & prev' & -> & Hw & Hk).
    exists (y :: w), s', prev', cap. split_and!; [done| |done].
    constructor; [by apply Hr|done].
  - intros Hm. destruct (IHa Hr _ _ _ _ _ Hm)
      as (w & s' & prev' & cap' & -> & Hw & Hk).
    by eexists w, s', prev', _.
Qed.
End WithResult.

Lemma match_at_eats (r : re) prev s rest :
  eats ci P r → match_at ci r prev s = Some rest →
  ∃ w, s = w ++ rest ∧ all_P w.
Proof.
  intros Hr Hm. unfold match_at in Hm.
  destruct (m_eats r Hr _ _ _ _ _ Hm) as (w & s' & _ & _ & -> & Hw & [= ->]).
  by exists w.
Qed.

End RegexConsumption.

Section WhitespaceInsensitive.
Import Js Regex.

Local Notation "'all_ws'" := (Forall (λ c, is_space c = true)).

Lemma strip_ws_chars_app l1 l2 :
  strip_ws_chars (l1 ++ l2) = strip_ws_chars l1 ++ strip_ws_chars l2.
Proof. apply filter_app. Qed.

Lemma strip_ws_chars_all_ws w : all_ws w → strip_ws_chars w = [].
Proof.
  induction 1 as [|c w Hc _ IH]; [done|].
  unfold strip_ws_chars in *. rewrite filter_cons, IH.
  rewrite decide_False; [done|congruence].
Qed.

Lemma strip_ws_chars_reverse l :
  strip_ws_chars (reverse l) = reverse (strip_ws_chars l).
Proof. apply filter_reverse. Qed.

Lemma strip_ws_chars_trim_start l :
  strip_ws_chars (trim_start l) = strip_ws_chars l.
Proof.
  induction l as [|c l IH]; [done|]. cbn [trim_start].
  destruct (is_space c) eqn:Hc; [|done].
  rewrite IH. unfold strip_ws_chars. rewrite filter_cons.
  rewrite decide_False; [done|congruence].
Qed.

Lemma strip_ws_chars_trim l : strip_ws_chars (trim_chars l) = strip_ws_chars l.
Proof.
  unfold trim_chars.
  rewrite strip_ws_chars_reverse, strip_ws_chars_trim_start.
  rewrite strip_ws_chars_reverse, strip_ws_chars_trim_start.
  apply reverse_involutive.
Qed.

(** Splitting on a separator made of whitespace loses whitespace only. *)
Lemma split_go_strip ci r :
  eats ci is_space r →
  ∀ s prev piece skip,
    skip ≤ length s → all_ws (take skip s) →
    strip_ws_chars (List.concat (split_go ci r prev piece skip s)) =
    strip_ws_chars (reverse piece ++ drop skip s).
Proof.
  intros Hr. induction s as [|x s IH]; intros prev piece skip Hskip Hws.
  - cbn. by rewrite drop_nil.
  - cbn [split_go]. destruct skip as [|n].
    + destruct (match_at ci r prev (x :: s)) as [rest|] eqn:Hm.
      * destruct (match_at_eats ci is_space r _ _ _ Hr Hm) as (w & Hs & Hw).
        assert (length (x :: s) - length rest = length w) as ->.
        { rewrite Hs, length_app. lia. }
        destruct w as [|y w]; cbn [length].
        -- assert (strip_ws_chars
                     (List.concat (split_go ci r (Some x) [x] 0 s)) =
                   strip_ws_chars (x :: s)) as Hrec.
           { rewrite IH; [done|lia|constructor]. }
           destruct piece as [|p piece].
           ++ by rewrite Hrec.
           ++ cbn [List.concat]. rewrite strip_ws_chars_app, Hrec.
              by rewrite <- strip_ws_chars_app.
        -- cbn in Hs. injection Hs as <- ->.
           apply Forall_cons in Hw as [Hx Hw].
           cbn [List.concat]. rewrite strip_ws_chars_app.
           rewrite IH; [|rewrite length_app; lia|by rewrite take_app_length].
           rewrite drop_app_length. cbn [drop].
           rewrite !strip_ws_chars_app.
           change (x :: w ++ rest) with ((x :: w) ++ rest).
           rewrite strip_ws_chars_app.
           by rewrite (strip_ws_chars_all_ws (x :: w)) by (by constructor).
      * rewrite IH; [|lia|constructor]. cbn [drop].
        rewrite reverse_cons, <- (assoc_L (++)). done.
    + cbn [take] in Hws. apply Forall_cons in Hws as [Hx Hws].
      rewrite IH; [done|cbn in Hskip; lia|done].
Qed.

Lemma split_chars_strip ci r l :
  eats ci is_space r →
  strip_ws_chars (List.concat (split_chars ci r l)) = strip_ws_chars l.
Proof.
  intros Hr. unfold split_chars. destruct l as [|x l].
  - by destruct (match_at ci r None []).
  - rewrite split_go_strip; [done..|lia|constructor].
Qed.

End WhitespaceInsensitive.

Section ChunkerRoundTrip.
Import Js Regex Chunking.

Lemma chars_str l : chars (str l) = l.
Proof. apply list_ascii_of_string_of_list_ascii. Qed.

Lemma str_chars s : str (chars s) = s.
Proof. apply string_of_list_ascii_of_string. Qed.

Lemma chars_append a b : chars (String.append a b) = chars a ++ chars b.
Proof. unfold chars. induction a as [|c a IH]; simpl; [done|by f_equal]. Qed.

Lemma len_chars s : len s = length (chars s).
Proof. unfold len, chars. induction s as [|c s IH]; cbn; [done|by f_equal]. Qed.

Lemma stripped_filter_nonempty l : stripped (filter nonempty l) = stripped l.
Proof.
  unfold stripped. induction l as [|s l IH]; [done|].
  rewrite filter_cons. case_decide as Hs; cbn; rewrite IH; [done|].
  unfold nonempty in Hs. rewrite len_chars in Hs.
  destruct (chars s); [done|cbn in Hs; lia].
Qed.

Lemma stripped_trim l : stripped (trim <$> l) = stripped l.
Proof.
  unfold stripped. induction l as [|s l IH]; [done|].
  cbn. rewrite IH. f_equal. unfold trim.
  by rewrite chars_str, strip_ws_chars_trim.
Qed.

Lemma stripped_str L : stripped (str <$> L) = strip_ws_chars (List.concat L).
Proof.
  unfold stripped. induction L as [|l L IH]; [done|].
  cbn. by rewrite IH, chars_str, strip_ws_chars_app.
Qed.

Lemma strip_join sep l :
  Forall (λ c, is_space c = true) (chars sep) →
  strip_ws_chars (chars (join sep l)) = stripped l.
Proof.
  intros Hsep. unfold stripped. induction l as [|s l IH]; [done|].
  destruct l as [|s' l].
  - cbn. by rewrite app_nil_r.
  - change (join sep (s :: s' :: l))
      with (String.append s (String.append sep (join sep (s' :: l)))).
    rewrite !chars_append, !strip_ws_chars_app, IH.
    by rewrite (strip_ws_chars_all_ws (chars sep)).
Qed.

Lemma strip_concat l : strip_ws_chars (chars (Js.concat l)) = stripped l.
Proof.
  unfold stripped, Js.concat. induction l as [|s l IH]; [done|].
  cbn. by rewrite chars_append, strip_ws_chars_app, IH.
Qed.

Lemma paragraph_break_eats : eats false is_space paragraph_break.
Proof.
  cbn. split_and!; try done;
    intros x Hx; apply Ascii.eqb_eq in Hx; by subst.
Qed.

Lemma sentence_break_eats : eats false is_space sentence_break.
Proof. cbn. by split_and!. Qed.

Lemma stripped_split r text :
  eats false is_space r →
  stripped (filter nonempty (trim <$> split false r text)) =
  strip_ws_chars (chars text).
Proof.
  intros Hr. rewrite stripped_filter_nonempty, stripped_trim.
  unfold split. by rewrite stripped_str, split_chars_strip.
Qed.

(** The paragraphs, joined by blank lines, are the text up to
    whitespace. *)
Lemma splitIntoParagraphs_strip text :
  strip_ws (join (String.append nl nl) (splitIntoParagraphs text)) =
  strip_ws text.
Proof.
  unfold strip_ws. f_equal.
  rewrite strip_join by (by repeat constructor).
  unfold splitIntoParagraphs.
  destruct (_ && _).
  - unfold stripped. cbn. rewrite app_nil_r. unfold trim.
    by rewrite chars_str, strip_ws_chars_trim.
  - apply stripped_split, paragraph_break_eats.
Qed.

(** The sentences of a paragraph, concatenated, are the paragraph up to
    whitespace. *)
Lemma splitIntoSentences_strip text :
  strip_ws (Js.concat (splitIntoSentences text)) = strip_ws text.
Proof.
  unfold strip_ws. f_equal. rewrite strip_concat.
  apply stripped_split, sentence_break_eats.
Qed.

(** The inner loop of [chunkText] appends one sentence chunk per
    sentence, each with the paragraph as parent. *)
Lemma sentence_loop e turnId pid l :
  ∀ st,
    ∃ scs,
      chunks
        (foldl (λ st sentenceText,
                  mkLoop (chunks st ++
                            [mkChunk (generateChunkId e (calls st) sentence
                                                      (sentenceIndex st))
                                     sentence sentenceText
                                     (extractKeywords sentenceText)
                                     (Some pid) turnId
                                     (estimateTokenCount sentenceText)])
                         (S (sentenceIndex st)) (S (calls st)))
               st l)
      = chunks st ++ scs ∧
      textVerbatim <$> scs = l ∧
      Forall (λ c, c_type c = sentence ∧ parentChunkId c = Some pid) scs.
Proof.
  induction l as [|s l IH]; intros st.
  - exists []. by rewrite app_nil_r.
  - cbn [foldl]. edestruct IH as (scs & -> & Htexts & Hall).
    cbn [chunks]. eexists (_ :: scs). rewrite <- (assoc_L (++)).
    split_and!; [done|by cbn; f_equal|by constructor].
Qed.

Lemma chunk_paragraph_spec e turnId st pIndex p :
  ∃ g, chunks (chunk_paragraph e turnId st pIndex p)
       = chunks st ++ g.1 :: g.2 ∧ group_of p g.
Proof.
  unfold chunk_paragraph.
  edestruct (sentence_loop e turnId) as (scs & -> & Htexts & Hall).
  cbn [chunks]. rewrite <- (assoc_L (++)).
  eexists (_, scs). split; [done|]. by split_and!.
Qed.

Lemma paragraph_loop e turnId (ps : list (nat * string)) :
  ∀ st,
    ∃ gs, chunks (foldl (λ st p, chunk_paragraph e turnId st p.1 p.2) st ps)
          = chunks st ++ ungroup gs ∧
          Forall2 group_of ps.*2 gs.
Proof.
  induction ps as [|[i p] ps IH]; intros st.
  - exists []. split; [by rewrite app_nil_r|constructor].
  - cbn [foldl fst snd].
    destruct (chunk_paragraph_spec e turnId st i p) as (g & Hg & Hgood).
    edestruct IH as (gs & -> & Hgs). rewrite Hg.
    exists (g :: gs). rewrite <- (assoc_L (++)).
    split; [done|by constructor].
Qed.

Lemma chunkText_ungroup e text turnId :
  ∃ gs, chunkText e text turnId = ungroup gs ∧
        Forall2 group_of (splitIntoParagraphs text) gs.
Proof.
  unfold chunkText.
  edestruct (paragraph_loop e turnId) as (gs & -> & Hgs).
  exists gs. split; [done|].
  assert ((imap (λ (pIndex : nat) (paragraphText : string),
                   (pIndex, paragraphText))
                (splitIntoParagraphs text)).*2 = splitIntoParagraphs text)
    as Hsnd.
  { apply list_eq. intros i.
    rewrite list_lookup_fmap, list_lookup_imap.
    by destruct (splitIntoParagraphs text !! i). }
  by rewrite Hsnd in Hgs.
Qed.

Lemma groups_fold_sentences ss acc :
  Forall (λ c, c_type c = sentence) ss →
  foldr (λ c acc,
           match c_type c with
           | sentence => (c :: acc.1, acc.2)
           | paragraph => ([], (c, acc.1) :: acc.2)
           end) acc ss
  = (ss ++ acc.1, acc.2).
Proof.
  induction 1 as [|c ss Hc _ IH]; [by destruct acc|].
  cbn. by rewrite IH, Hc.
Qed.

Lemma groups_ungroup ps gs :
  Forall2 group_of ps gs → groups (ungroup gs) = gs.
Proof.
  unfold groups. intros Hgs.
  cut (foldr (λ c acc,
           match c_type c with
           | sentence => (c :: acc.1, acc.2)
           | paragraph => ([], (c, acc.1) :: acc.2)
           end) ([], []) (ungroup gs) = ([], gs)); [by intros ->|].
  induction Hgs as [|p [pc ss] ps gs (Hpc & _ & _ & Hss) _ IH]; [done|].
  cbn [fst snd] in *.
  change (ungroup ((pc, ss) :: gs)) with (pc :: ss ++ ungroup gs).
  cbn [foldr]. rewrite foldr_app, IH.
  rewrite groups_fold_sentences
    by (eapply Forall_impl; [exact Hss|]; by intros ? [? _]).
  cbn. by rewrite Hpc, app_nil_r.
Qed.

Lemma paragraph_texts_ungroup ps gs :
  Forall2 group_of ps gs → paragraph_texts (ungroup gs) = ps.
Proof.
  unfold paragraph_texts.
  induction 1 as [|p [pc ss] ps gs (Hpc & Htext & _ & Hss) _ IH]; [done|].
  cbn [fst snd] in *.
  change (ungroup ((pc, ss) :: gs)) with (pc :: ss ++ ungroup gs).
  rewrite filter_cons, decide_True by done. rewrite filter_app.
  assert (filter (λ c, c_type c = paragraph) ss = []) as ->.
  { clear -Hss. induction Hss as [|c ss [Hc _] _ IH]; [done|].
    rewrite filter_cons, decide_False by congruence. done. }
  cbn. by rewrite IH, Htext.
Qed.



End ChunkerRoundTrip.


(** ** Fact store: reads, batches and re-linking *)

Section FactStoreReads.
Import Facts.

Lemma get_supersede_other k k' n t :
  k ≠ k' → get k (supersede_row k' n <$> t) = get k t.
Proof.
  intros Hne. induction t as [|x t IH] using rev_ind; [done|].
  rewrite fmap_app. cbn [fmap list_fmap]. rewrite !get_snoc.
  rewrite length_fmap, supersede_row_key, IH.
  case_decide as Hk; [|done].
  rewrite supersede_row_miss; [done|]. left. congruence.
Qed.

Lemma get_store_same now a t :
  get (d_key a) (store now a t).2 = Some (length t, new_row now a).
Proof.
  rewrite store_spec. cbn [snd]. rewrite get_snoc, length_fmap.
  by rewrite decide_True.
Qed.

Lemma get_store_other now a t k :
  k ≠ d_key a → get k (store now a t).2 = get k t.
Proof.
  intros Hne. rewrite store_spec. cbn [snd]. rewrite get_snoc.
  rewrite decide_False by (cbn; congruence).
  by apply get_supersede_other.
Qed.

Lemma store_length now a t : length (store now a t).2 = S (length t).
Proof.
  rewrite store_spec. cbn [snd]. rewrite length_app, length_fmap. cbn. lia.
Qed.

Lemma store_fst now a t : (store now a t).1 = length t.
Proof. by rewrite store_spec. Qed.

Lemma step_preserves_unique t o :
  targets_live t o → unique_live t → unique_live (step t o).
Proof.
  destruct o as [now a|now facts|now i]; cbn [step targets_live].
  - intros _. apply store_preserves_unique.
  - intros _. apply storeBatch_preserves_unique.
  - intros Hlive Hinv. destruct (t !! i) as [f|] eqn:Hi.
    + apply (remove_live_preserves_unique now i f); [done| |done].
      apply not_superseded_true.
      destruct (not_superseded f) eqn:Hns; [done|].
      cbn in Hlive. rewrite Hns in Hlive. done.
    + unfold remove. by rewrite Hi.
Qed.

(** Two live rows of one key sit at the same id when the invariant
    holds. *)
Lemma unique_live_inj t i j f g :
  unique_live t →
  t !! i = Some f → t !! j = Some g →
  key f = key g → supersededBy f = None → supersededBy g = None →
  i = j.
Proof.
  assert (Hlt : ∀ i j f g, i < j → unique_live t →
            t !! i = Some f → t !! j = Some g →
            key f = key g → supersededBy f = None → supersededBy g = None →
            False).
  { clear. intros i j f g Hij Hinv Hi Hj Hk Hf Hg.
    specialize (Hinv (key f)). unfold live in Hinv.
    rewrite <- (take_drop_middle t i f Hi) in Hinv.
    rewrite filter_app, filter_cons, decide_True in Hinv by done.
    assert (Hin : g ∈ filter (λ f0, key f0 = key f ∧ supersededBy f0 = None)
                        (drop (S i) t)).
    { apply list_elem_of_filter. split; [done|].
      apply list_elem_of_lookup. exists (j - S i).
      rewrite lookup_drop. replace (S i + (j - S i)) with j by lia. done. }
    destruct (filter _ (drop (S i) t)) as [|y ys] eqn:Heq.
    - by apply elem_of_nil in Hin.
    - rewrite length_app in Hinv. cbn in Hinv. lia. }
  intros Hinv Hi Hj Hk Hf Hg.
  destruct (Nat.lt_trichotomy i j) as [H|[H|H]]; [|done|].
  - exfalso. by apply (Hlt i j f g).
  - exfalso. by apply (Hlt j i g f).
Qed.

Lemma unique_live_get t i f :
  unique_live t → t !! i = Some f → supersededBy f = None →
  get (key f) t = Some (i, f).
Proof.
  intros Hinv Hi Hf. apply get_Some_iff. repeat split; try done.
  intros j g Hj Hk Hg.
  by rewrite (unique_live_inj t i j f g Hinv Hi Hj).
Qed.

Lemma elem_of_imap_pair {A} (t : list A) i f :
  (i, f) ∈ imap (λ i f, (i, f)) t ↔ t !! i = Some f.
Proof.
  rewrite list_elem_of_lookup. split.
  - intros [j Hj]. rewrite list_lookup_imap in Hj.
    destruct (t !! j) eqn:E; cbn in Hj; [|done]. by simplify_eq.
  - intros Hi. exists i. rewrite list_lookup_imap, Hi. done.
Qed.

Lemma NoDup_imap_pair {A} (t : list A) : NoDup (imap (λ i f, (i, f)) t).
Proof.
  apply NoDup_alt. intros i j [a b] Hi Hj.
  rewrite list_lookup_imap in Hi, Hj.
  destruct (t !! i) eqn:Ei; cbn in Hi; [|done].
  destruct (t !! j) eqn:Ej; cbn in Hj; [|done].
  by simplify_eq.
Qed.

(** A list of live rows of a table that keeps the invariant names no key
    twice. *)
Lemma NoDup_live_keys t (l : list (nat * fact)) :
  unique_live t → NoDup l →
  (∀ p, p ∈ l → t !! p.1 = Some p.2 ∧ supersededBy p.2 = None) →
  NoDup ((λ p, key p.2) <$> l).
Proof.
  intros Hinv Hnd Hl. apply NoDup_fmap_2_strong; [|done].
  intros [i f] [j g] Hp Hq Hk. cbn in Hk.
  destruct (Hl _ Hp) as [Hi Hf], (Hl _ Hq) as [Hj Hg]. cbn in *.
  assert (i = j) by by apply (unique_live_inj t i j f g).
  subst. by simplify_eq.
Qed.

Lemma updateBlockId_gen tid b pre l post n :
  foldl (λ acc p,
           if bool_decide (turnId p.2 = Some tid)
           then (S acc.1, alter (set_blockId b) p.1 acc.2)
           else acc)
        (n, pre ++ l ++ post) (imap (λ i f, (length pre + i, f)) l)
  = (n + length (filter (λ f, turnId f = Some tid) l),
     pre ++ (relink tid b <$> l) ++ post).
Proof.
  revert pre n. induction l as [|x l IH]; intros pre n.
  - cbn. by rewrite Nat.add_0_r.
  - rewrite imap_cons. cbn [foldl fst snd].
    specialize (IH (pre ++ [relink tid b x])).
    rewrite <- !(assoc_L (++)) in IH. cbn [app] in IH.
    rewrite length_app in IH. cbn [length] in IH.
    erewrite (imap_ext (λ i x0, (length pre + 1 + i, x0))
                       ((λ i x0, (length pre + i, x0)) ∘ S)) in IH;
      [|intros; cbn; f_equal; lia].
    rewrite filter_cons. cbn [fmap list_fmap].
    change ((x :: l) ++ post) with (x :: l ++ post).
    unfold relink at 2. unfold relink in IH at 1.
    case_bool_decide as Ht.
    + rewrite decide_True by done. rewrite decide_True in IH by done.
      rewrite (alter_app_r (set_blockId b) pre (x :: l ++ post) 0).
      cbn [alter list_alter]. rewrite IH. cbn [length]. f_equal. lia.
    + rewrite decide_False by done. rewrite decide_False in IH by done.
      by rewrite IH.
Qed.

Lemma updateBlockId_spec tid b t :
  updateBlockId tid b t =
  (length (filter (λ f, turnId f = Some tid) t), relink tid b <$> t).
Proof.
  pose proof (updateBlockId_gen tid b [] t [] 0) as H.
  cbn in H. rewrite !app_nil_r in H. exact H.
Qed.

Lemma relink_idem tid b f : relink tid b (relink tid b f) = relink tid b f.
Proof.
  unfold relink. destruct (decide (turnId f = Some tid)) as [H|H].
  - cbn. by rewrite decide_True.
  - by rewrite decide_False.
Qed.

Lemma live_relink k tid b t :
  live k (relink tid b <$> t) = relink tid b <$> live k t.
Proof.
  unfold live. induction t as [|x t IH]; [done|].
  cbn [fmap list_fmap]. rewrite !filter_cons, IH.
  assert (key (relink tid b x) = key x ∧
          supersededBy (relink tid b x) = supersededBy x) as [-> ->].
  { unfold relink. by case_decide. }
  by case_decide.
Qed.

(** Property X1.  Every sequence of [store], [storeBatch] and [remove] calls
    in which no [remove] targets a row that is already superseded keeps
    the invariant of the fact table, from any table that has it: no key
    ever has two rows with [supersededBy] unset. *)
Theorem unique_live_preserved (ops : list op) (t : list fact) :
  unique_live t → all_target_live t ops → unique_live (foldl step t ops).
Proof.
  revert t. induction ops as [|o ops IH]; intros t Hinv Hops; [done|].
  destruct Hops as [Ho Hops]. cbn [foldl]. apply IH; [|done].
  by apply step_preserves_unique.
Qed.

Lemma unique_live_preserved_witness :
  let a := mkFactData "tz"%string "UTC"%string (Some preference) 0 None None in
  let b := mkFactData "tz"%string "CET"%string (Some preference) 0 None None in
  let c := mkFactData "vendor"%string "acme"%string None 0 None None in
  unique_live
    (foldl step [] [Store 1 a; Store 2 b; Remove 3 1; Remove 4 7;
                    StoreBatch 5 [c; a; c]]).
Proof.
  intros a b c. apply unique_live_preserved.
  - intros k. cbn. lia.
  - vm_compute. repeat split; congruence.
Defined.


Lemma storeBatch_fst now facts t :
  (storeBatch now facts t).1 = seq (length t) (length facts).
Proof.
  unfold storeBatch.
  assert (Hgen : ∀ ids t,
    (foldl (λ acc factData,
              let '(newFactId, t') := store now factData acc.2 in
              (acc.1 ++ [newFactId], t')) (ids, t) facts).1
    = ids ++ seq (length t) (length facts)).
  { clear t. induction facts as [|a facts IH]; intros ids t.
    - cbn. by rewrite app_nil_r.
    - cbn [foldl fst snd length seq].
      pose proof (store_fst now a t) as H1.
      pose proof (store_length now a t) as H2.
      destruct (store now a t) as [i t'] eqn:Hs. cbn in H1, H2. subst i.
      rewrite IH, H2. by rewrite <- (assoc_L (++)). }
  apply (Hgen []).
Qed.

Lemma foldl_store_length now facts t :
  length (foldl (λ t a, (store now a t).2) t facts) = length t + length facts.
Proof.
  revert t. induction facts as [|a facts IH]; intros t; cbn [foldl length].
  - lia.
  - rewrite IH, store_length. lia.
Qed.

Lemma foldl_store_get_other now facts t k :
  (∀ b, b ∈ facts → d_key b ≠ k) →
  get k (foldl (λ t a, (store now a t).2) t facts) = get k t.
Proof.
  revert t. induction facts as [|a facts IH]; intros t Hne; [done|].
  cbn [foldl]. rewrite IH.
  - apply get_store_other. intros ->. by apply (Hne a); [left|].
  - intros b Hb. apply Hne. by right.
Qed.

(** Property X3.  [storeBatch] is the sequence of the single [store]s of its
    elements in array order: the table it leaves is the one that the
    stores leave one after the other, the ids it returns are the next
    [facts.length] consecutive ids, in order. *)
Theorem storeBatch_sequential (now : Z) (facts : list factData)
    (t : list fact) :
  storeBatch now facts t =
  (seq (length t) (length facts),
   foldl (λ t a, (store now a t).2) t facts) ∧
  length (storeBatch now facts t).2 = length t + length facts.
Proof.
  pose proof (storeBatch_fst now facts t) as H1.
  pose proof (storeBatch_snd now facts t) as H2.
  split.
  - destruct (storeBatch now facts t). cbn in *. by subst.
  - rewrite H2. apply foldl_store_length.
Qed.



Lemma get_remove_same now i f t :
  t !! i = Some f →
  get (key f) (remove now i t) = Some (length t, deleted_row now f).
Proof.
  intros Hi. rewrite (remove_spec now i f t Hi).
  rewrite (app_comm_cons _ _ (set_supersededBy (length t) f)), (assoc_L (++)).
  rewrite get_snoc. rewrite decide_True by done. cbn.
  rewrite length_app, length_take. cbn [length]. rewrite length_drop.
  apply lookup_lt_Some in Hi. do 2 f_equal. lia.
Qed.

Lemma get_alter_other k n i f t :
  t !! i = Some f → key f ≠ k →
  get k (alter (set_supersededBy n) i t) = get k t.
Proof.
  revert i. induction t as [|x t IH] using rev_ind; intros i Hi Hk; [done|].
  destruct (decide (i < length t)) as [Hlt|Hge].
  - rewrite alter_app_l by done. rewrite !get_snoc, length_alter.
    rewrite lookup_app_l in Hi by done. by rewrite IH.
  - apply lookup_lt_Some in Hi as Hb. rewrite length_app in Hb.
    cbn in Hb. assert (i = length t + 0) as -> by lia.
    rewrite lookup_app_r, Nat.add_comm, Nat.add_sub in Hi by lia.
    cbn in Hi. simplify_eq.
    rewrite alter_app_r. cbn. rewrite !get_snoc.
    cbn. by rewrite !decide_False.
Qed.

Lemma get_remove_other now i f t k :
  t !! i = Some f → k ≠ key f → get k (remove now i t) = get k t.
Proof.
  intros Hi Hk. unfold remove, db_insert, patch_supersededBy. rewrite Hi.
  rewrite alter_app_l by by eapply lookup_lt_Some.
  rewrite get_snoc. rewrite decide_False by (cbn; congruence).
  by apply (get_alter_other k _ i f).
Qed.


(** Property X6.  [updateBlockId] returns the number of facts of the turn
    and sets the block id of exactly those facts; keys, values and
    supersession links stay as they are, so the invariant of the table is
    kept, and a second call with the same arguments changes nothing and
    returns the same count. *)
Theorem updateBlockId_relinks_turn (tid : string) (b : nat)
    (t : list fact) :
  let r := updateBlockId tid b t in
  r.1 = length (filter (λ f, turnId f = Some tid) t) ∧
  (∀ i f, t !! i = Some f →
     r.2 !! i = Some (if decide (turnId f = Some tid)
                      then set_blockId b f else f)) ∧
  length r.2 = length t ∧
  (unique_live t → unique_live r.2) ∧
  updateBlockId tid b r.2 = r.
Proof.
  cbn zeta. rewrite updateBlockId_spec. cbn [fst snd].
  split; [done|]. split.
  { intros i f Hi. rewrite list_lookup_fmap, Hi. done. }
  split; [by rewrite length_fmap|]. split.
  { intros Hinv k. rewrite live_relink, length_fmap. apply Hinv. }
  rewrite updateBlockId_spec. f_equal.
  - induction t as [|x t IH]; [done|].
    cbn [fmap list_fmap]. rewrite !filter_cons.
    assert (turnId (relink tid b x) = turnId x) as ->.
    { unfold relink. by case_decide. }
    case_decide; cbn [length]; by rewrite IH.
  - rewrite <- list_fmap_compose. apply list_fmap_ext.
    intros j x _. apply relink_idem.
Qed.

Lemma List_filter_bool {A} (c : A → bool) (l : list A) :
  List.filter c l = filter (λ x, c x = true) l.
Proof.
  induction l as [|x l IH]; [done|].
  cbn [List.filter]. rewrite filter_cons, IH.
  destruct (c x); [by rewrite decide_True|by rewrite decide_False].
Qed.



End FactStoreReads.

(** ** Governor: fact lookup *)

Section FactLookup.
Import Facts Governor.

Lemma lookupFacts_fold_elem (t : list fact) (ws : list string) acc r :
  r ∈ foldl (λ facts word,
           match Facts.get word t with
           | Some (_, fact) =>
               if bool_decide (Facts.value fact ≠ "[DELETED]"%string)
               then facts ++ [mkFactResult (Facts.key fact)
                                           (Facts.value fact)
                                           (Facts.category fact)]
               else facts
           | None => facts
           end) acc ws →
  r ∈ acc ∨
  ∃ w i f, w ∈ ws ∧ get w t = Some (i, f) ∧
           value f ≠ "[DELETED]"%string ∧
           r = mkFactResult (key f) (value f) (category f).
Proof.
  revert acc. induction ws as [|w ws IH]; intros acc; [by left|].
  cbn [foldl]. intros Hr. apply IH in Hr as [Hr|Hr].
  - destruct (get w t) as [[i f]|] eqn:Hg; [|by left].
    case_bool_decide as Hv; [|by left].
    apply elem_of_app in Hr as [Hr|Hr]; [by left|].
    apply list_elem_of_singleton in Hr. right.
    exists w, i, f. split; [left|done].
  - right. destruct Hr as (w' & i & f & Hw & Hrest).
    exists w', i, f. split; [by right|done].
Qed.

Lemma lookupFacts_fold_length (t : list fact) (ws : list string) acc :
  length (foldl (λ facts word,
           match Facts.get word t with
           | Some (_, fact) =>
               if bool_decide (Facts.value fact ≠ "[DELETED]"%string)
               then facts ++ [mkFactResult (Facts.key fact)
                                           (Facts.value fact)
                                           (Facts.category fact)]
               else facts
           | None => facts
           end) acc ws) ≤ length acc + length ws.
Proof.
  revert acc. induction ws as [|w ws IH]; intros acc; cbn [foldl length]; [lia|].
  etrans; [apply IH|].
  destruct (get w t) as [[i f]|]; [|lia].
  case_bool_decide; [|lia]. rewrite length_app. cbn. lia.
Qed.


End FactLookup.


(** ** Bridge blocks: turn counts, queries and pausing *)

Section BlockQueries.
Import BridgeBlocks.

Lemma turnCount_alter p i (bs : list block) :
  p_turnCount p = None →
  turnCount <$> alter (apply_patch p) i bs = turnCount <$> bs.
Proof.
  intros Hp. revert i. induction bs as [|b bs IH]; intros [|i]; cbn; try done.
  - f_equal. unfold apply_patch. cbn. by rewrite Hp.
  - f_equal. apply IH.
Qed.

Lemma turnCount_imap_pause now (c : nat → block → bool) (bs : list block) :
  turnCount <$> imap (λ i b, if c i b then apply_patch (pause_patch now) b
                             else b) bs
  = turnCount <$> bs.
Proof.
  revert c. induction bs as [|b bs IH]; intros c; [done|].
  rewrite imap_cons. cbn [fmap list_fmap]. f_equal.
  - by destruct (c 0 b).
  - apply (IH (c ∘ S)).
Qed.

Lemma turns_counted_same d d' :
  turns d' = turns d →
  turnCount <$> bridgeBlocks d' = turnCount <$> bridgeBlocks d →
  turns_counted d → turns_counted d'.
Proof.
  intros Ht Hc [H1 H2].
  assert (Hlen : length (bridgeBlocks d') = length (bridgeBlocks d)).
  { by rewrite <- (length_fmap turnCount), Hc, length_fmap. }
  split.
  - intros i b Hi. rewrite Ht.
    assert (Hci : (turnCount <$> bridgeBlocks d') !! i = Some (turnCount b))
      by by rewrite list_lookup_fmap, Hi.
    rewrite Hc, list_lookup_fmap in Hci.
    destruct (bridgeBlocks d !! i) as [b0|] eqn:E; [|done].
    cbn in Hci. injection Hci as <-. by apply H1.
  - intros t. rewrite Ht, Hlen. apply H2.
Qed.

Lemma turns_counted_lookup (d : db) bs' i b :
  turnCount <$> bs' = turnCount <$> bridgeBlocks d →
  turns_counted d → bs' !! i = Some b →
  turnCount b = length (turns_by_block i (turns d)).
Proof.
  intros Hc [H1 _] Hi.
  assert (Hci : (turnCount <$> bs') !! i = Some (turnCount b))
    by by rewrite list_lookup_fmap, Hi.
  rewrite Hc, list_lookup_fmap in Hci.
  destruct (bridgeBlocks d !! i) as [b0|] eqn:E; [|done].
  cbn in Hci. injection Hci as <-. by apply H1.
Qed.

Lemma turns_by_block_fresh (d : db) i :
  turns_counted d → length (bridgeBlocks d) ≤ i →
  turns_by_block i (turns d) = [].
Proof.
  intros [_ H2] Hi. unfold turns_by_block.
  destruct (filter _ (turns d)) as [|t ts] eqn:E; [done|]. exfalso.
  assert (Ht : t ∈ filter (λ t, t_blockId t = i) (turns d))
    by (rewrite E; left).
  apply list_elem_of_filter in Ht as [Heq Ht]. apply H2 in Ht. lia.
Qed.

Lemma step_turns_counted d o :
  targets_block d o → turns_counted d → turns_counted (step d o).
Proof.
  destruct o as [now day label kws prev|now id st|now id
    |now id tid u a kws aff|now id s kws ol dm|now id m];
    cbn [step targets_block]; intros Htgt Hinv.
  - (* create *)
    unfold create. cbn [snd]. rewrite pause_all_spec.
    set (bs' := imap _ (bridgeBlocks d)).
    assert (Hc : turnCount <$> bs' = turnCount <$> bridgeBlocks d)
      by apply (turnCount_imap_pause now
                  (λ _ b, bool_decide (blockStatus b = ACTIVE))).
    assert (Hlen : length bs' = length (bridgeBlocks d))
      by (unfold bs'; by rewrite length_imap).
    split; cbn [bridgeBlocks turns].
    + intros i b Hi. destruct (decide (i < length bs')) as [Hlt|Hge].
      * rewrite lookup_app_l in Hi by done.
        by apply (turns_counted_lookup d bs').
      * apply lookup_lt_Some in Hi as Hb. rewrite length_app in Hb.
        cbn in Hb. assert (i = length bs') as -> by lia.
        rewrite list_lookup_middle in Hi by done. injection Hi as <-.
        cbn. rewrite turns_by_block_fresh; [done|done|lia].
    + intros t Ht. rewrite length_app, Hlen. cbn.
      destruct Hinv as [_ H2]. apply H2 in Ht. lia.
  - (* updateStatus *)
    destruct (updateStatus now id st d) as [d'|] eqn:Hu; [|done]. cbn.
    unfold updateStatus in Hu.
    apply bind_Some in Hu as (bs' & Hp & Hd). injection Hd as <-.
    unfold db_patch in Hp.
    destruct (_ !! id) eqn:E; [|done]. injection Hp as <-.
    apply (turns_counted_same d); [done| |done]. cbn [bridgeBlocks].
    rewrite turnCount_alter by done.
    case_decide; [|done].
    rewrite pause_others_spec.
    apply (turnCount_imap_pause now
             (λ i b, bool_decide (blockStatus b = ACTIVE)
                     && bool_decide (i ≠ id))).
  - (* pauseWithSummary *)
    unfold pauseWithSummary. destruct (bridgeBlocks d !! id); [|done].
    apply (turns_counted_same d); [done| |done]. cbn [bridgeBlocks].
    by rewrite turnCount_alter.
  - (* appendTurn *)
    unfold appendTurn. cbn [snd].
    destruct (bridgeBlocks d !! id) as [b0|] eqn:E;
      [|apply lookup_ge_None in E; lia].
    destruct Hinv as [H1 H2]. split; cbn [bridgeBlocks turns].
    + intros i b Hi. unfold turns_by_block.
      rewrite filter_app, length_app, filter_cons, filter_nil.
      cbn [t_blockId]. destruct (decide (i = id)) as [->|Hne].
      * rewrite list_lookup_alter, E, decide_True in Hi by done.
        injection Hi as <-. rewrite decide_True by done. cbn.
        rewrite (H1 id b0 E). done.
      * rewrite list_lookup_alter_ne in Hi by done.
        rewrite decide_False by done. cbn. rewrite Nat.add_0_r.
        by apply H1.
    + intros t Ht. rewrite length_alter.
      apply elem_of_app in Ht as [Ht|Ht]; [by apply H2|].
      apply list_elem_of_singleton in Ht. by subst.
  - (* updateMetadata *)
    destruct (updateMetadata now id s kws ol dm d) as [d'|] eqn:Hu; [|done].
    cbn. unfold updateMetadata in Hu.
    apply bind_Some in Hu as (bs' & Hp & Hd). injection Hd as <-.
    unfold db_patch in Hp.
    destruct (_ !! id) eqn:E; [|done]. injection Hp as <-.
    apply (turns_counted_same d); [done| |done]. cbn [bridgeBlocks].
    by rewrite turnCount_alter.
  - (* updateMetadataFromResponse *)
    unfold updateMetadataFromResponse.
    destruct (bridgeBlocks d !! id); [|done].
    apply (turns_counted_same d); [done| |done]. cbn [bridgeBlocks].
    by rewrite turnCount_alter.
Qed.

(** Property X9.  The [turnCount] of every block is the number of its rows
    in the [turns] table, and every turn belongs to a block of the table:
    this holds after every sequence of block mutations in which each
    [appendTurn] names a block that exists, from any state in which it
    holds (the empty tables are one). *)
Theorem turnCount_counts_turns (ops : list op) (d : db) :
  turns_counted d → all_target_blocks d ops → turns_counted (run ops d).
Proof.
  unfold run. revert d.
  induction ops as [|o ops IH]; intros d Hinv Hops; [done|].
  destruct Hops as [Ho Hops]. cbn [foldl]. apply IH; [|done].
  by apply step_turns_counted.
Qed.

Lemma turnCount_counts_turns_witness :
  turns_counted
    (run [Create 1 "2025-01-01" "Contracts" [] None;
          AppendTurn 2 0 None "hello" "hi" None None;
          Create 3 "2025-01-01" "Cooking" ["pasta"%string] None;
          AppendTurn 4 0 (Some "t9"%string) "more" "ok" None None;
          UpdateStatus 5 0 ACTIVE;
          PauseWithSummary 6 0;
          AppendTurn 7 1 None "pasta" "yes" None None] empty).
Proof.
  apply turnCount_counts_turns.
  - split; [intros i b Hi; cbn in Hi; by rewrite lookup_nil in Hi|].
    intros t Ht. by apply elem_of_nil in Ht.
  - repeat split; vm_compute; lia.
Defined.

Lemma elem_of_by_status st (bs : list block) i b :
  (i, b) ∈ by_status st bs ↔ bs !! i = Some b ∧ blockStatus b = st.
Proof.
  unfold by_status. rewrite list_elem_of_filter, elem_of_imap_pair.
  naive_solver.
Qed.

Lemma elem_of_by_day day (bs : list block) i b :
  (i, b) ∈ by_day day bs ↔ bs !! i = Some b ∧ dayId b = day.
Proof.
  unfold by_day. rewrite list_elem_of_filter, elem_of_imap_pair.
  naive_solver.
Qed.

Lemma NoDup_singleton_all {A} (l : list A) a :
  NoDup l → a ∈ l → (∀ x, x ∈ l → x = a) → l = [a].
Proof.
  intros Hnd Ha Hall. destruct l as [|x [|y l]].
  - by apply elem_of_nil in Ha.
  - f_equal. apply Hall. left.
  - exfalso. apply NoDup_cons in Hnd as [Hx _]. apply Hx.
    rewrite (Hall x) by left. rewrite (Hall y) by (right; left). left.
Qed.

Lemma by_status_one_active bs :
  one_active bs → length (by_status ACTIVE bs) ≤ 1.
Proof.
  intros Hone.
  assert (Hnd : NoDup (by_status ACTIVE bs))
    by apply NoDup_filter, NoDup_imap_pair.
  destruct (by_status ACTIVE bs) as [|[i b] [|[j c] l]] eqn:E; cbn; try lia.
  exfalso.
  assert (Hp : (i, b) ∈ by_status ACTIVE bs) by (rewrite E; left).
  assert (Hq : (j, c) ∈ by_status ACTIVE bs) by (rewrite E; right; left).
  apply elem_of_by_status in Hp as [Hi Hb], Hq as [Hj Hc].
  assert (i = j) by by apply (Hone i j b c). subst j.
  apply NoDup_cons in Hnd as [Hx _]. apply Hx.
  assert (b = c) by congruence. subst. left.
Qed.

Lemma by_status_create now day label kws prev d :
  by_status ACTIVE (bridgeBlocks (create now day label kws prev d).2)
  = [((create now day label kws prev d).1,
      mkBlock day label None kws ACTIVE prev [] [] 0 now now)].
Proof.
  apply NoDup_singleton_all.
  - apply NoDup_filter, NoDup_imap_pair.
  - apply elem_of_by_status. split; [|done].
    unfold create. cbn [fst snd bridgeBlocks].
    by rewrite list_lookup_middle.
  - intros [i b] Hp. apply elem_of_by_status in Hp as [Hi Hb].
    pose proof (create_only_new_active _ _ _ _ _ _ _ _ Hi Hb) as ->.
    f_equal. unfold create in Hi. cbn [fst snd bridgeBlocks] in Hi.
    rewrite list_lookup_middle in Hi by done. congruence.
Qed.

(** Property X10.  [getActive] returns at most one block whenever at most
    one block is ACTIVE.  Right after [create] it returns exactly the new
    block, for no day argument and for the day of the block, and nothing
    for another day; an empty [dayId] is read as no argument, so it
    returns the ACTIVE blocks of every day. *)
Theorem getActive_after_create :
  (∀ a bs, one_active bs → length (getActive a bs) ≤ 1) ∧
  (∀ now day label kws prev d,
     let r := create now day label kws prev d in
     let new := mkBlock day label None kws ACTIVE prev [] [] 0 now now in
     getActive None (bridgeBlocks r.2) = [(r.1, new)] ∧
     getActive (Some day) (bridgeBlocks r.2) = [(r.1, new)] ∧
     ∀ other, other ≠ day → other ≠ ""%string →
              getActive (Some other) (bridgeBlocks r.2) = []) ∧
  (∀ bs, getActive (Some ""%string) bs = getActive None bs).
Proof.
  split; [|split].
  - intros a bs Hone. unfold getActive.
    pose proof (by_status_one_active bs Hone).
    destruct (truthy a); [|done].
    etrans; [apply length_filter|done].
  - intros now day label kws prev d r new. unfold getActive.
    unfold r. rewrite by_status_create. fold r new.
    split; [done|]. split.
    + destruct (truthy (Some day)); [|done].
      rewrite filter_cons, filter_nil. by rewrite decide_True.
    + intros other Hne Hemp.
      assert (truthy (Some other) = true) as ->.
      { cbn. destruct other; [done|done]. }
      rewrite filter_cons, filter_nil. rewrite decide_False; [done|].
      cbn. congruence.
  - done.
Qed.

(** The reducer keeps the first of the entries with the largest
    [updatedAt]. *)
Lemma foldl_later_Some l ps :
  ∃ p, foldl later (Some l) ps = Some p ∧
       (updatedAt l.2 ≤ updatedAt p.2)%Z ∧
       (∀ x, x ∈ ps → (updatedAt x.2 ≤ updatedAt p.2)%Z) ∧
       (p = l ∨ ∃ k, ps !! k = Some p ∧ (updatedAt l.2 < updatedAt p.2)%Z ∧
                     ∀ j x, j < k → ps !! j = Some x → (updatedAt x.2 < updatedAt p.2)%Z).
Proof.
  revert l. induction ps as [|x ps IH]; intros l.
  - exists l. split; [done|]. split; [lia|]. split; [|by left].
    intros x Hx. by apply elem_of_nil in Hx.
  - cbn [foldl later].
    destruct (updatedAt l.2 <? updatedAt x.2)%Z eqn:Hlt.
    + apply Z.ltb_lt in Hlt.
      destruct (IH x) as (p & Hp & Hge & Hall & Hk).
      exists p. split; [done|]. split; [lia|]. split.
      * intros y Hy. apply elem_of_cons in Hy as [->|Hy]; [done|by apply Hall].
      * right. destruct Hk as [->|(k & Hk & Hxp & Hfirst)].
        -- exists 0. split; [done|]. split; [done|]. intros j y Hj. lia.
        -- exists (S k). split; [done|]. split; [lia|].
           intros [|j] y Hj Hy; cbn in Hy.
           ++ injection Hy as <-. done.
           ++ apply (Hfirst j); [lia|done].
    + apply Z.ltb_ge in Hlt.
      destruct (IH l) as (p & Hp & Hge & Hall & Hk).
      exists p. split; [done|]. split; [lia|]. split.
      * intros y Hy. apply elem_of_cons in Hy as [->|Hy]; [lia|by apply Hall].
      * destruct Hk as [->|(k & Hk & Hxp & Hfirst)]; [by left|].
        right. exists (S k). split; [done|]. split; [lia|].
        intros [|j] y Hj Hy; cbn in Hy.
        -- injection Hy as <-. lia.
        -- apply (Hfirst j); [lia|done].
Qed.

Lemma foldl_later_None ps :
  ps ≠ [] →
  ∃ k p, foldl later None ps = Some p ∧ ps !! k = Some p ∧
         (∀ x, x ∈ ps → (updatedAt x.2 ≤ updatedAt p.2)%Z) ∧
         ∀ j x, j < k → ps !! j = Some x → (updatedAt x.2 < updatedAt p.2)%Z.
Proof.
  destruct ps as [|x ps]; [done|]. intros _. cbn [foldl later].
  destruct (foldl_later_Some x ps) as (p & Hp & Hge & Hall & Hk).
  destruct Hk as [->|(k & Hk & Hxp & Hfirst)].
  - exists 0, x. split; [done|]. split; [done|]. split.
    + intros y Hy. apply elem_of_cons in Hy as [->|Hy]; [lia|by apply Hall].
    + intros j y Hj. lia.
  - exists (S k), p. split; [done|]. split; [done|]. split.
    + intros y Hy. apply elem_of_cons in Hy as [->|Hy]; [lia|by apply Hall].
    + intros [|j] y Hj Hy; cbn in Hy.
      * injection Hy as <-. done.
      * apply (Hfirst j); [lia|done].
Qed.

Lemma by_day_index_inj day (bs : list block) j k p q :
  by_day day bs !! j = Some p → by_day day bs !! k = Some q →
  p.1 = q.1 → j = k.
Proof.
  intros Hj Hk Heq.
  assert (Hnd : NoDup (by_day day bs))
    by apply NoDup_filter, NoDup_imap_pair.
  apply (NoDup_lookup _ j k p Hnd Hj).
  destruct p as [i b], q as [i' b']. cbn in Heq. subst i'.
  apply list_elem_of_lookup_2 in Hj as Hp, Hk as Hq.
  apply elem_of_by_day in Hp as [Hp _], Hq as [Hq _].
  assert (b = b') by congruence. by subst.
Qed.

Lemma getMetadataByDay_flag day bs :
  by_day day bs ≠ [] →
  ∃ k p, by_day day bs !! k = Some p ∧
    getMetadataByDay day bs = metadata_of (Some p) <$> by_day day bs ∧
    (∀ x, x ∈ by_day day bs → (updatedAt x.2 ≤ updatedAt p.2)%Z) ∧
    (∀ j x, j < k → by_day day bs !! j = Some x → (updatedAt x.2 < updatedAt p.2)%Z) ∧
    (∀ j x, by_day day bs !! j = Some x →
            isLastActive (metadata_of (Some p) x) = true ↔ j = k).
Proof.
  intros Hne.
  destruct (foldl_later_None _ Hne) as (k & p & Hfold & Hk & Hall & Hfirst).
  exists k, p. split; [done|]. split.
  { unfold getMetadataByDay. by rewrite Hfold. }
  split; [done|]. split; [done|].
  intros j x Hj. cbn. rewrite bool_decide_eq_true. split.
  - intros Heq. injection Heq as Heq.
    by apply (by_day_index_inj day bs j k x p).
  - intros ->. congruence.
Qed.

(** Property X11.  [getMetadataByDay] lists the blocks of the day in
    creation order; on a day without blocks the list is empty, otherwise
    exactly one entry has [isLastActive] set: the first of the blocks with
    the largest [updatedAt].  The flag does not look at the status. *)
Theorem getMetadataByDay_flags_latest (day : string) (bs : list block) :
  let ms := getMetadataByDay day bs in
  bm_blockId <$> ms = (by_day day bs).*1 ∧
  bm_status <$> ms = (blockStatus ∘ snd) <$> by_day day bs ∧
  (ms = [] ∨
   ∃ k m, ms !! k = Some m ∧
     (∀ j m', ms !! j = Some m' → (bm_updatedAt m' ≤ bm_updatedAt m)%Z) ∧
     (∀ j m', j < k → ms !! j = Some m' →
              (bm_updatedAt m' < bm_updatedAt m)%Z) ∧
     (∀ j m', ms !! j = Some m' → isLastActive m' = true ↔ j = k)).
Proof.
  cbn zeta. split; [|split].
  - unfold getMetadataByDay. rewrite <- list_fmap_compose.
    by apply list_fmap_ext.
  - unfold getMetadataByDay. rewrite <- list_fmap_compose.
    by apply list_fmap_ext.
  - destruct (decide (by_day day bs = [])) as [Hemp|Hne].
    { left. unfold getMetadataByDay. by rewrite Hemp. }
    right.
    destruct (getMetadataByDay_flag day bs Hne)
      as (k & p & Hk & -> & Hall & Hfirst & Hflag).
    exists k, (metadata_of (Some p) p).
    split; [by rewrite list_lookup_fmap, Hk|].
    split; [|split].
    + intros j m' Hj. rewrite list_lookup_fmap in Hj.
      destruct (by_day day bs !! j) as [x|] eqn:E; [|done].
      injection Hj as <-. cbn. apply Hall.
      by apply list_elem_of_lookup_2 in E.
    + intros j m' Hlt Hj. rewrite list_lookup_fmap in Hj.
      destruct (by_day day bs !! j) as [x|] eqn:E; [|done].
      injection Hj as <-. cbn. by apply (Hfirst j).
    + intros j m' Hj. rewrite list_lookup_fmap in Hj.
      destruct (by_day day bs !! j) as [x|] eqn:E; [|done].
      injection Hj as <-. by apply Hflag.
Qed.

Lemma create_table now day label kws prev d :
  bridgeBlocks (create now day label kws prev d).2 =
  imap (λ _ b, if bool_decide (blockStatus b = ACTIVE)
               then apply_patch (pause_patch now) b else b)
       (bridgeBlocks d)
  ++ [mkBlock day label None kws ACTIVE prev [] [] 0 now now] ∧
  (create now day label kws prev d).1 = length (bridgeBlocks d).
Proof.
  unfold create. cbn [fst snd bridgeBlocks]. rewrite pause_all_spec.
  by rewrite length_imap.
Qed.

Lemma by_day_snoc day (bs : list block) x :
  by_day day (bs ++ [x]) =
  by_day day bs ++ (if decide (dayId x = day) then [(length bs, x)] else []).
Proof.
  unfold by_day. rewrite imap_app, filter_app. f_equal.
  cbn. by rewrite Nat.add_0_r.
Qed.

(** Property X12.  When [create] is called on a day that has an ACTIVE
    block, that block is paused with the same clock reading that stamps
    the new block, and it comes first in the day's index: so
    [getMetadataByDay] then sets [isLastActive] on an entry, but never on
    the new block, and never on a block whose status is ACTIVE. *)
Theorem create_leaves_flag_on_older_block (now : Z) (day label : string)
    (kws : list string) (prev : option nat) (d : db) (i : nat) (b : block) :
  bridgeBlocks d !! i = Some b → dayId b = day → blockStatus b = ACTIVE →
  let r := create now day label kws prev d in
  let ms := getMetadataByDay day (bridgeBlocks r.2) in
  (∃ m, m ∈ ms ∧ isLastActive m = true) ∧
  (∀ m, m ∈ ms → isLastActive m = true →
        bm_blockId m ≠ r.1 ∧ bm_status m ≠ ACTIVE) ∧
  (∀ m, m ∈ ms → bm_blockId m = r.1 →
        bm_status m = ACTIVE ∧ isLastActive m = false).
Proof.
  intros Hi Hday Hact r ms.
  destruct (create_table now day label kws prev d) as [Htab Hid].
  fold r in Htab, Hid.
  set (bs' := imap (λ _ b, if bool_decide (blockStatus b = ACTIVE)
                           then apply_patch (pause_patch now) b else b)
                   (bridgeBlocks d)) in *.
  set (new := mkBlock day label None kws ACTIVE prev [] [] 0 now now) in *.
  assert (Hlen : length bs' = length (bridgeBlocks d))
    by (unfold bs'; by rewrite length_imap).
  assert (Hbd : by_day day (bridgeBlocks r.2) =
                by_day day bs' ++ [(length bs', new)]).
  { rewrite Htab, by_day_snoc. by rewrite decide_True. }
  set (n := length (by_day day bs')).
  assert (Hnew : by_day day (bridgeBlocks r.2) !! n = Some (length bs', new)).
  { rewrite Hbd. by apply list_lookup_middle. }
  (* the paused block sits before the new one, with the same stamp *)
  assert (Hold : (i, apply_patch (pause_patch now) b) ∈ by_day day bs').
  { apply elem_of_by_day. split; [|done].
    unfold bs'. rewrite list_lookup_imap, Hi. cbn.
    by rewrite bool_decide_eq_true_2. }
  apply list_elem_of_lookup in Hold as [j Hj].
  assert (Hjn : j < n) by by apply lookup_lt_Some in Hj.
  assert (Hj' : by_day day (bridgeBlocks r.2) !! j
                = Some (i, apply_patch (pause_patch now) b)).
  { rewrite Hbd. by rewrite lookup_app_l. }
  assert (Hne : by_day day (bridgeBlocks r.2) ≠ []).
  { rewrite Hbd. by destruct (by_day day bs'). }
  destruct (getMetadataByDay_flag day _ Hne)
    as (k & p & Hk & Hms & Hall & Hfirst & Hflag).
  fold ms in Hms.
  assert (Hkn : k ≠ n).
  { intros ->. rewrite Hnew in Hk. injection Hk as <-.
    specialize (Hfirst j _ Hjn Hj'). cbn in Hfirst. lia. }
  assert (Hflagged : ∀ m, m ∈ ms → isLastActive m = true →
                          m = metadata_of (Some p) p).
  { intros m Hm Hfl. rewrite Hms in Hm.
    apply list_elem_of_fmap in Hm as (x & -> & Hx).
    apply list_elem_of_lookup in Hx as [jx Hx].
    apply (Hflag jx x Hx) in Hfl. subst jx. congruence. }
  assert (Hp1 : p.1 ≠ r.1).
  { intros Heq. apply Hkn.
    apply (by_day_index_inj day (bridgeBlocks r.2) k n p (length bs', new));
      [done|done|]. cbn. lia. }
  split; [|split].
  - exists (metadata_of (Some p) p). split.
    + rewrite Hms. apply list_elem_of_fmap. exists p. split; [done|].
      by apply list_elem_of_lookup_2 in Hk.
    + by apply (Hflag k p Hk).
  - intros m Hm Hfl. rewrite (Hflagged m Hm Hfl). cbn. split; [done|].
    intros Hst. apply Hp1.
    apply list_elem_of_lookup_2 in Hk. destruct p as [pi pb].
    apply elem_of_by_day in Hk as [Hk _]. cbn in *.
    by apply (create_only_new_active now day label kws prev d pi pb).
  - intros m Hm Hid'. rewrite Hms in Hm.
    apply list_elem_of_fmap in Hm as ([xi xb] & -> & Hx).
    change (xi = r.1) in Hid'. subst xi. apply elem_of_by_day in Hx as Hx'. destruct Hx' as [Hx' _].
    rewrite Htab, Hid, <- Hlen, list_lookup_middle in Hx' by done.
    injection Hx' as <-. split; [done|].
    cbn. apply bool_decide_eq_false_2. intros Heq. injection Heq as Heq.
    apply Hp1. rewrite <- Heq. done.
Qed.

Lemma create_leaves_flag_on_older_block_witness :
  let d := (create 1 "2025-01-01" "Contracts" [] None empty).2 in
  let r := create 2 "2025-01-01" "Cooking" [] None d in
  let ms := getMetadataByDay "2025-01-01" (bridgeBlocks r.2) in
  (∃ m, m ∈ ms ∧ isLastActive m = true) ∧
  (∀ m, m ∈ ms → isLastActive m = true →
        bm_blockId m ≠ r.1 ∧ bm_status m ≠ ACTIVE) ∧
  (∀ m, m ∈ ms → bm_blockId m = r.1 →
        bm_status m = ACTIVE ∧ isLastActive m = false).
Proof.
  intros d.
  exact (create_leaves_flag_on_older_block 2 "2025-01-01" "Cooking" [] None
           d 0 (mkBlock "2025-01-01" "Contracts" None [] ACTIVE None [] []
                        0 1 1) eq_refl eq_refl eq_refl).
Defined.

Lemma len_append a b : Js.len (String.append a b) = Js.len a + Js.len b.
Proof. unfold Js.len. induction a as [|c a IH]; simpl; [done|]. by rewrite IH. Qed.

Lemma heuristic_summary_truthy ts :
  ts ≠ [] → truthy (heuristic_summary ts) = true.
Proof.
  intros Hne. unfold heuristic_summary.
  destruct ts as [|t ts]; [done|].
  destruct (last (t :: ts)) as [lt|] eqn:Hl.
  - destruct (length (t :: ts) =? 1).
    + unfold truthy, Js.concat. by simpl.
    + unfold truthy, Js.concat. cbn [foldr]. rewrite len_append.
      generalize (Js.len (pretty (length (t :: ts)))). intros n.
      simpl. by rewrite Nat.add_succ_r.
  - by rewrite last_None in Hl.
Qed.

(** Property X13.  [pauseWithSummary] does nothing for an id without
    block.  Otherwise the block ends PAUSED, stamped, and always with a
    summary: a non-empty stored summary is kept; without one, the
    heuristic text is written when the block has turns and the text about
    the turn count when it has none and no summary is stored.  Pausing a
    second time keeps the summary of the first. *)
Theorem pauseWithSummary_writes_summary (now : Z) (id : nat) (d : db) :
  (bridgeBlocks d !! id = None → pauseWithSummary now id d = d) ∧
  (∀ b, bridgeBlocks d !! id = Some b →
     ∃ b', bridgeBlocks (pauseWithSummary now id d) !! id = Some b' ∧
       turns (pauseWithSummary now id d) = turns d ∧
       blockStatus b' = PAUSED ∧ updatedAt b' = now ∧
       is_Some (summary b') ∧
       (truthy (summary b) = true → summary b' = summary b) ∧
       (truthy (summary b) = false →
        turns_by_block id (turns d) ≠ [] →
        summary b' = heuristic_summary (turns_by_block id (turns d)) ∧
        truthy (summary b') = true) ∧
       (summary b = None → turns_by_block id (turns d) = [] →
        summary b' = Some (Js.concat ["Block with "; pretty (turnCount b);
                                      " turns"]%string)) ∧
       ∀ now', ∃ b'',
         bridgeBlocks (pauseWithSummary now' id (pauseWithSummary now id d))
           !! id = Some b'' ∧
         summary b'' = summary b' ∧ blockStatus b'' = PAUSED).
Proof.
  split.
  { intros Hi. unfold pauseWithSummary. by rewrite Hi. }
  intros b Hi.
  assert (Hstep : ∀ now d b, bridgeBlocks d !! id = Some b →
    ∃ s, bridgeBlocks (pauseWithSummary now id d) !! id
         = Some (apply_patch (mkPatch (Some s) None (Some PAUSED) None None
                                      None (Some now)) b) ∧
         turns (pauseWithSummary now id d) = turns d ∧
         (truthy (summary b) = true → Some s = summary b) ∧
         (truthy (summary b) = false →
          turns_by_block id (turns d) ≠ [] →
          Some s = heuristic_summary (turns_by_block id (turns d)) ∧
          truthy (Some s) = true) ∧
         (truthy (summary b) = false →
          turns_by_block id (turns d) = [] →
          Some s = match summary b with
                   | Some s0 => Some s0
                   | None => Some (Js.concat ["Block with ";
                                pretty (turnCount b); " turns"]%string)
                   end)).
  { clear. intros now d b Hi. unfold pauseWithSummary. rewrite Hi.
    cbn [bridgeBlocks turns].
    rewrite list_lookup_alter, Hi, decide_True by done. cbn [fmap option_fmap option_map].
    eexists. split; [reflexivity|]. split; [done|].
    destruct (truthy (summary b)) eqn:Htr; cbn [negb andb].
    - split; [|split; done]. intros _.
      destruct (summary b); [done|discriminate].
    - split; [done|].
      destruct (turns_by_block id (turns d)) as [|t ts] eqn:Hts.
      + cbn. split; [done|]. intros _ _. by destruct (summary b).
      + split; [|done]. intros _ _.
        pose proof (heuristic_summary_truthy (t :: ts)) as Hh.
        destruct (heuristic_summary (t :: ts)) as [h|] eqn:E.
        * replace (0 <? length (t :: ts)) with true by done.
          split; [done|]. by apply Hh.
        * by specialize (Hh ltac:(done)). }
  destruct (Hstep now d b Hi) as (s & Hb' & Hts & Hkeep & Hheur & Hnone).
  eexists. split; [exact Hb'|]. split; [done|].
  split; [done|]. split; [done|]. split; [by eexists|].
  cbn [summary apply_patch p_summary].
  split; [done|]. split; [done|]. split.
  { intros Hs Hnil. rewrite Hnone; [by rewrite Hs|by rewrite Hs|done]. }
  intros now'.
  destruct (Hstep now' _ _ Hb') as (s' & Hb'' & _ & Hkeep' & Hheur' & Hnone').
  eexists. split; [exact Hb''|]. split; [|done].
  cbn [summary apply_patch p_summary] in *.
  destruct (truthy (Some s)) eqn:Htr; [by apply Hkeep'|].
  rewrite Hts in Hnone'.
  destruct (decide (turns_by_block id (turns d) = [])) as [Hnil|Hne].
  - by apply Hnone'.
  - exfalso. destruct (truthy (summary b)) eqn:Hb.
    + rewrite <- Hkeep in Hb by done. congruence.
    + destruct (Hheur eq_refl Hne) as [_ Ht]. congruence.
Qed.

End BlockQueries.

(** ** Chat orchestrator: routing scenarios *)

Section Routing.
Import BridgeBlocks Orchestrator.

Lemma pauseWithSummary_length now id d :
  length (bridgeBlocks (pauseWithSummary now id d)) = length (bridgeBlocks d).
Proof.
  unfold pauseWithSummary. destruct (bridgeBlocks d !! id); [|done].
  cbn. by rewrite length_alter.
Qed.

Lemma updateStatus_Some_inv now id st d d' :
  updateStatus now id st d = Some d' →
  id < length (bridgeBlocks d) ∧
  blockStatus <$> bridgeBlocks d' !! id = Some st.
Proof.
  unfold updateStatus. intros Hu.
  apply bind_Some in Hu as (bs' & Hp & Hd). injection Hd as <-.
  unfold db_patch in Hp.
  destruct (_ !! id) as [b0|] eqn:E; [|done]. injection Hp as <-.
  split.
  - apply lookup_lt_Some in E. revert E. case_decide; [|done].
    rewrite pause_others_spec. by rewrite length_imap.
  - cbn. by rewrite list_lookup_alter, E, decide_True.
Qed.

Lemma updateStatus_None_inv now id d :
  updateStatus now id ACTIVE d = None → bridgeBlocks d !! id = None.
Proof.
  intros Hu. destruct (bridgeBlocks d !! id) as [b0|] eqn:E; [|done].
  destruct (updateStatus_active_spec now id d b0 E) as (d' & Hd' & _).
  congruence.
Qed.

Lemma head_getActive day bs l :
  head (getActive (Some day) bs) = Some l →
  bs !! l.1 = Some l.2 ∧ blockStatus l.2 = ACTIVE.
Proof.
  intros Hh. apply head_Some_elem_of in Hh. destruct l as [i b].
  unfold getActive in Hh. destruct (truthy (Some day)).
  - apply list_elem_of_filter in Hh as [_ Hh].
    by apply elem_of_by_status in Hh.
  - by apply elem_of_by_status in Hh.
Qed.

Lemma head_getActive_None day bs i b :
  head (getActive (Some day) bs) = None →
  bs !! i = Some b → dayId b = day → blockStatus b ≠ ACTIVE.
Proof.
  intros Hh Hi Hday Hact. apply head_None in Hh.
  assert (Hin : (i, b) ∈ getActive (Some day) bs).
  { unfold getActive. destruct (truthy (Some day)).
    - apply list_elem_of_filter. split; [by rewrite <- Hday|].
      by apply elem_of_by_status.
    - by apply elem_of_by_status. }
  rewrite Hh in Hin. by apply elem_of_nil in Hin.
Qed.

(** Property X14.  Whatever the routing decision and the state, the block
    that [executeRoutingScenario] answers with is ACTIVE when the call
    returns, and unless the call was a continuation (scenario 1, which
    changes nothing) it is the only ACTIVE block.  The answer says
    [isNewTopic] exactly when the block was created by the call.  The
    call fails only on a resumption of a block id that does not exist;
    the formerly ACTIVE block of the day has then already been paused, so
    with at most one ACTIVE block before, the day is left without one. *)
Theorem executeRoutingScenario_routes_to_active (now1 now2 : Z)
    (r : routing) (day userMessage : string) (d : db) :
  let res := executeRoutingScenario now1 now2 r day userMessage d in
  (∀ s, res.1 = Some s →
     blockStatus <$> bridgeBlocks res.2 !! blockId s = Some ACTIVE ∧
     (scenario s = 1 → res.2 = d) ∧
     (scenario s ≠ 1 →
      ∀ i b, bridgeBlocks res.2 !! i = Some b → blockStatus b = ACTIVE →
             i = blockId s) ∧
     (rs_isNewTopic s = true ↔ blockId s = length (bridgeBlocks d)) ∧
     1 ≤ scenario s ≤ 4) ∧
  (res.1 = None →
     isNewTopic r = false ∧
     (∃ m, matchedBlockId r = Some m ∧ bridgeBlocks d !! m = None) ∧
     (one_active (bridgeBlocks d) →
      ∀ i b, bridgeBlocks res.2 !! i = Some b → dayId b = day →
             blockStatus b ≠ ACTIVE)).
Proof.
  cbn zeta. unfold executeRoutingScenario.
  set (last := head (getActive (Some day) (bridgeBlocks d))).
  set (label := default "General Discussion"%string (suggestedLabel r)).
  set (kws := extractKeywords userMessage).
  (* the two ways of creating a block *)
  assert (Hnew : ∀ now desc d0 n (opaused : option nat),
    length (bridgeBlocks d0) = length (bridgeBlocks d) →
    let res := (let '(blockId, d1) := create now day label kws None d0 in
                (Some (mkScenario n desc blockId true opaused), d1)) in
    1 ≤ n ≤ 4 → n ≠ 1 →
    (∀ s, res.1 = Some s →
       blockStatus <$> bridgeBlocks res.2 !! blockId s = Some ACTIVE ∧
       (scenario s = 1 → res.2 = d) ∧
       (scenario s ≠ 1 →
        ∀ i b, bridgeBlocks res.2 !! i = Some b → blockStatus b = ACTIVE →
               i = blockId s) ∧
       (rs_isNewTopic s = true ↔ blockId s = length (bridgeBlocks d)) ∧
       1 ≤ scenario s ≤ 4) ∧
    (res.1 = None →
       isNewTopic r = false ∧
       (∃ m, matchedBlockId r = Some m ∧ bridgeBlocks d !! m = None) ∧
       (one_active (bridgeBlocks d) →
        ∀ i b, bridgeBlocks res.2 !! i = Some b → dayId b = day →
               blockStatus b ≠ ACTIVE))).
  { intros now desc d0 n opaused Hlen.
    pose proof (create_lookup_new now day label kws None d0) as [Hid Hact].
    pose proof (create_only_new_active now day label kws None d0) as Honly.
    destruct (create now day label kws None d0) as [id d1]. cbn in *.
    intros Hn Hn1. split; [|done].
    intros s Hs. injection Hs as <-. cbn.
    split; [done|]. split; [done|]. split; [|split; [|done]].
    - intros _. apply Honly.
    - split; [intros _; congruence|done]. }
  destruct (matchedBlockId r) as [m|] eqn:Hm.
  - destruct last as [l|] eqn:Hlast.
    + (* an ACTIVE block of the day exists *)
      pose proof (head_getActive day _ l Hlast) as [Hl Hlact].
      case_bool_decide as Hml.
      * (* scenario 1 *)
        cbn. split; [|done]. intros s Hs. injection Hs as <-. cbn.
        subst m. rewrite Hl. cbn. rewrite Hlact.
        split; [done|]. split; [done|]. split; [done|]. split; [|lia].
        split; [done|]. intros Heq. apply lookup_lt_Some in Hl. lia.
      * destruct (isNewTopic r) eqn:HisNew; cbn [negb].
        -- apply (Hnew now2 "Topic Shift"%string
                    (pauseWithSummary now1 l.1 d) 4 (Some l.1));
             [apply pauseWithSummary_length|lia|lia].
        -- (* scenario 2 *)
           destruct (updateStatus now2 m ACTIVE (pauseWithSummary now1 l.1 d))
             as [d2|] eqn:Hu; cbn [fst snd].
           ++ split; [|done]. intros s Hs. injection Hs as <-. cbn.
              apply updateStatus_Some_inv in Hu as Hu'.
              destruct Hu' as [Hlt Hst].
              rewrite pauseWithSummary_length in Hlt.
              split; [done|]. split; [done|]. split; [|split; [|lia]].
              ** intros _ i b Hi Hb.
                 by apply (updateStatus_only_target_active _ _ _ _ _ _ Hu Hi).
              ** split; [done|]. lia.
           ++ split; [done|]. intros _. split; [done|].
              apply updateStatus_None_inv in Hu.
              destruct (pauseWithSummary_spec now1 l.1 d) as [Hp1 Hp2].
              assert (Hmne : m ≠ l.1) by done.
              rewrite (Hp2 m Hmne) in Hu.
              split; [by exists m|].
              intros Hone i b Hi _ Hb.
              destruct (decide (i = l.1)) as [->|Hne].
              ** specialize (Hp1 _ Hl). rewrite Hi in Hp1. cbn in Hp1.
                 congruence.
              ** rewrite (Hp2 i Hne) in Hi.
                 apply Hne. by apply (Hone i l.1 b l.2).
    + (* no ACTIVE block of the day *)
      cbn match. destruct (isNewTopic r) eqn:HisNew; cbn [negb].
      * apply (Hnew now1 "New Topic Creation"%string d 3 None); [done|lia|lia].
      * destruct (updateStatus now2 m ACTIVE d) as [d2|] eqn:Hu;
          cbn [fst snd fmap option_fmap option_map].
        -- split; [|done]. intros s Hs. injection Hs as <-. cbn.
           apply updateStatus_Some_inv in Hu as Hu'.
           destruct Hu' as [Hlt Hst].
           split; [done|]. split; [done|]. split; [|split; [|lia]].
           ++ intros _ i b Hi Hb.
              by apply (updateStatus_only_target_active _ _ _ _ _ _ Hu Hi).
           ++ split; [done|]. lia.
        -- split; [done|]. intros _. split; [done|].
           apply updateStatus_None_inv in Hu. split; [by exists m|].
           intros _ i b Hi Hday.
           by apply (head_getActive_None day (bridgeBlocks d) i b).
  - destruct (isNewTopic r) eqn:HisNew.
    + destruct last as [l|] eqn:Hlast.
      * apply (Hnew now2 "Topic Shift"%string
                 (pauseWithSummary now1 l.1 d) 4 (Some l.1));
          [apply pauseWithSummary_length|lia|lia].
      * apply (Hnew now1 "New Topic Creation"%string d 3 None); [done|lia|lia].
    + apply (Hnew now1 "Fallback - New Topic"%string d 3 None); [done|lia|lia].
Qed.

End Routing.

(** ** Tabula rasa: closing and opening blocks *)

Section TabulaRasaBlocks.
Import BridgeBlocks TabulaRasa.

(** Property X15.  [createNewBlock] is a plain insert: unlike [create] it
    pauses nothing, so the table has at most one ACTIVE block afterwards
    exactly when it had none before, and when the day already had an
    ACTIVE block [getActiveBlock] keeps answering with that older block.
    After [closeBlock] of the one ACTIVE block, [createNewBlock] leaves
    the new block as the only ACTIVE one and [getActiveBlock] of its day
    answers with it; [closeBlock] of an id without block throws. *)
Theorem createNewBlock_pauses_nothing (now now' : Z) (day label : string)
    (kws : list string) (prev : option nat) (bs : list block) :
  let new := mkBlock day label None kws ACTIVE prev [] [] 0 now now' in
  let r := createNewBlock now now' day label kws prev bs in
  r = (length bs, bs ++ [new]) ∧
  (one_active r.2 ↔ ∀ i b, bs !! i = Some b → blockStatus b ≠ ACTIVE) ∧
  (∀ p, getActiveBlock day bs = Some p → getActiveBlock day r.2 = Some p) ∧
  (∀ t i, bs !! i = None → closeBlock t i bs = None) ∧
  (∀ t i b, one_active bs → bs !! i = Some b → blockStatus b = ACTIVE →
     ∃ bs1, closeBlock t i bs = Some (i, bs1) ∧
       blockStatus <$> bs1 !! i = Some CLOSED ∧
       let r1 := createNewBlock now now' day label kws prev bs1 in
       one_active r1.2 ∧ getActiveBlock day r1.2 = Some (r1.1, new)).
Proof.
  cbn zeta. split; [done|].
  assert (Hfresh : ∀ bs0 : list block,
            (∀ i b, bs0 !! i = Some b → blockStatus b ≠ ACTIVE) →
            one_active (bs0 ++ [mkBlock day label None kws ACTIVE prev [] []
                                        0 now now']) ∧
            getActiveBlock day (bs0 ++ [mkBlock day label None kws ACTIVE
                                          prev [] [] 0 now now'])
            = Some (length bs0, mkBlock day label None kws ACTIVE prev [] []
                                        0 now now')).
  { intros bs0 Hnone. split.
    - assert (Hidx : ∀ i b, (bs0 ++ [mkBlock day label None kws ACTIVE prev
                               [] [] 0 now now']) !! i = Some b →
                       blockStatus b = ACTIVE → i = length bs0).
      { intros i b Hi Hb. destruct (decide (i < length bs0)) as [Hlt|Hge].
        - rewrite lookup_app_l in Hi by done. by destruct (Hnone i b Hi).
        - apply lookup_lt_Some in Hi. rewrite length_app in Hi. cbn in Hi. lia. }
      intros i j b c Hi Hj Hb Hc.
      rewrite (Hidx i b Hi Hb), (Hidx j c Hj Hc). done.
    - unfold getActiveBlock. rewrite by_day_snoc, decide_True by done.
      rewrite filter_app.
      destruct (filter _ (by_day day bs0)) as [|[i b] l] eqn:E.
      + rewrite app_nil_l, filter_cons, decide_True by done. done.
      + exfalso.
        assert (Hin : (i, b) ∈ filter (λ p : nat * block,
                          blockStatus p.2 = ACTIVE) (by_day day bs0))
          by (rewrite E; left).
        apply list_elem_of_filter in Hin as [Hb Hin].
        apply elem_of_by_day in Hin as [Hi _].
        by apply (Hnone i b Hi). }
  split; [|split; [|split]].
  - unfold createNewBlock. cbn [snd]. split.
    + intros Hone i b Hi Hb.
      assert (i = length bs); [|apply lookup_lt_Some in Hi; lia].
      apply (Hone i (length bs) b
               (mkBlock day label None kws ACTIVE prev [] [] 0 now now'));
        [by rewrite lookup_app_l by by eapply lookup_lt_Some
        |by apply list_lookup_middle|done|done].
    + intros Hnone. by apply Hfresh.
  - intros p Hp. unfold getActiveBlock, createNewBlock in *. cbn [snd].
    rewrite by_day_snoc, filter_app.
    destruct (filter _ (by_day day bs)) as [|q l]; [done|]. done.
  - intros t i Hi. unfold closeBlock, db_patch. by rewrite Hi.
  - intros t i b Hone Hi Hb.
    unfold closeBlock, db_patch. rewrite Hi. cbn.
    eexists. split; [reflexivity|]. split.
    { by rewrite list_lookup_alter, Hi, decide_True. }
    unfold createNewBlock. cbn [fst snd].
    apply Hfresh. intros j c Hj Hc.
    destruct (decide (j = i)) as [->|Hne].
    + rewrite list_lookup_alter, Hi, decide_True in Hj by done.
      cbn in Hj. injection Hj as <-. done.
    + rewrite list_lookup_alter_ne in Hj by done.
      apply Hne. by apply (Hone j i c b).
Qed.

End TabulaRasaBlocks.


(** ** Global matches and the keyword extraction of the orchestrator *)

Section GlobalMatch.
Import Js Regex.

Lemma eats_any ci r : eats ci (λ _, true) r.
Proof. induction r; cbn; auto. Qed.

Lemma match_at_suffix ci r prev s rest :
  match_at ci r prev s = Some rest → ∃ w, s = w ++ rest.
Proof.
  intros Hm.
  destruct (match_at_eats ci (λ _, true) r prev s rest (eats_any ci r) Hm)
    as (w & -> & _).
  by exists w.
Qed.

(** Every text that a global match returns is matched by the pattern at
    some position. *)
Lemma match_all_go_sound ci r s :
  ∀ prev cur skip w,
    (0 < skip → ∃ prev0, match_at ci r prev0 (reverse cur ++ s)
                         = Some (drop skip s)) →
    w ∈ match_all_go ci r prev cur skip s →
    ∃ prev0 rest, match_at ci r prev0 (w ++ rest) = Some rest.
Proof.
  induction s as [|x s IH]; intros prev cur skip w Hinv Hw.
  - destruct skip as [|n]; cbn in Hw; [|by apply elem_of_nil in Hw].
    destruct (match_at ci r prev []) as [rest|] eqn:Hm;
      [|by apply elem_of_nil in Hw].
    apply match_at_suffix in Hm as Hsuf. destruct Hsuf as [w0 Hsuf].
    symmetry in Hsuf. apply app_eq_nil in Hsuf as [-> ->].
    cbn in Hw. apply list_elem_of_singleton in Hw as ->.
    by exists prev, [].
  - destruct skip as [|n].
    + cbn [match_all_go] in Hw.
      destruct (match_at ci r prev (x :: s)) as [rest|] eqn:Hm.
      * apply match_at_suffix in Hm as Hsuf. destruct Hsuf as [w0 Hsuf].
        assert (Hlen : length (x :: s) - length rest = length w0).
        { rewrite Hsuf, length_app. lia. }
        rewrite Hlen in Hw. destruct w0 as [|y w0].
        -- cbn [length] in Hw. apply elem_of_cons in Hw as [->|Hw].
           ++ exists prev, rest. cbn in Hsuf. subst rest. exact Hm.
           ++ apply (IH (Some x) [] 0 w); [lia|done].
        -- cbn [length] in Hw. cbn in Hsuf. injection Hsuf as <- Hs.
           destruct (length w0) as [|n] eqn:Hn.
           ++ apply length_zero_iff_nil in Hn as ->. cbn in Hs. subst s.
              apply elem_of_cons in Hw as [->|Hw].
              ** by exists prev, rest.
              ** apply (IH (Some x) [] 0 w); [lia|done].
           ++ apply (IH (Some x) [x] (S n) w); [|done].
              intros _. exists prev. cbn. rewrite Hm. f_equal.
              rewrite Hs, <- Hn. by rewrite drop_app_length.
      * apply (IH (Some x) [] 0 w); [lia|done].
    + cbn [match_all_go] in Hw.
      destruct (Hinv ltac:(lia)) as [prev0 Hm]. cbn [drop] in Hm.
      destruct n as [|n].
      * apply elem_of_cons in Hw as [->|Hw].
        -- exists prev0, s. rewrite reverse_cons, <- (assoc_L (++)).
           by rewrite drop_0 in Hm.
        -- apply (IH (Some x) [] 0 w); [lia|done].
      * apply (IH (Some x) (x :: cur) (S n) w); [|done].
        intros _. exists prev0. by rewrite reverse_cons, <- (assoc_L (++)).
Qed.

Lemma match_all_sound ci r s w :
  w ∈ match_all ci r s →
  ∃ prev rest, match_at ci r prev (chars w ++ rest) = Some rest.
Proof.
  unfold match_all. intros Hw.
  apply list_elem_of_fmap in Hw as (l & -> & Hl).
  rewrite chars_str.
  apply (match_all_go_sound ci r (chars s) None [] 0 l); [lia|done].
Qed.

End GlobalMatch.

Section OrchestratorKeywords.
Import Js Regex Orchestrator.

(** A match of [/\\b[a-z]{3,}\\b/] is three or more lower-case letters. *)
Lemma word_pattern_match prev w rest :
  match_at false word_pattern prev (w ++ rest) = Some rest →
  3 ≤ length w ∧ Forall (λ c, is_lower c = true) w.
Proof.
  intros Hm. split.
  - unfold match_at, word_pattern, seq_of in Hm. cbn [foldr m] in Hm.
    destruct (xorb _ _); [|done].
    destruct (w ++ rest) as [|a [|b [|c s3]]] eqn:Hs; try done.
    + by destruct (is_lower a).
    + destruct (is_lower a); [|done]. by destruct (is_lower b).
    + destruct (is_lower a); [|done]. destruct (is_lower b); [|done].
      destruct (is_lower c); [|done].
      apply (star_g_eats (λ _, true)) in Hm; [|done].
      destruct Hm as (w1 & s' & prev' & -> & _ & Hk).
      destruct (xorb _ _); [|done]. cbn in Hk. injection Hk as ->.
      apply (f_equal length) in Hs. rewrite length_app in Hs.
      cbn [length] in Hs. rewrite length_app in Hs. lia.
  - apply (match_at_eats false is_lower) in Hm as (w' & Heq & Hw').
    + apply app_inv_tail in Heq. by subst.
    + cbn. repeat split; auto.
Qed.

Lemma freq_set_keys word freq :
  (freq_set word freq).*1 = Set_add freq.*1 word.
Proof.
  unfold Set_add, Set_has. induction freq as [|e freq IH]; [done|].
  cbn [freq_set fmap list_fmap].
  destruct (decide (e.1 = word)) as [He|He].
  - rewrite bool_decide_eq_true_2 by (rewrite <- He; left). done.
  - cbn [fmap list_fmap]. rewrite IH.
    destruct (bool_decide (word ∈ freq.*1)) eqn:Hin;
      [apply bool_decide_eq_true in Hin|apply bool_decide_eq_false in Hin].
    + rewrite bool_decide_eq_true_2 by by right. done.
    + rewrite bool_decide_eq_false_2; [done|].
      intros Hc. apply elem_of_cons in Hc as [Hc|Hc]; [by apply He|done].
Qed.

Lemma foldl_freq_set_keys words freq :
  (foldl (λ freq word, freq_set word freq) freq words).*1
  = foldl Set_add freq.*1 words.
Proof.
  revert freq. induction words as [|w words IH]; intros freq; [done|].
  cbn [foldl]. by rewrite IH, freq_set_keys.
Qed.

Lemma freq_set_elem word freq k n :
  NoDup freq.*1 → (k, n) ∈ freq_set word freq →
  (k ≠ word ∧ (k, n) ∈ freq) ∨
  (k = word ∧ ∃ n0, n = n0 + 1 ∧
                    ((word, n0) ∈ freq ∨ ((word ∉ freq.*1) ∧ n0 = 0))).
Proof.
  induction freq as [|e freq IH]; intros Hnd Hin.
  - cbn in Hin. apply list_elem_of_singleton in Hin. injection Hin as -> ->.
    right. split; [done|]. exists 0. split; [done|]. right.
    split; [|done]. apply not_elem_of_nil.
  - cbn [fmap list_fmap] in Hnd. apply NoDup_cons in Hnd as [He Hnd].
    cbn [freq_set] in Hin. case_decide as Hew.
    + apply elem_of_cons in Hin as [Hin|Hin].
      * injection Hin as -> ->. right. split; [done|].
        exists e.2. split; [done|]. left. rewrite <- Hew.
        destruct e. left.
      * left. split; [|by right].
        intros ->. apply He. rewrite Hew.
        apply list_elem_of_fmap. by exists (word, n).
    + apply elem_of_cons in Hin as [Hin|Hin].
      * left. subst e. split; [done|left].
      * destruct (IH Hnd Hin) as [[Hk Hm]|[-> (n0 & -> & Hn0)]].
        -- left. split; [done|by right].
        -- right. split; [done|]. exists n0. split; [done|].
           destruct Hn0 as [Hn0|[Hn0 ->]]; [left; by right|].
           right. split; [|done]. cbn [fmap list_fmap].
           intros Hc. apply elem_of_cons in Hc as [Hc|Hc]; [by apply Hew|done].
Qed.

Lemma occurrences_cons k w words :
  occurrences k (w :: words) =
  (if decide (w = k) then 1 else 0) + occurrences k words.
Proof.
  unfold occurrences. rewrite filter_cons. by case_decide.
Qed.

Lemma foldl_freq_set_counts words freq k n :
  NoDup freq.*1 →
  (k, n) ∈ foldl (λ freq word, freq_set word freq) freq words →
  ∃ n0, ((k, n0) ∈ freq ∨ ((k ∉ freq.*1) ∧ n0 = 0)) ∧
        n = n0 + occurrences k words.
Proof.
  revert freq. induction words as [|w words IH]; intros freq Hnd Hin.
  - exists n. split; [by left|]. unfold occurrences. cbn. lia.
  - cbn [foldl] in Hin.
    assert (Hnd' : NoDup (freq_set w freq).*1)
      by (rewrite freq_set_keys; by apply Set_add_NoDup).
    destruct (IH _ Hnd' Hin) as (n1 & Hn1 & ->).
    rewrite occurrences_cons.
    destruct Hn1 as [Hn1|[Hn1 ->]].
    + destruct (freq_set_elem w freq k n1 Hnd Hn1)
        as [[Hk Hm]|[-> (n0 & -> & Hn0)]].
      * exists n1. split; [by left|]. rewrite decide_False by done. lia.
      * exists n0. split; [done|]. rewrite decide_True by done. lia.
    + rewrite freq_set_keys in Hn1. exists 0.
      assert ((k ∉ freq.*1) ∧ k ≠ w) as [Hk Hkw].
      { unfold Set_add, Set_has in Hn1. case_bool_decide as Hw.
        - split; [done|]. by intros ->.
        - rewrite elem_of_app, list_elem_of_singleton in Hn1. tauto. }
      split; [by right|]. rewrite decide_False by done. lia.
Qed.

Lemma insert_by_count_perm x l : insert_by_count x l ≡ₚ x :: l.
Proof.
  induction l as [|y l IH]; [done|]. cbn [insert_by_count].
  destruct (y.2 <=? x.2); [done|]. rewrite IH. apply Permutation_swap.
Qed.

Lemma sort_by_count_perm l : sort_by_count l ≡ₚ l.
Proof.
  unfold sort_by_count. induction l as [|x l IH]; [done|].
  cbn [foldr]. by rewrite insert_by_count_perm, IH.
Qed.

Lemma insert_by_count_descending x l :
  count_descending l → count_descending (insert_by_count x l).
Proof.
  induction l as [|y l IH]; intros Hs; [by split|].
  destruct Hs as [Hy Hs]. cbn [insert_by_count].
  destruct (y.2 <=? x.2) eqn:Hle.
  - apply Nat.leb_le in Hle. split; [|by split].
    apply Forall_cons. split; [done|].
    eapply Forall_impl; [exact Hy|]. cbn. intros z Hz. lia.
  - apply Nat.leb_gt in Hle. split; [|by apply IH].
    rewrite insert_by_count_perm. apply Forall_cons. split; [lia|done].
Qed.

Lemma sort_by_count_descending l : count_descending (sort_by_count l).
Proof.
  unfold sort_by_count. induction l as [|x l IH]; [done|].
  cbn [foldr]. by apply insert_by_count_descending.
Qed.

Lemma count_descending_lookup l i j a b :
  count_descending l → i < j → l !! i = Some a → l !! j = Some b →
  b.2 ≤ a.2.
Proof.
  revert i j. induction l as [|x l IH]; intros i j Hsort Hij Hi Hj;
    [done|]. destruct Hsort as [Hx Hs].
  destruct j as [|j]; [lia|]. cbn in Hj. destruct i as [|i].
  - cbn in Hi. injection Hi as <-.
    rewrite Forall_forall in Hx. apply Hx.
    by apply list_elem_of_lookup_2 in Hj.
  - cbn in Hi. apply (IH i j); [done|lia|done|done].
Qed.

(** Property X16.  [extractKeywords] of the orchestrator returns at most ten
    words, no word twice; each is a run of three or more lower-case
    letters found in the lower-cased text and is no stop word; the words
    come in order of descending number of occurrences, and when the text
    has at most ten distinct such words all of them are returned. *)
Theorem orchestrator_extractKeywords_spec (text : string) :
  let words := filter (λ word, word ∉ stopWords)
                 (match_all false word_pattern (toLowerCase text)) in
  let kws := extractKeywords text in
  length kws ≤ 10 ∧ NoDup kws ∧
  (∀ w, w ∈ kws →
        w ∈ words ∧ (w ∉ stopWords) ∧ 3 ≤ len w ∧
        Forall (λ c, is_lower c = true) (chars w)) ∧
  (∀ i j w v, i < j → kws !! i = Some w → kws !! j = Some v →
              occurrences v words ≤ occurrences w words) ∧
  (length (Set_of words) ≤ 10 → ∀ w, w ∈ words → w ∈ kws).
Proof.
  intros words kws.
  set (freq := foldl (λ freq word, freq_set word freq) [] words).
  assert (Hkws : kws = (take 10 (sort_by_count freq)).*1) by done.
  assert (Hkeys : freq.*1 = Set_of words).
  { unfold freq. by rewrite foldl_freq_set_keys. }
  assert (Hperm : (sort_by_count freq).*1 ≡ₚ Set_of words).
  { rewrite <- Hkeys. by rewrite sort_by_count_perm. }
  assert (Hcount : ∀ k n, (k, n) ∈ sort_by_count freq →
                          n = occurrences k words).
  { intros k n Hin. rewrite sort_by_count_perm in Hin.
    destruct (foldl_freq_set_counts words [] k n) as (n0 & Hn0 & ->);
      [apply NoDup_nil_2|done|].
    destruct Hn0 as [Hn0|[_ ->]]; [by apply elem_of_nil in Hn0|done]. }
  assert (Hsub : ∀ w, w ∈ kws → w ∈ words).
  { intros w Hw. rewrite Hkws in Hw.
    apply list_elem_of_fmap in Hw as (e & -> & He).
    apply elem_of_take in He as (i & He & _).
    apply list_elem_of_lookup_2 in He.
    apply Set_of_elem_of. rewrite <- Hperm.
    apply list_elem_of_fmap. by exists e. }
  split; [|split; [|split; [|split]]].
  - rewrite Hkws, length_fmap, length_take. lia.
  - rewrite Hkws, fmap_take.
    eapply sublist_NoDup; [|apply sublist_take].
    rewrite Hperm. apply Set_of_NoDup.
  - intros w Hw. apply Hsub in Hw as Hin. split; [done|].
    unfold words in Hin. apply list_elem_of_filter in Hin as [Hstop Hin].
    split; [done|].
    apply match_all_sound in Hin as (prev & rest & Hm).
    apply word_pattern_match in Hm as [Hlen Hlow].
    split; [by rewrite len_chars|done].
  - intros i j w v Hij Hi Hj. rewrite Hkws in Hi, Hj.
    rewrite list_lookup_fmap in Hi, Hj.
    destruct (take 10 (sort_by_count freq) !! i) as [[w' n]|] eqn:Ei; [|done].
    destruct (take 10 (sort_by_count freq) !! j) as [[v' n']|] eqn:Ej; [|done].
    cbn in Hi, Hj. injection Hi as ->. injection Hj as ->.
    apply lookup_take_Some in Ei as [Ei _], Ej as [Ej _].
    pose proof (count_descending_lookup _ i j _ _
                  (sort_by_count_descending freq) Hij Ei Ej) as Hle.
    cbn in Hle.
    apply list_elem_of_lookup_2 in Ei, Ej.
    by rewrite <- (Hcount w n Ei), <- (Hcount v n' Ej).
  - intros Hlen w Hw. rewrite Hkws.
    rewrite take_ge.
    + rewrite Hperm. by apply Set_of_elem_of.
    + rewrite <- (length_fmap fst), Hperm. done.
Qed.

End OrchestratorKeywords.


(** ** Eviction candidates and topic affinity *)

Section EvictionCandidates.
Import BridgeBlocks Eviction.

Lemma insert_candidate_perm x l : insert_candidate x l ≡ₚ x :: l.
Proof.
  induction l as [|y l IH]; [done|]. cbn [insert_candidate].
  destruct (c_timestamp x <=? c_timestamp y)%Z; [done|].
  rewrite IH. apply Permutation_swap.
Qed.

Lemma sort_candidates_perm l : sort_candidates l ≡ₚ l.
Proof.
  unfold sort_candidates. induction l as [|x l IH]; [done|].
  cbn [foldr]. by rewrite insert_candidate_perm, IH.
Qed.

Lemma insert_candidate_oldest_first x l :
  oldest_first l → oldest_first (insert_candidate x l).
Proof.
  induction l as [|y l IH]; intros Hs; [by split|].
  destruct Hs as [Hy Hs]. cbn [insert_candidate].
  destruct (c_timestamp x <=? c_timestamp y)%Z eqn:Hle.
  - apply Z.leb_le in Hle. split; [|by split].
    apply Forall_cons. split; [done|].
    eapply Forall_impl; [exact Hy|]. cbn. intros z Hz. lia.
  - apply Z.leb_gt in Hle. split; [|by apply IH].
    rewrite insert_candidate_perm. apply Forall_cons. split; [lia|done].
Qed.

Lemma sort_candidates_oldest_first l : oldest_first (sort_candidates l).
Proof.
  unfold sort_candidates. induction l as [|x l IH]; [done|].
  cbn [foldr]. by apply insert_candidate_oldest_first.
Qed.

Lemma oldest_first_app l1 l2 a b :
  oldest_first (l1 ++ l2) → a ∈ l1 → b ∈ l2 →
  (c_timestamp a ≤ c_timestamp b)%Z.
Proof.
  induction l1 as [|x l1 IH]; intros Hs Ha Hb;
    [by apply elem_of_nil in Ha|].
  destruct Hs as [Hx Hs]. apply elem_of_cons in Ha as [->|Ha].
  - rewrite Forall_forall in Hx. apply Hx. apply elem_of_app. by right.
  - by apply IH.
Qed.

Lemma tokens_of_app l1 l2 :
  tokens_of (l1 ++ l2) = tokens_of l1 + tokens_of l2.
Proof.
  unfold tokens_of. induction l1 as [|x l1 IH]; [done|].
  cbn. rewrite <- Nat.add_assoc. f_equal. exact IH.
Qed.

Lemma tokens_of_perm l1 l2 : l1 ≡ₚ l2 → tokens_of l1 = tokens_of l2.
Proof.
  unfold tokens_of. induction 1; cbn; lia.
Qed.

Lemma tokens_of_take_drop n l :
  tokens_of l = tokens_of (take n l) + tokens_of (drop n l).
Proof. by rewrite <- tokens_of_app, take_drop. Qed.

Lemma tokens_of_take_mono n m l :
  n ≤ m → tokens_of (take n l) ≤ tokens_of (take m l).
Proof.
  intros Hnm. rewrite (tokens_of_take_drop n (take m l)).
  rewrite take_take, Nat.min_l by done. lia.
Qed.

Lemma token_loop_spec tokenExcess l :
  ∀ c e, ∃ k,
    token_loop tokenExcess c e l = c + k ∧ k ≤ length l ∧
    (k = length l ∨
     (tokenExcess ≤ e + Z.of_nat (tokens_of (take k l)))%Z) ∧
    (0 < k → (e + Z.of_nat (tokens_of (take (k - 1) l)) < tokenExcess)%Z).
Proof.
  induction l as [|t l IH]; intros c e.
  - exists 0. cbn. split; [lia|]. split; [lia|]. split; [by left|lia].
  - cbn [token_loop]. destruct (e <? tokenExcess)%Z eqn:Hlt.
    + apply Z.ltb_lt in Hlt.
      destruct (IH (S c) (e + Z.of_nat (c_tokenEstimate t))%Z)
        as (k & Hk & Hlen & Hstop & Hmin).
      exists (S k). split; [lia|]. split; [cbn; lia|]. split.
      * destruct Hstop as [->|Hstop]; [by left|right].
        cbn [take]. change (t :: take k l) with ([t] ++ take k l).
        rewrite tokens_of_app. unfold tokens_of at 1. cbn. lia.
      * intros _. cbn [Nat.sub]. rewrite Nat.sub_0_r.
        destruct k as [|k]; [cbn; lia|].
        specialize (Hmin ltac:(lia)). cbn [Nat.sub] in Hmin.
        rewrite Nat.sub_0_r in Hmin.
        cbn [take]. change (t :: take k l) with ([t] ++ take k l).
        rewrite tokens_of_app. unfold tokens_of at 1. cbn. lia.
    + apply Z.ltb_ge in Hlt. exists 0. split; [lia|]. split; [lia|].
      split; [right; cbn; lia|lia].
Qed.

(** Property X17.  [getSpaceEvictionCandidates] reports the number of turns
    of the day and the sum of their token estimates.  It asks for
    eviction exactly when the day has more than [maxTurns] turns or more
    than 5000 tokens.  Its candidates are a prefix of the turns in order
    of ascending timestamp, so no kept turn is older than a candidate;
    without the candidates the day is within both bounds; and the prefix
    is the shortest such: with one candidate fewer a bound is exceeded. *)
Theorem getSpaceEvictionCandidates_restores_bounds (day : string)
    (a_maxTurns : option Z) (d : db) :
  let r := getSpaceEvictionCandidates day a_maxTurns d in
  let maxTurns := default 30%Z a_maxTurns in
  let allTurns := sort_candidates (collect_candidates day d) in
  let n := length (candidates r) in
  currentTurnCount r = length allTurns ∧
  currentTokenEstimate r = tokens_of allTurns ∧
  (needsEviction r = false ↔
   (Z.of_nat (length allTurns) ≤ maxTurns)%Z ∧ tokens_of allTurns ≤ 5000) ∧
  (needsEviction r = false → candidates r = []) ∧
  candidates r = take n allTurns ∧
  (∀ c k, c ∈ candidates r → k ∈ drop n allTurns →
          (c_timestamp c ≤ c_timestamp k)%Z) ∧
  (Z.of_nat (length (drop n allTurns)) ≤ Z.max 0 maxTurns)%Z ∧
  tokens_of (drop n allTurns) ≤ 5000 ∧
  (0 < n →
   (maxTurns < Z.of_nat (length (drop (n - 1) allTurns)))%Z ∨
   5000 < tokens_of (drop (n - 1) allTurns)).
Proof.
  cbn zeta. unfold getSpaceEvictionCandidates.
  set (maxTurns := default (Z.of_nat MAX_TIER2_TURNS) a_maxTurns).
  assert (default 30%Z a_maxTurns = maxTurns) as -> by done.
  set (collected := collect_candidates day d).
  set (allTurns := sort_candidates collected).
  assert (Htot : tokens_of collected = tokens_of allTurns)
    by (symmetry; apply tokens_of_perm, sort_candidates_perm).
  rewrite Htot. cbn [needsEviction currentTurnCount currentTokenEstimate
                     candidates].
  set (len := length allTurns). set (total := tokens_of allTurns).
  assert (H5000 : MAX_TIER2_TOKENS = Z.to_nat 5000) by done.
  assert (Hneeds : ((maxTurns <? Z.of_nat len)%Z
                    || (MAX_TIER2_TOKENS <? total)) = false ↔
                   (Z.of_nat len ≤ maxTurns)%Z ∧ total ≤ Z.to_nat 5000).
  { rewrite orb_false_iff, Z.ltb_ge, Nat.ltb_ge, H5000. done. }
  assert (H5 : Z.to_nat 5000 = 5000) by (apply Nat2Z.inj; by rewrite Z2Nat.id).
  split; [done|]. split; [done|].
  split; [by rewrite Hneeds, H5|].
  split; [by intros ->|].
  destruct ((maxTurns <? Z.of_nat len)%Z || (MAX_TIER2_TOKENS <? total))
    eqn:Hn.
  - (* eviction is needed *)
    set (tokenExcess := (Z.of_nat total - Z.of_nat MAX_TIER2_TOKENS)%Z).
    destruct (token_loop_spec tokenExcess allTurns 0 0%Z)
      as (k & Hk & Hklen & Hstop & Hmin).
    rewrite Hk, Nat.add_0_l.
    set (count := Z.to_nat (Z.max (Z.max 0 (Z.of_nat len - maxTurns))
                                  (Z.of_nat k))).
    assert (Hlenc : length (take count allTurns) = Nat.min count len)
      by apply length_take.
    rewrite Hlenc.
    assert (Htake : take (Nat.min count len) allTurns = take count allTurns).
    { destruct (decide (count ≤ len)) as [Hle|Hgt].
      - by rewrite Nat.min_l.
      - rewrite Nat.min_r by lia. rewrite !take_ge; [done|fold len; lia|done]. }
    split; [done|].
    split.
    { intros c x Hc Hx.
      apply (oldest_first_app (take (Nat.min count len) allTurns)
               (drop (Nat.min count len) allTurns)); [|by rewrite Htake|done].
      rewrite take_drop. apply sort_candidates_oldest_first. }
    assert (Htk : ∀ j, Z.of_nat total =
              (Z.of_nat (tokens_of (take j allTurns))
               + Z.of_nat (tokens_of (drop j allTurns)))%Z).
    { intros j. unfold total. rewrite (tokens_of_take_drop j allTurns). lia. }
    assert (Hmono : tokens_of (take k allTurns)
                    ≤ tokens_of (take (Nat.min count len) allTurns)).
    { apply tokens_of_take_mono. unfold count. lia. }
    assert (HE : tokenExcess = (Z.of_nat total - 5000)%Z).
    { unfold tokenExcess. rewrite H5000, Z2Nat.id; lia. }
    split; [rewrite length_drop; fold len; unfold count; lia|].
    split.
    { pose proof (Htk (Nat.min count len)) as H1.
      destruct Hstop as [->|Hstop].
      - assert (Nat.min count len = len) as -> by (unfold count; lia).
        rewrite drop_ge by (unfold len; lia). unfold tokens_of. cbn. lia.
      - lia. }
    intros Hpos.
    destruct (decide (Z.of_nat k ≤ Z.max 0 (Z.of_nat len - maxTurns))%Z)
      as [Hturn|Htok].
    + left. rewrite length_drop. fold len. unfold count in *. lia.
    + right. assert (Nat.min count len = k) as -> by (unfold count; lia).
      specialize (Hmin ltac:(lia)). pose proof (Htk (k - 1)) as H1. lia.
  - (* no eviction *)
    apply orb_false_iff in Hn as [Hl Ht].
    apply Z.ltb_ge in Hl. apply Nat.ltb_ge in Ht. rewrite H5000, H5 in Ht.
    cbn [length take drop].
    split; [done|]. split.
    { intros c x Hc. by apply elem_of_nil in Hc. }
    rewrite drop_0. fold len total.
    split; [lia|]. split; [done|]. lia.
Qed.

End EvictionCandidates.

Section TimeCandidates.
Import BridgeBlocks Eviction.

Local Notation "'threshold'" := (TIME_THRESHOLD_HOURS * 60 * 60 * 1000)%Z.

Lemma time_inner_agree now (blk : nat * block) ts :
  ∀ (acc : list string * list affinity) (cands : list timeCandidate),
    acc.1 = tc_turnId <$> cands →
    (foldl (λ (acc : list string * list affinity) (t : turn),
             if (threshold <? now - timestamp t)%Z
             then (acc.1 ++ [turnId t],
                   updateTopicAffinityInternal
                     (topicLabel blk.2) (timestamp t) now acc.2)
             else acc) acc ts).1
    = tc_turnId <$> foldl (λ (candidates : list timeCandidate) (t : turn),
             let age := (now - timestamp t)%Z in
             if (threshold <? age)%Z
             then candidates ++
                    [mkTimeCandidate (turnId t) blk.1 (timestamp t)
                       (inject_Z age / inject_Z (60 * 60 * 1000))]
             else candidates) cands ts.
Proof.
  induction ts as [|t ts IH]; intros acc cands Hacc; [done|].
  cbn [foldl]. apply IH.
  destruct (threshold <? now - timestamp t)%Z; [|done].
  cbn [fst]. by rewrite fmap_app, Hacc.
Qed.

Lemma time_outer_agree now (turns0 : list turn) blocks :
  ∀ (acc : list string * list affinity) (cands : list timeCandidate),
    acc.1 = tc_turnId <$> cands →
    (foldl (λ acc (blk : nat * block), foldl (λ (acc : list string * list affinity) (t : turn),
             if (threshold <? now - timestamp t)%Z
             then (acc.1 ++ [turnId t],
                   updateTopicAffinityInternal
                     (topicLabel blk.2) (timestamp t) now acc.2)
             else acc) acc
                             (turns_by_block blk.1 turns0)) acc blocks).1
    = tc_turnId <$>
        foldl (λ cands (blk : nat * block), foldl (λ (candidates : list timeCandidate) (t : turn),
             let age := (now - timestamp t)%Z in
             if (threshold <? age)%Z
             then candidates ++
                    [mkTimeCandidate (turnId t) blk.1 (timestamp t)
                       (inject_Z age / inject_Z (60 * 60 * 1000))]
             else candidates) cands
                                   (turns_by_block blk.1 turns0))
              cands blocks.
Proof.
  induction blocks as [|blk blocks IH]; intros acc cands Hacc; [done|].
  cbn [foldl]. apply IH. by apply time_inner_agree.
Qed.

Lemma time_inner_elem now (blk : nat * block) ts c :
  ∀ cands,
    c ∈ foldl (λ (candidates : list timeCandidate) (t : turn),
             let age := (now - timestamp t)%Z in
             if (threshold <? age)%Z
             then candidates ++
                    [mkTimeCandidate (turnId t) blk.1 (timestamp t)
                       (inject_Z age / inject_Z (60 * 60 * 1000))]
             else candidates) cands ts ↔
    c ∈ cands ∨
    ∃ t, t ∈ ts ∧ (threshold < now - timestamp t)%Z ∧
         c = mkTimeCandidate (turnId t) blk.1 (timestamp t)
               (inject_Z (now - timestamp t) / inject_Z (60 * 60 * 1000)).
Proof.
  induction ts as [|t ts IH]; intros cands.
  - cbn. split; [by left|]. intros [H|(t & Ht & _)]; [done|].
    by apply elem_of_nil in Ht.
  - cbn [foldl]. rewrite IH. cbn zeta.
    destruct (threshold <? now - timestamp t)%Z eqn:Hold.
    + apply Z.ltb_lt in Hold. rewrite elem_of_app, list_elem_of_singleton.
      split.
      * intros [[H| ->]|(t' & Ht' & Hrest)]; [by left| |].
        -- right. exists t. split; [left|done].
        -- right. exists t'. split; [by right|done].
      * intros [H|(t' & Ht' & Hold' & ->)]; [by left; left|].
        apply elem_of_cons in Ht' as [->|Ht']; [by left; right|].
        right. by exists t'.
    + apply Z.ltb_ge in Hold. split.
      * intros [H|(t' & Ht' & Hrest)]; [by left|].
        right. exists t'. split; [by right|done].
      * intros [H|(t' & Ht' & Hold' & ->)]; [by left|].
        apply elem_of_cons in Ht' as [->|Ht']; [lia|].
        right. by exists t'.
Qed.

Lemma time_outer_elem now (turns0 : list turn) blocks c :
  ∀ cands,
    c ∈ foldl (λ cands (blk : nat * block), foldl (λ (candidates : list timeCandidate) (t : turn),
             let age := (now - timestamp t)%Z in
             if (threshold <? age)%Z
             then candidates ++
                    [mkTimeCandidate (turnId t) blk.1 (timestamp t)
                       (inject_Z age / inject_Z (60 * 60 * 1000))]
             else candidates) cands
                                   (turns_by_block blk.1 turns0))
              cands blocks ↔
    c ∈ cands ∨
    ∃ blk t, blk ∈ blocks ∧ t ∈ turns_by_block blk.1 turns0 ∧
         (threshold < now - timestamp t)%Z ∧
         c = mkTimeCandidate (turnId t) blk.1 (timestamp t)
               (inject_Z (now - timestamp t) / inject_Z (60 * 60 * 1000)).
Proof.
  induction blocks as [|blk blocks IH]; intros cands.
  - cbn. split; [by left|]. intros [H|(b & t & Hb & _)]; [done|].
    by apply elem_of_nil in Hb.
  - cbn [foldl]. rewrite IH, time_inner_elem. split.
    + intros [[H|(t & Ht)]|(b & t & Hb & Hrest)]; [by left| |].
      * right. exists blk, t. split; [left|done].
      * right. exists b, t. split; [by right|done].
    + intros [H|(b & t & Hb & Hrest)]; [by left; left|].
      apply elem_of_cons in Hb as [->|Hb].
      * left. right. by exists t.
      * right. by exists b, t.
Qed.

Lemma getTimeEvictionCandidates_elem now day d c :
  c ∈ getTimeEvictionCandidates now day d ↔
  ∃ b t, bridgeBlocks d !! tc_blockId c = Some b ∧ dayId b = day ∧
         t ∈ turns d ∧ t_blockId t = tc_blockId c ∧
         (86400000 < now - timestamp t)%Z ∧
         c = mkTimeCandidate (turnId t) (t_blockId t) (timestamp t)
               (inject_Z (now - timestamp t) / inject_Z 3600000).
Proof.
  unfold getTimeEvictionCandidates. rewrite time_outer_elem.
  change (threshold) with 86400000%Z. change (60 * 60 * 1000)%Z with 3600000%Z.
  split.
  - intros [H|([i b] & t & Hb & Ht & Hold & ->)];
      [by apply elem_of_nil in H|].
    apply elem_of_by_day in Hb as [Hi Hday].
    apply list_elem_of_filter in Ht as [Hblk Ht]. cbn in *.
    exists b, t. by rewrite Hblk.
  - intros (b & t & Hi & Hday & Ht & Hblk & Hold & ->). right.
    cbn in Hi. exists (t_blockId t, b), t. cbn.
    split; [by apply elem_of_by_day|].
    split; [by apply list_elem_of_filter|done].
Qed.

(** Property X18.  [getTimeEvictionCandidates] and the time pass of the
    eviction agree: the pass reports exactly the turn ids of the
    candidates, in the same order.  A turn of the day is a candidate
    exactly when it is more than 24 hours old (a turn of exactly 24 hours
    is not), and [hoursOld] is then above 24.  The pass leaves the turn
    where it is, so a later pass reports it again. *)
Theorem time_candidates_match_eviction (now : Z) (day : string)
    (s : state) :
  let d := st_db s in
  let cs := getTimeEvictionCandidates now day d in
  let r := evictByTimeInternal now day s in
  evictedTurnIds r.1 = tc_turnId <$> cs ∧
  evictedCount r.1 = length cs ∧
  (∀ c, c ∈ cs ↔
     ∃ b t, bridgeBlocks d !! tc_blockId c = Some b ∧ dayId b = day ∧
            t ∈ turns d ∧ t_blockId t = tc_blockId c ∧
            (86400000 < now - timestamp t)%Z ∧
            c = mkTimeCandidate (turnId t) (t_blockId t) (timestamp t)
                  (inject_Z (now - timestamp t) / inject_Z 3600000)) ∧
  (∀ c, c ∈ cs → (24 < hoursOld c)%Q) ∧
  (∀ now' id, (now ≤ now')%Z → id ∈ evictedTurnIds r.1 →
              id ∈ evictedTurnIds (evictByTimeInternal now' day r.2).1).
Proof.
  cbn zeta.
  assert (Hids : ∀ now s,
    evictedTurnIds (evictByTimeInternal now day s).1 =
    tc_turnId <$> getTimeEvictionCandidates now day (st_db s) ∧
    evictedCount (evictByTimeInternal now day s).1 =
    length (getTimeEvictionCandidates now day (st_db s))).
  { clear. intros now s. unfold evictByTimeInternal, getTimeEvictionCandidates.
    pose proof (time_outer_agree now (turns (st_db s))
                  (Eviction.by_day day (bridgeBlocks (st_db s)))
                  ([], topicAffinity s) [] eq_refl) as Hag.
    destruct (foldl _ ([], topicAffinity s) _) as [ids ta].
    cbn [fst snd evictedTurnIds evictedCount] in *.
    split; [exact Hag|]. rewrite Hag. by rewrite length_fmap. }
  destruct (Hids now s) as [Hid Hcount].
  split; [done|]. split; [done|].
  split; [apply getTimeEvictionCandidates_elem|]. split.
  - intros c Hc. apply getTimeEvictionCandidates_elem in Hc
      as (b & t & _ & _ & _ & _ & Hold & ->).
    cbn [hoursOld]. apply Qlt_shift_div_l; [done|].
    unfold Qlt. cbn. lia.
  - intros now' id Hle Hin.
    destruct (Hids now' (evictByTimeInternal now day s).2) as [Hid' _].
    rewrite Hid', evictByTimeInternal_db. rewrite Hid in Hin.
    apply list_elem_of_fmap in Hin as (c & -> & Hc).
    apply getTimeEvictionCandidates_elem in Hc
      as (b & t & Hb & Hday & Ht & Hblk & Hold & ->).
    apply list_elem_of_fmap.
    exists (mkTimeCandidate (turnId t) (t_blockId t) (timestamp t)
              (inject_Z (now' - timestamp t) / inject_Z 3600000)).
    split; [done|]. apply getTimeEvictionCandidates_elem.
    exists b, t. cbn in *. repeat split; try done. lia.
Qed.

End TimeCandidates.

Section TopicAffinity.
Import Eviction.

Lemma first_by_topic_Some t ta id a :
  first_by_topic t ta = Some (id, a) → ta !! id = Some a ∧ topic a = t.
Proof.
  unfold first_by_topic. intros Hh. apply head_Some_elem_of in Hh.
  apply list_elem_of_filter in Hh as [Ht Hin].
  by apply elem_of_imap_pair in Hin.
Qed.

Lemma first_by_topic_None t ta a :
  first_by_topic t ta = None → a ∈ ta → topic a ≠ t.
Proof.
  unfold first_by_topic. intros Hh Ha Ht. apply head_None in Hh.
  apply list_elem_of_lookup in Ha as [i Hi].
  assert (Hin : (i, a) ∈ filter (λ p : nat * affinity, topic p.2 = t)
                             (imap (λ i a, (i, a)) ta)).
  { apply list_elem_of_filter. split; [done|]. by apply elem_of_imap_pair. }
  rewrite Hh in Hin. by apply elem_of_nil in Hin.
Qed.

(** Property X19.  The [topicAffinity] table, filled by the eviction passes
    through [updateTopicAffinityInternal] alone, holds one row per
    lower-cased topic label.  The row's [evictionCount] is the number of
    evictions recorded for that label, its [totalTimeInWindow] the sum of
    their times in the window, and [avgTimeInWindow] their quotient. *)
Theorem topicAffinity_one_row_per_topic (us : list (string * Z * Z)) :
  let ta := foldl (λ ta u, updateTopicAffinityInternal u.1.1 u.1.2 u.2 ta)
                  [] us in
  NoDup (topic <$> ta) ∧
  (∀ u, u ∈ us → Js.toLowerCase u.1.1 ∈ topic <$> ta) ∧
  (∀ a, a ∈ ta →
     let mine := filter (λ u, Js.toLowerCase u.1.1 = topic a) us in
     mine ≠ [] ∧
     evictionCount a = Z.of_nat (length mine) ∧
     totalTimeInWindow a = foldr Z.add 0%Z ((λ u, u.2 - u.1.2)%Z <$> mine) ∧
     avgTimeInWindow a ==
       inject_Z (totalTimeInWindow a) / inject_Z (evictionCount a)).
Proof.
  induction us as [|u us IH] using rev_ind.
  - cbn. split; [apply NoDup_nil_2|]. split.
    + intros u Hu. by apply elem_of_nil in Hu.
    + intros a Ha. by apply elem_of_nil in Ha.
  - cbn zeta in *. rewrite foldl_app. cbn [foldl].
    set (ta := foldl _ [] us) in *.
    destruct IH as (Hnd & Hcover & Hrows).
    destruct u as [[label added] evictedAt]. cbn [fst snd].
    set (tl := Js.toLowerCase label).
    assert (Hsum : ∀ (l : list (string * Z * Z)) x,
              foldr Z.add 0%Z ((λ u, u.2 - u.1.2)%Z <$> (l ++ [x]))
              = (foldr Z.add 0%Z ((λ u, u.2 - u.1.2)%Z <$> l)
                 + (x.2 - x.1.2))%Z).
    { clear. intros l x. induction l as [|y l IH]; cbn; [lia|].
      rewrite IH. lia. }
    unfold updateTopicAffinityInternal. fold tl.
    destruct (first_by_topic tl ta) as [[id existing]|] eqn:Hfirst.
    + (* the topic has a row *)
      apply first_by_topic_Some in Hfirst as [Hid Htopic].
      set (f := λ a : affinity, mkAffinity (topic a) _ _ _).
      assert (Htopics : topic <$> alter f id ta = topic <$> ta).
      { clear -f. revert id. induction ta as [|a ta IH]; intros [|i]; cbn;
          try done. f_equal. apply IH. }
      rewrite Htopics. split; [done|]. split.
      * intros u Hu. apply elem_of_app in Hu as [Hu|Hu]; [by apply Hcover|].
        apply list_elem_of_singleton in Hu as ->. cbn [fst snd]. fold tl.
        rewrite <- Htopic. apply list_elem_of_fmap. exists existing.
        split; [done|]. by apply list_elem_of_lookup_2 in Hid.
      * intros a Ha. apply list_elem_of_lookup in Ha as [j Hj].
        rewrite filter_app, filter_cons, filter_nil. cbn [fst snd]. fold tl.
        destruct (decide (j = id)) as [->|Hne].
        -- rewrite list_lookup_alter, Hid, decide_True in Hj by done.
           cbn in Hj. injection Hj as <-.
           assert (Hex : existing ∈ ta) by by apply list_elem_of_lookup_2 in Hid.
           destruct (Hrows existing Hex) as (Hne & Hc & Ht & _).
           unfold f. cbn [topic evictionCount totalTimeInWindow avgTimeInWindow].
           rewrite decide_True by done.
           split; [by destruct (filter _ us)|].
           split; [rewrite length_app, Hc; cbn; lia|].
           split; [rewrite Hsum, Ht; done|]. reflexivity.
        -- rewrite list_lookup_alter_ne in Hj by done.
           assert (Ha : a ∈ ta) by by apply list_elem_of_lookup_2 in Hj.
           assert (Htl : tl ≠ topic a).
           { intros Heq. apply Hne.
             apply (NoDup_lookup (topic <$> ta) j id tl Hnd).
             - rewrite list_lookup_fmap, Hj. cbn. by rewrite Heq.
             - rewrite list_lookup_fmap, Hid. cbn. by rewrite Htopic. }
           rewrite decide_False, app_nil_r by done. by apply Hrows.
    + (* a new topic *)
      rewrite fmap_app. cbn [fmap list_fmap].
      assert (Hfresh : tl ∉ topic <$> ta).
      { intros Hin. apply list_elem_of_fmap in Hin as (a & Heq & Ha).
        by apply (first_by_topic_None tl ta a). }
      split.
      { apply NoDup_app. split; [done|]. split; [|apply NoDup_singleton].
        intros x Hx Hx'. apply list_elem_of_singleton in Hx'. by subst. }
      split.
      * intros u Hu. apply elem_of_app. apply elem_of_app in Hu as [Hu|Hu].
        -- left. by apply Hcover.
        -- right. apply list_elem_of_singleton in Hu as ->. cbn [fst snd]. left.
      * intros a Ha. rewrite filter_app, filter_cons, filter_nil.
        cbn [fst snd]. fold tl.
        apply elem_of_app in Ha as [Ha|Ha].
        -- assert (Htl : tl ≠ topic a).
           { intros Heq. apply Hfresh. rewrite Heq.
             apply list_elem_of_fmap. by exists a. }
           rewrite decide_False, app_nil_r by done. by apply Hrows.
        -- apply list_elem_of_singleton in Ha as ->.
           cbn [topic evictionCount totalTimeInWindow avgTimeInWindow].
           rewrite decide_True by done.
           assert (Hnone : filter (λ u : string * Z * Z,
                              Js.toLowerCase u.1.1 = tl) us = []).
           { destruct (filter _ us) as [|x l] eqn:E; [done|]. exfalso.
             assert (Hx : x ∈ filter (λ u : string * Z * Z,
                              Js.toLowerCase u.1.1 = tl) us)
               by (rewrite E; left).
             apply list_elem_of_filter in Hx as [Hx Hin].
             apply Hfresh. rewrite <- Hx. by apply Hcover. }
           rewrite Hnone. cbn. split; [done|]. split; [done|].
           split; [lia|]. unfold Qeq. cbn. lia.
Qed.

End TopicAffinity.


(** ** Cosine similarity and the embedding distance *)

Section CosineRange.
Import Cosine.
Local Open Scope R_scope.

Lemma cosineSimilarity_cases (v1 v2 : list R) :
  length v1 = length v2 →
  cosineSimilarity v1 v2 =
  if Req_dec_T (norm_sq v1) 0 then 0
  else if Req_dec_T (norm_sq v2) 0 then 0
  else dot v1 v2 / (sqrt (norm_sq v1) * sqrt (norm_sq v2)).
Proof.
  intros Hlen. unfold cosineSimilarity.
  rewrite Hlen, Nat.eqb_refl. cbn [negb].
  rewrite loop_spec by done. cbn [dotProduct norm1 norm2].
  rewrite !Rplus_0_l. done.
Qed.

Lemma dot_comm (v w : list R) : dot v w = dot w v.
Proof.
  revert w. induction v as [|x v IH]; intros [|y w]; cbn; try done.
  rewrite IH. lra.
Qed.

(** The inequality of Cauchy and Schwarz. *)
Lemma dot_sq_le (v w : list R) :
  dot v w * dot v w <= norm_sq v * norm_sq w.
Proof.
  revert w. induction v as [|x v IH]; intros w.
  - pose proof (norm_sq_nonneg w). unfold norm_sq in *. cbn. lra.
  - destruct w as [|y w].
    + pose proof (norm_sq_nonneg (x :: v)). unfold norm_sq in *.
      cbn in *. lra.
    + specialize (IH w).
      pose proof (norm_sq_nonneg v) as HA.
      pose proof (norm_sq_nonneg w) as HB.
      unfold norm_sq in *. cbn [dot].
      set (d := dot v w) in *. set (A := dot v v) in *.
      set (B := dot w w) in *.
      assert (Hmix : 2 * (x * y * d) <= x * x * B + A * (y * y)).
      { destruct (Req_dec A 0) as [HA0|HA0].
        - assert (d = 0) by nra. subst d. nra.
        - assert (0 < A) by lra.
          pose proof (Rle_0_sqr (x * d - A * y)) as Hsq.
          unfold Rsqr in Hsq.
          assert (0 <= A * (x * x * B + A * (y * y) - 2 * (x * y * d)))
            by nra.
          nra. }
      nra.
Qed.

Lemma cosine_bounds (d A B : R) :
  0 < A → 0 < B → d * d <= A * B →
  -1 <= d / (sqrt A * sqrt B) <= 1.
Proof.
  intros HA HB Hd.
  pose proof (sqrt_lt_R0 A HA) as HsA.
  pose proof (sqrt_lt_R0 B HB) as HsB.
  pose proof (sqrt_sqrt A ltac:(lra)) as HAA.
  pose proof (sqrt_sqrt B ltac:(lra)) as HBB.
  set (s := sqrt A * sqrt B).
  assert (Hs : 0 < s) by (unfold s; nra).
  assert (Hss : s * s = A * B) by (unfold s; nra).
  assert (Habs : - s <= d <= s) by nra.
  split.
  - apply Rmult_le_reg_r with s; [done|].
    unfold Rdiv. rewrite Rmult_assoc, Rinv_l by lra. lra.
  - apply Rmult_le_reg_r with s; [done|].
    unfold Rdiv. rewrite Rmult_assoc, Rinv_l by lra. lra.
Qed.

Lemma cosineSimilarity_range (v w : list R) :
  -1 <= cosineSimilarity v w <= 1.
Proof.
  destruct (decide (length v = length w)) as [Hlen|Hlen].
  - rewrite cosineSimilarity_cases by done.
    destruct (Req_dec_T (norm_sq v) 0) as [|Hv]; [lra|].
    destruct (Req_dec_T (norm_sq w) 0) as [|Hw]; [lra|].
    pose proof (norm_sq_nonneg v). pose proof (norm_sq_nonneg w).
    apply cosine_bounds; [lra|lra|apply dot_sq_le].
  - unfold cosineSimilarity. apply Nat.eqb_neq in Hlen. rewrite Hlen.
    cbn. lra.
Qed.

(** Property X20.  Over the real numbers [cosineSimilarity] is symmetric,
    its value lies between -1 and 1 for every pair of vectors, and the
    similarity of a vector with itself is 1, or 0 when all its components
    are 0. *)
Theorem cosineSimilarity_symmetric_bounded (v w : list R) :
  cosineSimilarity v w = cosineSimilarity w v ∧
  -1 <= cosineSimilarity v w <= 1 ∧
  cosineSimilarity v v = (if Req_dec_T (norm_sq v) 0 then 0 else 1).
Proof.
  split; [|split; [apply cosineSimilarity_range|]].
  - destruct (decide (length v = length w)) as [Hlen|Hlen].
    + rewrite (cosineSimilarity_cases v w), (cosineSimilarity_cases w v)
        by done.
      destruct (Req_dec_T (norm_sq v) 0), (Req_dec_T (norm_sq w) 0);
        try done.
      rewrite (dot_comm v w). f_equal. lra.
    + unfold cosineSimilarity. apply Nat.eqb_neq in Hlen as Hvw.
      assert (Hwv : (length w =? length v)%nat = false)
        by (apply Nat.eqb_neq; congruence).
      by rewrite Hvw, Hwv.
  - rewrite cosineSimilarity_cases by done.
    destruct (Req_dec_T (norm_sq v) 0) as [|Hv]; [done|].
    pose proof (norm_sq_nonneg v) as Hn.
    rewrite sqrt_sqrt by done. unfold norm_sq. field. exact Hv.
Qed.

Lemma total_similarity_bounds (q : list R) (ctx : list (list R)) (t : R) :
  t - INR (length ctx)
  <= foldl (λ total contextEmb, total + cosineSimilarity q contextEmb) t ctx
  <= t + INR (length ctx).
Proof.
  revert t. induction ctx as [|c ctx IH]; intros t.
  - cbn. lra.
  - cbn [foldl length]. rewrite S_INR.
    pose proof (cosineSimilarity_range q c).
    specialize (IH (t + cosineSimilarity q c)). lra.
Qed.


End CosineRange.


(** ** Word distance of the compressor *)

Section WordDistance.
Import Js Compressor.

Lemma ratio_bounds (a b : nat) :
  a ≤ b → 0 < b →
  (0 <= 1 - inject_Z (Z.of_nat a) / inject_Z (Z.of_nat b) <= 1)%Q.
Proof.
  intros Hab Hb.
  assert (Hpos : (0 < inject_Z (Z.of_nat b))%Q).
  { unfold Qlt. cbn. lia. }
  assert (H0 : (0 <= inject_Z (Z.of_nat a) / inject_Z (Z.of_nat b))%Q).
  { apply Qle_shift_div_l; [done|]. unfold Qle. cbn. lia. }
  assert (H1 : (inject_Z (Z.of_nat a) / inject_Z (Z.of_nat b) <= 1)%Q).
  { apply Qle_shift_div_r; [done|]. unfold Qle. cbn. lia. }
  split; Lqa.lra.
Qed.

Lemma ratio_zero (a b : nat) :
  0 < b →
  (1 - inject_Z (Z.of_nat a) / inject_Z (Z.of_nat b) == 1)%Q ↔ a = 0.
Proof.
  intros Hb.
  assert (Hne : ¬ (inject_Z (Z.of_nat b) == 0)%Q).
  { unfold Qeq. cbn. lia. }
  split.
  - intros H.
    assert (Hq : (inject_Z (Z.of_nat a) / inject_Z (Z.of_nat b) == 0)%Q)
      by Lqa.lra.
    assert (Ha : (inject_Z (Z.of_nat a) == 0)%Q).
    { apply (Qeq_trans _ (inject_Z (Z.of_nat b)
                          * (inject_Z (Z.of_nat a) / inject_Z (Z.of_nat b)))).
      - symmetry. by apply Qmult_div_r.
      - rewrite Hq. apply Qmult_0_r. }
    unfold Qeq in Ha. cbn in Ha. lia.
  - intros ->. cbn [Z.of_nat]. unfold Qdiv. rewrite Qmult_0_l. Lqa.lra.
Qed.

Lemma ratio_one (b : nat) :
  0 < b → (1 - inject_Z (Z.of_nat b) / inject_Z (Z.of_nat b) == 0)%Q.
Proof.
  intros Hb.
  assert (Hne : ¬ (inject_Z (Z.of_nat b) == 0)%Q).
  { unfold Qeq. cbn. lia. }
  field. exact Hne.
Qed.

Lemma length_common (a b : list string) :
  length (Set_of (filter (λ x, x ∈ b) a)) =
  size ((list_to_set a : gset string) ∩ list_to_set b).
Proof.
  rewrite length_Set_of. f_equal. apply set_eq. intros x.
  rewrite elem_of_list_to_set, list_elem_of_filter, elem_of_intersection.
  rewrite !elem_of_list_to_set. tauto.
Qed.

Lemma length_all (a b : list string) :
  length (Set_of (a ++ b)) =
  size ((list_to_set a : gset string) ∪ list_to_set b).
Proof. by rewrite length_Set_of, list_to_set_app_L. Qed.

Lemma nonempty_length (l : list string) : l ≠ [] ↔ 0 < length l.
Proof. destruct l; cbn; split; (done || lia). Qed.

Lemma length_eqb_0 (l : list string) :
  (length l =? 0) = bool_decide (l = []).
Proof. by destruct l. Qed.

(** Property X22.  [calculateSimpleDistance] is 0.5 when a query has no
    word longer than three characters.  Otherwise it lies between 0 and
    1, it is symmetric, it is 0 for a query against itself, and it is 1
    exactly when the two queries share no such word. *)
Theorem calculateSimpleDistance_properties (query1 query2 : string) :
  (content_words query1 = [] ∨ content_words query2 = [] →
   calculateSimpleDistance query1 query2 = 0.5%Q) ∧
  (0 <= calculateSimpleDistance query1 query2 <= 1)%Q ∧
  calculateSimpleDistance query1 query2
    = calculateSimpleDistance query2 query1 ∧
  (content_words query1 ≠ [] →
   (calculateSimpleDistance query1 query1 == 0)%Q) ∧
  (content_words query1 ≠ [] → content_words query2 ≠ [] →
   ((calculateSimpleDistance query1 query2 == 1)%Q ↔
    ∀ w, w ∈ content_words query1 → w ∉ content_words query2)).
Proof.
  unfold calculateSimpleDistance.
  set (w1 := content_words query1). set (w2 := content_words query2).
  rewrite !length_eqb_0, !length_common, !length_all.
  set (s1 := list_to_set w1 : gset string).
  set (s2 := list_to_set w2 : gset string).
  assert (Hsub : size (s1 ∩ s2) ≤ size (s1 ∪ s2)).
  { apply subseteq_size. set_solver. }
  assert (Hpos : ∀ w : list string, w ≠ [] →
            0 < size (list_to_set w : gset string)).
  { intros w Hw. destruct w as [|x w]; [done|].
    apply Nat.neq_0_lt_0. intros H0. apply size_empty_iff in H0.
    assert (x ∈ (list_to_set (x :: w) : gset string)) by set_solver.
    set_solver. }
  assert (Hupos : w1 ≠ [] → 0 < size (s1 ∪ s2)).
  { intros Hw. specialize (Hpos w1 Hw). fold s1 in Hpos.
    assert (size s1 ≤ size (s1 ∪ s2)) by (apply subseteq_size; set_solver).
    lia. }
  split; [|split; [|split; [|split]]].
  - intros [-> | ->]; [done|]. rewrite orb_true_r. done.
  - case_bool_decide as H1; [cbn; Lqa.lra|].
    case_bool_decide as H2; [cbn; Lqa.lra|]. cbn [orb].
    apply ratio_bounds; [done|by apply Hupos].
  - rewrite orb_comm.
    by rewrite (comm_L (∩) s2 s1), (comm_L (∪) s2 s1).
  - intros Hne. rewrite bool_decide_eq_false_2 by done. cbn [orb].
    replace (s1 ∩ s1) with s1 by set_solver.
    replace (s1 ∪ s1) with s1 by set_solver.
    apply ratio_one. by apply Hpos.
  - intros H1 H2. rewrite !bool_decide_eq_false_2 by done. cbn [orb].
    rewrite ratio_zero by by apply Hupos.
    rewrite size_empty_iff. split.
    + intros Hemp w Hw Hw'.
      assert (w ∈ s1 ∩ s2) by (unfold s1, s2; set_solver).
      set_solver.
    + intros Hdis. apply set_equiv. intros w. split; [|set_solver].
      intros Hw. apply elem_of_intersection in Hw as [Ha Hb].
      unfold s1, s2 in *. rewrite elem_of_list_to_set in Ha, Hb.
      by destruct (Hdis w Ha).
Qed.

End WordDistance.


(** ** Context hydrator: truncation, budgets and the fact lookup *)

Section Truncation.
Import Hydrator.

Lemma len_slice0 n s : Js.len (Js.slice0 n s) = Nat.min n (Js.len s).
Proof.
  unfold Js.len, Js.slice0. revert n.
  induction s as [|c s IH]; intros [|n]; cbn; try done.
  by rewrite IH.
Qed.

Lemma ceil_div4_le (n m : nat) : n ≤ 4 * m → ceil_div4 n ≤ m.
Proof.
  intros H. unfold ceil_div4.
  assert ((n + 3) / 4 < S m); [|lia].
  apply Nat.Div0.div_lt_upper_bound. lia.
Qed.

Lemma ceil_div4_ge (n m : nat) : 4 * m < n + 4 → m ≤ ceil_div4 n.
Proof.
  intros H. unfold ceil_div4.
  apply Nat.div_le_lower_bound; lia.
Qed.

Lemma ceil_div4_pos (n : nat) : 0 < n → 0 < ceil_div4 n.
Proof. intros H. apply (ceil_div4_ge n 1). lia. Qed.

Lemma truncateToTokens_long (text : string) (maxTokens : Z) :
  (1 ≤ maxTokens)%Z → (4 * maxTokens < Z.of_nat (Js.len text))%Z →
  String.append (slice_to (4 * maxTokens - 3) text) "..."
  = String.append (Js.slice0 (Z.to_nat (4 * maxTokens - 3)) text) "..." ∧
  Z.of_nat (Js.len (String.append
              (slice_to (4 * maxTokens - 3) text) "...")) = (4 * maxTokens)%Z.
Proof.
  intros Hm Hlen. unfold slice_to.
  assert ((4 * maxTokens - 3 <? 0)%Z = false) as -> by lia.
  rewrite Z.min_l by lia. split; [done|].
  rewrite len_append, len_slice0. cbn [Js.len String.length]. lia.
Qed.

Lemma truncateToTokens_fits (text : string) (maxTokens : Z) :
  (1 ≤ maxTokens)%Z →
  (Z.of_nat (estimateTokens (truncateToTokens text maxTokens)) ≤ maxTokens)%Z.
Proof.
  intros Hm. unfold truncateToTokens.
  replace (maxTokens * 4)%Z with (4 * maxTokens)%Z by lia.
  destruct (Z.of_nat (Js.len text) <=? 4 * maxTokens)%Z eqn:Hfit.
  - apply Z.leb_le in Hfit. unfold estimateTokens.
    assert (ceil_div4 (Js.len text) ≤ Z.to_nat maxTokens)
      by (apply ceil_div4_le; lia).
    lia.
  - apply Z.leb_gt in Hfit.
    destruct (truncateToTokens_long text maxTokens Hm Hfit) as [_ Hl].
    unfold estimateTokens. set (k := Js.len (String.append _ _)) in *.
    assert (ceil_div4 k ≤ Z.to_nat maxTokens) by (apply ceil_div4_le; lia).
    lia.
Qed.

(** Property X23.  [truncateToTokens] returns the text itself when it fits
    into [4 * maxTokens] characters.  For a budget of at least one token
    a longer text is cut to exactly [4 * maxTokens] characters, the last
    three being dots, so the result is estimated at [maxTokens] tokens
    and the budget is always kept.  For a budget of zero or less the
    end index of the slice is negative and counts from the end of the
    text: a text that is not empty comes back with at least three
    characters, estimated above the budget. *)
Theorem truncateToTokens_budget (text : string) (maxTokens : Z) :
  let r := truncateToTokens text maxTokens in
  ((Z.of_nat (Js.len text) ≤ 4 * maxTokens)%Z → r = text) ∧
  ((1 ≤ maxTokens)%Z → (4 * maxTokens < Z.of_nat (Js.len text))%Z →
   r = String.append (Js.slice0 (Z.to_nat (4 * maxTokens - 3)) text) "..." ∧
   Z.of_nat (Js.len r) = (4 * maxTokens)%Z ∧
   Z.of_nat (estimateTokens r) = maxTokens) ∧
  ((1 ≤ maxTokens)%Z → (Z.of_nat (estimateTokens r) ≤ maxTokens)%Z) ∧
  ((maxTokens ≤ 0)%Z → 0 < Js.len text →
   r = String.append
         (Js.slice0 (Z.to_nat (Z.of_nat (Js.len text) + (4 * maxTokens - 3)))
                    text) "..." ∧
   3 ≤ Js.len r ∧ (maxTokens < Z.of_nat (estimateTokens r))%Z).
Proof.
  cbn zeta. split; [|split; [|split]];
    [| |apply truncateToTokens_fits|]; unfold truncateToTokens;
    replace (maxTokens * 4)%Z with (4 * maxTokens)%Z by lia;
    set (n := Js.len text).
  - intros Hfit. by rewrite (proj2 (Z.leb_le _ _) Hfit).
  - intros Hm Hlen. assert ((Z.of_nat n <=? 4 * maxTokens)%Z = false) as ->
      by lia.
    destruct (truncateToTokens_long text maxTokens Hm Hlen) as [Heq Hl].
    split; [done|]. split; [done|].
    unfold estimateTokens.
    set (k := Js.len (String.append _ _)) in *.
    assert (ceil_div4 k ≤ Z.to_nat maxTokens) by (apply ceil_div4_le; lia).
    assert (Z.to_nat maxTokens ≤ ceil_div4 k) by (apply ceil_div4_ge; lia).
    lia.
  - intros Hm Hpos.
    assert ((Z.of_nat n <=? 4 * maxTokens)%Z = false) as -> by lia.
    unfold slice_to. fold n.
    assert ((4 * maxTokens - 3 <? 0)%Z = true) as -> by lia.
    assert (Z.to_nat (Z.max 0 (Z.of_nat n + (4 * maxTokens - 3)))
            = Z.to_nat (Z.of_nat n + (4 * maxTokens - 3))) as -> by lia.
    split; [done|].
    assert (Hl : 3 ≤ Js.len (String.append
              (Js.slice0 (Z.to_nat (Z.of_nat n + (4 * maxTokens - 3))) text)
              "...")).
    { rewrite len_append. cbn [Js.len String.length]. lia. }
    split; [done|]. unfold estimateTokens.
    set (k := Js.len (String.append (Js.slice0 _ text) _)) in *.
    pose proof (ceil_div4_pos k ltac:(lia)). lia.
Qed.

End Truncation.

Section Budgets.
Import Hydrator.

Variable toISOString : Z → string.
Variable percent : Q → string.

Lemma fill_spec budget items :
  ∀ parts tokens, ∃ k,
    k ≤ length items ∧
    (fill budget parts tokens items).1 = parts ++ take k items ∧
    (fill budget parts tokens items).2
      = tokens + foldr Nat.add 0 (estimateTokens <$> take k items) ∧
    ((fill budget parts tokens items).2 = tokens ∨
     (Z.of_nat (fill budget parts tokens items).2 ≤ budget)%Z) ∧
    (∀ x, items !! k = Some x →
          (budget < Z.of_nat ((fill budget parts tokens items).2
                              + estimateTokens x))%Z).
Proof.
  induction items as [|x items IH]; intros parts tokens.
  - exists 0. cbn. rewrite app_nil_r. split; [done|]. split; [done|].
    split; [lia|]. split; [by left|done].
  - cbn [fill].
    destruct (Z.of_nat (tokens + estimateTokens x) <=? budget)%Z eqn:Hfit.
    + apply Z.leb_le in Hfit.
      destruct (IH (parts ++ [x]) (tokens + estimateTokens x))
        as (k & Hk & Hparts & Htok & Hbound & Hnext).
      exists (S k). split; [cbn; lia|]. split.
      { rewrite Hparts. cbn [take]. by rewrite <- (assoc_L (++)). }
      split.
      { rewrite Htok. cbn. lia. }
      split; [|done]. right. destruct Hbound as [->|Hb]; [done|done].
    + apply Z.leb_gt in Hfit. exists 0. cbn. rewrite app_nil_r.
      split; [lia|]. split; [done|]. split; [lia|]. split; [by left|].
      intros y Hy. injection Hy as <-. done.
Qed.


End Budgets.

Section HydrateFacts.
Import Facts.

Local Notation "'view'" :=
  (λ f : fact, (key f, value f, category f)).

Lemma by_key_views k t :
  (λ p : nat * fact, view p.2) <$> by_key k t
  = filter (λ v : string * string * option factCategory, v.1.1 = k)
           (view <$> t).
Proof.
  induction t as [|x t IH] using rev_ind; [done|].
  rewrite by_key_snoc, !fmap_app, filter_app, IH. f_equal.
  cbn [fmap list_fmap]. rewrite filter_cons, filter_nil. cbn.
  by case_decide.
Qed.

Lemma lookup_facts_one k t :
  Hydrator.lookup_facts [k] t =
  match head (filter (λ v : string * string * option factCategory,
                        v.1.1 = k) (view <$> t)) with
  | Some v => [v]
  | None => []
  end.
Proof.
  rewrite <- by_key_views. unfold Hydrator.lookup_facts. cbn.
  by destruct (by_key k t).
Qed.

Lemma head_filter_first {A} (P : A → Prop) `{!∀ x, Decision (P x)}
    (l : list A) i v :
  l !! i = Some v → P v → (∀ j y, j < i → l !! j = Some y → ¬ P y) →
  head (filter P l) = Some v.
Proof.
  revert i. induction l as [|x l IH]; intros i Hi Hv Hfirst; [done|].
  rewrite filter_cons. destruct i as [|i].
  - cbn in Hi. injection Hi as ->. by rewrite decide_True.
  - rewrite decide_False by (apply (Hfirst 0); [lia|done]).
    apply (IH i); [done|done|].
    intros j y Hj Hy. apply (Hfirst (S j)); [lia|done].
Qed.

Lemma head_filter_app {A} (P : A → Prop) `{!∀ x, Decision (P x)}
    (l l' : list A) v :
  head (filter P l) = Some v → head (filter P (l ++ l')) = Some v.
Proof.
  rewrite filter_app. by destruct (filter P l).
Qed.

Lemma views_store now a t :
  view <$> (store now a t).2 = (view <$> t) ++ [view (new_row now a)].
Proof.
  rewrite store_spec. cbn [snd]. rewrite fmap_app. f_equal.
  rewrite <- list_fmap_compose. apply list_fmap_ext.
  intros i x _. cbn. unfold supersede_row. by case_decide.
Qed.

Lemma views_remove now j y t :
  t !! j = Some y →
  view <$> remove now j t = (view <$> t) ++ [view (deleted_row now y)].
Proof.
  intros Hj.
  assert (Ht : view <$> t
               = (view <$> take j t) ++ view y :: (view <$> drop (S j) t)).
  { rewrite <- (take_drop_middle t j y Hj) at 1. by rewrite fmap_app. }
  rewrite (remove_spec now j y t Hj), Ht.
  rewrite !fmap_app, !fmap_cons, !fmap_app.
  rewrite <- !(assoc_L (++)). done.
Qed.



End HydrateFacts.


(** ** Lineage tracker *)

Section LineageTable.
Import Lineage.

Lemma head_filter_imap {A} (P : A → Prop) `{!∀ x, Decision (P x)}
    (l : list A) :
  ∀ k i x,
    head (filter (λ p : nat * A, P p.2) (imap (λ i x, (k + i, x)) l))
      = Some (i, x) →
    ∃ i', i = k + i' ∧ l !! i' = Some x ∧ P x ∧
          ∀ j y, j < i' → l !! j = Some y → ¬ P y.
Proof.
  induction l as [|a l IH]; intros k i x Hh; [done|].
  rewrite imap_cons, filter_cons in Hh. cbn [snd] in Hh.
  destruct (decide (P a)) as [Ha|Ha].
  - cbn in Hh. injection Hh as <- <-. exists 0.
    split; [lia|]. split; [done|]. split; [done|]. intros j y Hj. lia.
  - erewrite (imap_ext _ (λ i x, (S k + i, x))) in Hh;
      [|intros; cbn; f_equal; lia].
    destruct (IH (S k) i x Hh) as (i' & -> & Hi' & Hx & Hfirst).
    exists (S i'). split; [lia|]. split; [done|]. split; [done|].
    intros [|j] y Hj Hy; cbn in Hy.
    + by injection Hy as <-.
    + apply (Hfirst j); [lia|done].
Qed.

Lemma head_filter_imap_None {A} (P : A → Prop) `{!∀ x, Decision (P x)}
    (l : list A) k :
  head (filter (λ p : nat * A, P p.2) (imap (λ i x, (k + i, x)) l)) = None →
  filter P l = [].
Proof.
  revert k. induction l as [|a l IH]; intros k Hh; [done|].
  rewrite imap_cons, filter_cons in Hh. rewrite filter_cons. cbn [snd] in Hh.
  destruct (decide (P a)) as [Ha|Ha]; [done|].
  erewrite (imap_ext _ (λ i x, (S k + i, x))) in Hh;
    [|intros; cbn; f_equal; lia].
  by apply (IH (S k)).
Qed.

Lemma first_by_itemId_Some id t i n :
  first_by_itemId id t = Some (i, n) →
  t !! i = Some n ∧ itemId n = id ∧
  (∀ j y, j < i → t !! j = Some y → itemId y ≠ id) ∧
  head (filter (λ n, itemId n = id) t) = Some n.
Proof.
  intros Hh. unfold first_by_itemId in Hh.
  destruct (head_filter_imap (λ n, itemId n = id) t 0 i n Hh)
    as (i' & -> & Hi & Hid & Hfirst).
  cbn. split; [done|]. split; [done|]. split; [done|].
  by apply (head_filter_first _ _ i').
Qed.

Lemma first_by_itemId_None id t :
  first_by_itemId id t = None → filter (λ n, itemId n = id) t = [].
Proof.
  intros Hh. by apply (head_filter_imap_None (λ n, itemId n = id) t 0).
Qed.

Lemma getLineage_head id t :
  getLineage id t = head (filter (λ n, itemId n = id) t).
Proof.
  unfold getLineage.
  destruct (first_by_itemId id t) as [[i n]|] eqn:E.
  - apply first_by_itemId_Some in E as (_ & _ & _ & ->). done.
  - apply first_by_itemId_None in E as ->. done.
Qed.

Lemma filter_alter_other id (f : node → node) i (t : list node) n :
  t !! i = Some n → itemId n ≠ id → itemId (f n) ≠ id →
  filter (λ n, itemId n = id) (alter f i t)
  = filter (λ n, itemId n = id) t.
Proof.
  intros Hi Hn Hfn.
  rewrite <- (take_drop_middle t i n Hi) at 2.
  rewrite <- (take_drop_middle (alter f i t) i (f n)).
  - rewrite take_alter, drop_alter.
    rewrite (decide_False (P := i < i)), (decide_False (P := S i ≤ i)) by lia.
    rewrite !filter_app, !filter_cons. by rewrite !decide_False.
  - by rewrite list_lookup_alter, Hi, decide_True.
Qed.

(** Property X26.  [recordLineage] keeps one row per item: it patches the
    first row of the item id when there is one and inserts otherwise.
    Afterwards [getLineage] of the id returns the recorded parents,
    deriver and clock, with the item type of the row that was there
    before (the patch does not write the type); [getLineage] of every
    other id is unchanged.  [recordFactLineage] always inserts: when the
    fact id already has a row, a second row is added and [getLineage]
    keeps returning the old one. *)
Theorem recordLineage_upsert (now : Z) (id : string) (ty : ItemType)
    (parents : list string) (deriver : string) (t : list node) :
  let r := recordLineage now id ty parents deriver t in
  getLineage id r.2
    = Some (mkNode id (default ty (itemType <$> getLineage id t))
                   parents deriver now) ∧
  (∀ id', id' ≠ id → getLineage id' r.2 = getLineage id' t) ∧
  itemId <$> r.2
    = (itemId <$> t) ++ match getLineage id t with Some _ => [] | None => [id] end ∧
  (NoDup (itemId <$> t) → NoDup (itemId <$> r.2)) ∧
  (∀ key turnId blockId old,
     getLineage (String.append "fact:" key) t = Some old →
     let t' := (recordFactLineage now key turnId blockId t).2 in
     getLineage (String.append "fact:" key) t' = Some old ∧
     length (filter (λ n, itemId n = String.append "fact:" key) t')
     = S (length (filter (λ n, itemId n = String.append "fact:" key) t))).
Proof.
  cbn zeta.
  assert (Hids : itemId <$> (recordLineage now id ty parents deriver t).2
            = (itemId <$> t) ++ match getLineage id t with Some _ => [] | None => [id] end).
  { unfold recordLineage, getLineage.
    destruct (first_by_itemId id t) as [[i n]|] eqn:E; cbn.
    - rewrite app_nil_r. clear. revert i.
      induction t as [|x t IH]; intros [|i]; cbn; try done.
      f_equal. apply IH.
    - by rewrite fmap_app. }
  split; [|split; [|split; [done|split]]].
  - rewrite !getLineage_head. unfold recordLineage.
    destruct (first_by_itemId id t) as [[i n]|] eqn:E; cbn [snd fst].
    + apply first_by_itemId_Some in E as (Hi & Hid & Hfirst & ->).
      cbn. rewrite <- Hid.
      apply (head_filter_first _ _ i).
      * by rewrite list_lookup_alter, Hi, decide_True.
      * done.
      * intros j y Hj Hy. rewrite list_lookup_alter_ne in Hy by lia.
        rewrite Hid. by apply (Hfirst j).
    + apply first_by_itemId_None in E. rewrite filter_app, !E, app_nil_l.
      rewrite filter_cons, decide_True by done. done.
  - intros id' Hne. rewrite !getLineage_head. unfold recordLineage.
    destruct (first_by_itemId id t) as [[i n]|] eqn:E; cbn [snd fst].
    + apply first_by_itemId_Some in E as (Hi & Hid & _).
      rewrite (filter_alter_other id' _ i t n); [done|done| |];
        cbn; congruence.
    + rewrite filter_app, filter_cons, decide_False by (cbn; congruence).
      by rewrite filter_nil, app_nil_r.
  - intros Hnd. rewrite Hids. rewrite getLineage_head.
    destruct (head (filter (λ n, itemId n = id) t)) as [n|] eqn:E.
    + by rewrite app_nil_r.
    + apply NoDup_app. split; [done|]. split; [|apply NoDup_singleton].
      intros x Hx Hx'. apply list_elem_of_singleton in Hx' as ->.
      apply list_elem_of_fmap in Hx as (n & Hn & Hin).
      apply head_None in E.
      assert (n ∈ filter (λ n, itemId n = id) t)
        by (apply list_elem_of_filter; done).
      rewrite E in H. by apply elem_of_nil in H.
  - intros key turnId blockId old Hold. unfold recordFactLineage.
    cbn [snd]. rewrite getLineage_head in *. split.
    + by apply head_filter_app.
    + rewrite filter_app, length_app, filter_cons, decide_True by done.
      cbn. lia.
Qed.

End LineageTable.

Section LineageIntegrity.
Import Lineage.

Lemma broken_fold_elem (ids : list string) (owner : string) refs :
  ∀ (broken : list (string * string)) p,
    p ∈ foldl (λ broken ref,
                 if negb (Js.Set_has ids ref)
                 then broken ++ [(owner, ref)] else broken) broken refs ↔
    p ∈ broken ∨ ∃ ref, ref ∈ refs ∧ (ref ∉ ids) ∧ p = (owner, ref).
Proof.
  induction refs as [|ref refs IH]; intros broken p.
  - cbn. split; [by left|]. intros [H|(r & Hr & _)]; [done|].
    by apply elem_of_nil in Hr.
  - cbn [foldl]. rewrite IH. unfold Js.Set_has.
    case_bool_decide as Hin; cbn [negb].
    + split.
      * intros [H|(r & Hr & Hrest)]; [by left|].
        right. exists r. split; [by right|done].
      * intros [H|(r & Hr & Hnot & ->)]; [by left|].
        apply elem_of_cons in Hr as [->|Hr]; [done|].
        right. by exists r.
    + rewrite elem_of_app, list_elem_of_singleton. split.
      * intros [[H| ->]|(r & Hr & Hrest)]; [by left| |].
        -- right. exists ref. split; [left|done].
        -- right. exists r. split; [by right|done].
      * intros [H|(r & Hr & Hnot & ->)]; [by left; left|].
        apply elem_of_cons in Hr as [->|Hr]; [by left; right|].
        right. by exists r.
Qed.

Lemma existsb_children (id : string) (all : list node) :
  existsb (λ l, bool_decide (id ∈ derivedFrom l)) all = true ↔
  ∃ l, l ∈ all ∧ id ∈ derivedFrom l.
Proof.
  rewrite existsb_exists. split.
  - intros (l & Hl & Hd). exists l. rewrite <- list_elem_of_In in Hl.
    by apply bool_decide_eq_true in Hd.
  - intros (l & Hl & Hd). exists l. rewrite <- list_elem_of_In.
    by rewrite bool_decide_eq_true.
Qed.

Lemma integrity_fold_elem (ids : list string) (all : list node) l :
  ∀ (acc : list string * list (string * string)),
    let r :=
      foldl (λ acc lineage,
               let broken :=
                 foldl (λ broken ref,
                          if negb (Js.Set_has ids ref)
                          then broken ++ [(itemId lineage, ref)]
                          else broken)
                       acc.2 (derivedFrom lineage) in
               let orphaned :=
                 if (length (derivedFrom lineage) =? 0)%nat
                 then
                   let hasChildren :=
                     existsb (λ l, bool_decide
                                     (itemId lineage ∈ derivedFrom l)) all in
                   if negb hasChildren then acc.1 ++ [itemId lineage]
                   else acc.1
                 else acc.1 in
               (orphaned, broken))
            acc l in
    (∀ p, p ∈ r.2 ↔
          p ∈ acc.2 ∨ ∃ n ref, n ∈ l ∧ ref ∈ derivedFrom n ∧ (ref ∉ ids) ∧
                               p = (itemId n, ref)) ∧
    (∀ id, id ∈ r.1 ↔
           id ∈ acc.1 ∨ ∃ n, n ∈ l ∧ itemId n = id ∧ derivedFrom n = [] ∧
                             ∀ c, c ∈ all → id ∉ derivedFrom c).
Proof.
  induction l as [|n l IH]; intros acc.
  - cbn. split.
    + intros p. split; [by left|]. intros [H|(n & r & Hn & _)]; [done|].
      by apply elem_of_nil in Hn.
    + intros id. split; [by left|]. intros [H|(n & Hn & _)]; [done|].
      by apply elem_of_nil in Hn.
  - cbn zeta. cbn [foldl]. cbn zeta in IH.
    edestruct IH as [IH2 IH1]. split.
    + intros p. rewrite IH2. cbn [snd]. rewrite broken_fold_elem. split.
      * intros [[H|(ref & Hr & Hnot & ->)]|(m & ref & Hm & Hrest)].
        -- by left.
        -- right. exists n, ref. split; [left|done].
        -- right. exists m, ref. split; [by right|done].
      * intros [H|(m & ref & Hm & Hr & Hnot & ->)]; [by left; left|].
        apply elem_of_cons in Hm as [->|Hm].
        -- left. right. by exists ref.
        -- right. by exists m, ref.
    + intros id. rewrite IH1. cbn [fst].
      assert (Horph : ∀ acc1 : list string,
        id ∈ (if (length (derivedFrom n) =? 0)%nat
              then if negb (existsb (λ l, bool_decide
                               (itemId n ∈ derivedFrom l)) all)
                   then acc1 ++ [itemId n] else acc1
              else acc1) ↔
        id ∈ acc1 ∨ (itemId n = id ∧ derivedFrom n = [] ∧
                     ∀ c, c ∈ all → id ∉ derivedFrom c)).
      { intros acc1. destruct (derivedFrom n) as [|d ds] eqn:Hd; cbn.
        - destruct (existsb _ all) eqn:Hex; cbn.
          + apply existsb_children in Hex as (c & Hc & Hin).
            split; [by left|]. intros [H|(<- & _ & Hno)]; [done|].
            by destruct (Hno c Hc).
          + rewrite elem_of_app, list_elem_of_singleton. split.
            * intros [H| ->]; [by left|]. right. split; [done|].
              split; [done|]. intros c Hc Hin.
              assert (existsb (λ l, bool_decide (itemId n ∈ derivedFrom l))
                              all = true)
                by (apply existsb_children; by exists c).
              congruence.
            * intros [H|(<- & _)]; [by left|by right].
        - split; [by left|]. by intros [H|(_ & ? & _)]. }
      rewrite Horph. split.
      * intros [[H|(Hid & Hd & Hno)]|(m & Hm & Hrest)].
        -- by left.
        -- right. exists n. split; [left|done].
        -- right. exists m. split; [by right|done].
      * intros [H|(m & Hm & Hid & Hd & Hno)]; [by left; left|].
        apply elem_of_cons in Hm as [->|Hm].
        -- left. by right.
        -- right. by exists m.
Qed.

(** Property X27.  [validateIntegrity] lists as broken exactly the pairs of
    an item and one of its parents that has no row in the table, and as
    orphaned exactly the items that have neither parents nor children; it
    answers [valid] exactly when every parent of every row has a row of
    its own.  So a table that holds only the row of [recordFactLineage]
    is not valid: the turn and the block it derives from have no rows. *)
Theorem validateIntegrity_spec (t : list node) :
  let r := validateIntegrity t in
  (∀ id ref, (id, ref) ∈ brokenReferences r ↔
     ∃ n, n ∈ t ∧ itemId n = id ∧ ref ∈ derivedFrom n ∧
          ref ∉ itemId <$> t) ∧
  (∀ id, id ∈ orphanedItems r ↔
     ∃ n, n ∈ t ∧ itemId n = id ∧ derivedFrom n = [] ∧
          ∀ c, c ∈ t → id ∉ derivedFrom c) ∧
  (valid r = true ↔
   ∀ n ref, n ∈ t → ref ∈ derivedFrom n → ref ∈ itemId <$> t) ∧
  (∀ now key turnId blockId,
     turnId ≠ String.append "fact:" key →
     valid (validateIntegrity
              (recordFactLineage now key turnId blockId []).2) = false).
Proof.
  cbn zeta.
  assert (Hspec : ∀ t, let r := validateIntegrity t in
    (∀ p, p ∈ brokenReferences r ↔
       ∃ n ref, n ∈ t ∧ ref ∈ derivedFrom n ∧ (ref ∉ itemId <$> t) ∧
                p = (itemId n, ref)) ∧
    (∀ id, id ∈ orphanedItems r ↔
       ∃ n, n ∈ t ∧ itemId n = id ∧ derivedFrom n = [] ∧
            ∀ c, c ∈ t → id ∉ derivedFrom c) ∧
    (valid r = true ↔ brokenReferences r = [])).
  { clear. intros t. cbn zeta. unfold validateIntegrity.
    pose proof (integrity_fold_elem (Js.Set_of (itemId <$> t)) t t ([], []))
      as Hfold. cbn zeta in Hfold.
    destruct (foldl _ ([], []) t) as [orph broken].
    cbn [fst snd] in Hfold. destruct Hfold as [Hb Ho].
    cbn [valid orphanedItems brokenReferences]. split; [|split].
    - intros p. rewrite Hb. split.
      + intros [H|(n & ref & Hn & Hr & Hnot & ->)];
          [by apply elem_of_nil in H|].
        exists n, ref. rewrite Set_of_elem_of in Hnot. done.
      + intros (n & ref & Hn & Hr & Hnot & ->). right.
        exists n, ref. rewrite Set_of_elem_of. done.
    - intros id. rewrite Ho. split.
      + intros [H|H]; [by apply elem_of_nil in H|done].
      + intros H. by right.
    - destruct broken; cbn; split; done. }
  destruct (Hspec t) as (Hb & Ho & Hv). cbn zeta in *.
  split; [|split; [done|split]].
  - intros id ref. rewrite Hb. split.
    + intros (n & r & Hn & Hr & Hnot & Heq). injection Heq as -> ->.
      by exists n.
    + intros (n & Hn & <- & Hr & Hnot). by exists n, ref.
  - rewrite Hv. split.
    + intros Hnil n ref Hn Hr.
      destruct (decide (ref ∈ itemId <$> t)) as [|Hnot]; [done|]. exfalso.
      assert (Hin : (itemId n, ref) ∈ brokenReferences (validateIntegrity t))
        by (apply Hb; by exists n, ref).
      rewrite Hnil in Hin. by apply elem_of_nil in Hin.
    + intros Hall. apply elem_of_nil_inv. intros p Hin.
      apply Hb in Hin as (n & ref & Hn & Hr & Hnot & _).
      by apply Hnot, (Hall n).
  - intros now key turnId blockId Hturn.
    destruct (Hspec (recordFactLineage now key turnId blockId []).2)
      as (Hb' & _ & Hv').
    cbn zeta in *. apply not_true_is_false. rewrite Hv'. intros Hnil.
    assert (Hin : (String.append "fact:" key, turnId)
                  ∈ brokenReferences (validateIntegrity
                      (recordFactLineage now key turnId blockId []).2)).
    { apply Hb'. eexists _, turnId. split; [left|].
      cbn [derivedFrom itemId]. split; [left|]. split; [|done].
      cbn. intros Hin. by apply list_elem_of_singleton in Hin. }
    rewrite Hnil in Hin. by apply elem_of_nil in Hin.
Qed.

End LineageIntegrity.


(** ** Tabula rasa with the metadata of the language model *)

Section ShiftWithMetadata.
Import Js TabulaRasa.

Lemma or_else_nonempty o d : d ≠ ""%string → or_else o d ≠ ""%string.
Proof.
  intros Hd. unfold or_else. destruct o as [x|]; [|done].
  destruct (len x =? 0) eqn:E; [done|]. intros ->. done.
Qed.

Lemma truthy_nonempty o :
  BridgeBlocks.truthy o = true → default ""%string o ≠ ""%string.
Proof. destruct o as [x|]; [|done]. cbn. by intros H ->. Qed.

Lemma checkForShift_label query kws :
  let r := checkForShift query kws in
  (isShift r = true → ∃ l, newTopicLabel r = Some l ∧ l ≠ ""%string) ∧
  (isShift r = false → newTopicLabel r = None).
Proof.
  cbn zeta. unfold checkForShift.
  destruct (length kws =? 0).
  { cbn. split; [|done]. intros _. eexists. split; [done|].
    by apply or_else_nonempty. }
  destruct (e_isShift (detectExplicitShift query)).
  { cbn. split; [|done]. intros _. eexists. split; [done|].
    by apply or_else_nonempty. }
  destruct (detectContinuation query); [by cbn|].
  cbn zeta. destruct (Qlt_le_dec _ _).
  - cbn. split; [|done]. intros _. eexists. split; [done|].
    by apply or_else_nonempty.
  - by cbn.
Qed.


End ShiftWithMetadata.


(** ** Chunking: the pieces of a text and the chunks of a turn *)

Section Pieces.
Import Js Regex Chunking.

Lemma trim_start_head l c :
  head (trim_start l) = Some c → is_space c = false.
Proof.
  induction l as [|x l IH]; [done|]. cbn [trim_start].
  destruct (is_space x) eqn:Hx; [done|]. cbn. by intros [= <-].
Qed.

Lemma trim_start_id l :
  (∀ c, head l = Some c → is_space c = false) → trim_start l = l.
Proof.
  destruct l as [|x l]; [done|]. intros H. cbn.
  by rewrite (H x eq_refl).
Qed.

Lemma trim_start_suffix l : ∃ k, trim_start l = drop k l.
Proof.
  induction l as [|x l [k IH]]; [by exists 0|]. cbn [trim_start].
  destruct (is_space x); [by exists (S k)|by exists 0].
Qed.

Lemma head_reverse_drop (l : list ascii) k c :
  head (reverse (drop k (reverse l))) = Some c → head l = Some c.
Proof.
  rewrite <- (reverse_involutive l) at 2.
  rewrite <- (take_drop k (reverse l)) at 2.
  rewrite reverse_app.
  destruct (reverse (drop k (reverse l))); [done|]. done.
Qed.

Lemma last_reverse (l : list ascii) : last (reverse l) = head l.
Proof.
  destruct l as [|x l]; [done|]. by rewrite reverse_cons, last_snoc.
Qed.

Lemma head_reverse (l : list ascii) : head (reverse l) = last l.
Proof. by rewrite <- last_reverse, reverse_involutive. Qed.

(** A trimmed text neither starts nor ends with whitespace. *)
Lemma trim_chars_ends l c :
  (head (trim_chars l) = Some c → is_space c = false) ∧
  (last (trim_chars l) = Some c → is_space c = false).
Proof.
  unfold trim_chars. split.
  - destruct (trim_start_suffix (reverse (trim_start l))) as [k ->].
    intros Hh. apply head_reverse_drop in Hh. by apply trim_start_head in Hh.
  - rewrite last_reverse. apply trim_start_head.
Qed.

Lemma trim_chars_idem l : trim_chars (trim_chars l) = trim_chars l.
Proof.
  set (x := trim_chars l). unfold trim_chars.
  rewrite (trim_start_id x)
    by (intros c; apply (proj1 (trim_chars_ends l c))).
  rewrite (trim_start_id (reverse x)).
  - apply reverse_involutive.
  - intros c. rewrite head_reverse. apply (proj2 (trim_chars_ends l c)).
Qed.

Lemma trim_idem s : trim (trim s) = trim s.
Proof. unfold trim. by rewrite chars_str, trim_chars_idem. Qed.

Lemma strip_nil_all_ws l :
  strip_ws_chars l = [] → Forall (λ c, is_space c = true) l.
Proof.
  induction l as [|c l IH]; [done|]. unfold strip_ws_chars in *.
  rewrite filter_cons. case_decide as Hc; [done|].
  intros H. constructor; [by destruct (is_space c)|by apply IH].
Qed.

Lemma trim_start_all_ws l :
  Forall (λ c, is_space c = true) l → trim_start l = [].
Proof. induction 1 as [|c l Hc _ IH]; [done|]. cbn. by rewrite Hc. Qed.

Lemma trim_nil_iff l : trim_chars l = [] ↔ strip_ws_chars l = [].
Proof.
  split.
  - intros H. rewrite <- strip_ws_chars_trim, H. done.
  - intros H. apply strip_nil_all_ws in H. unfold trim_chars.
    by rewrite (trim_start_all_ws l H).
Qed.

Lemma str_nil_iff l : str l = ""%string ↔ l = [].
Proof.
  split; [|by intros ->]. intros H.
  rewrite <- (chars_str l), H. done.
Qed.

Lemma trimmed_piece (l : list string) p :
  p ∈ filter nonempty (trim <$> l) → 0 < len p ∧ trim p = p.
Proof.
  intros Hp. apply list_elem_of_filter in Hp as [Hne Hp].
  apply list_elem_of_fmap in Hp as (s & -> & _).
  split; [done|apply trim_idem].
Qed.

Lemma stripped_nil_pieces (l : list string) :
  stripped (filter nonempty (trim <$> l)) = [] →
  filter nonempty (trim <$> l) = [].
Proof.
  intros Hs.
  destruct (filter nonempty (trim <$> l)) as [|p ps] eqn:E; [done|].
  exfalso.
  assert (Hp : p ∈ filter nonempty (trim <$> l)) by (rewrite E; left).
  apply trimmed_piece in Hp as [Hne Htrim].
  unfold stripped in Hs. cbn in Hs. apply app_eq_nil in Hs as [Hs _].
  apply trim_nil_iff in Hs.
  unfold trim in Htrim. rewrite Hs in Htrim. cbn in Htrim. subst p.
  cbn in Hne. lia.
Qed.

Lemma pieces_nil_iff r text :
  eats false is_space r →
  filter nonempty (trim <$> split false r text) = [] ↔
  trim text = ""%string.
Proof.
  intros Hr.
  assert (Ht : trim text = ""%string ↔ strip_ws_chars (chars text) = []).
  { unfold trim. by rewrite str_nil_iff, trim_nil_iff. }
  rewrite Ht, <- (stripped_split r text Hr). split.
  - by intros ->.
  - apply stripped_nil_pieces.
Qed.

Lemma splitIntoParagraphs_pieces text :
  splitIntoParagraphs text
  = filter nonempty (trim <$> split false paragraph_break text).
Proof.
  unfold splitIntoParagraphs. cbn zeta.
  destruct (length _ =? 0) eqn:Hlen; [|done].
  destruct (0 <? len (trim text)) eqn:Htrim; [|done]. exfalso.
  apply Nat.eqb_eq, length_zero_iff_nil in Hlen.
  apply (pieces_nil_iff _ _ paragraph_break_eats) in Hlen.
  rewrite Hlen in Htrim. done.
Qed.

(** Property X29.  The fallback of [splitIntoParagraphs] is never taken:
    the function is the trimmed, non-empty pieces of the split at blank
    lines.  Every paragraph and every sentence that the splitters return
    is non-empty and has no whitespace at either end, and a splitter
    returns nothing exactly when the text consists of whitespace only. *)
Theorem splitters_return_trimmed_pieces (text : string) :
  splitIntoParagraphs text
    = filter nonempty (trim <$> split false paragraph_break text) ∧
  (∀ p, p ∈ splitIntoParagraphs text ∨ p ∈ splitIntoSentences text →
        0 < len p ∧ trim p = p) ∧
  (splitIntoParagraphs text = [] ↔ trim text = ""%string) ∧
  (splitIntoSentences text = [] ↔ trim text = ""%string).
Proof.
  pose proof (splitIntoParagraphs_pieces text) as Hpar.
  split; [done|]. split; [|split].
  - intros p [Hp|Hp].
    + rewrite Hpar in Hp. by apply trimmed_piece in Hp.
    + by apply trimmed_piece in Hp.
  - rewrite Hpar. apply pieces_nil_iff, paragraph_break_eats.
  - apply pieces_nil_iff, sentence_break_eats.
Qed.

End Pieces.

Section ChunksOfATurn.
Import Js Regex Chunking.

Local Notation "'well_formed' turnId" :=
  (λ c : Chunk,
     c_turnId c = turnId ∧ 0 < len (textVerbatim c) ∧
     tokenCount c = estimateTokenCount (textVerbatim c) ∧
     lexicalFilters c = extractKeywords (textVerbatim c) ∧
     (c_type c = paragraph → parentChunkId c = None) ∧
     (c_type c = sentence → is_Some (parentChunkId c)))
  (at level 10, turnId at level 9).

Lemma sentence_loop_well_formed e turnId pid (l : list string) :
  Forall (λ s, 0 < len s) l →
  ∀ st, Forall (well_formed turnId) (chunks st) →
    Forall (well_formed turnId)
      (chunks
         (foldl (λ st sentenceText,
                   mkLoop (chunks st ++
                             [mkChunk (generateChunkId e (calls st) sentence
                                                       (sentenceIndex st))
                                      sentence sentenceText
                                      (extractKeywords sentenceText)
                                      (Some pid) turnId
                                      (estimateTokenCount sentenceText)])
                          (S (sentenceIndex st)) (S (calls st)))
                st l)).
Proof.
  induction 1 as [|s l Hs _ IH]; intros st Hst; [done|].
  cbn [foldl]. apply IH. cbn [chunks]. apply Forall_app. split; [done|].
  constructor; [|done]. cbn. by split_and!.
Qed.

Lemma chunk_paragraph_well_formed e turnId st pIndex p :
  0 < len p → Forall (well_formed turnId) (chunks st) →
  Forall (well_formed turnId) (chunks (chunk_paragraph e turnId st pIndex p)).
Proof.
  intros Hp Hst. unfold chunk_paragraph.
  apply sentence_loop_well_formed.
  - apply Forall_forall. intros s Hs. unfold splitIntoSentences in Hs.
    by apply trimmed_piece in Hs as [Hs _].
  - cbn [chunks]. apply Forall_app. split; [done|].
    constructor; [|done]. cbn. by split_and!.
Qed.

Lemma chunkText_well_formed e text turnId :
  Forall (well_formed turnId) (chunkText e text turnId).
Proof.
  unfold chunkText.
  assert (Hps : Forall (λ p, 0 < len p) (splitIntoParagraphs text)).
  { apply Forall_forall. intros p Hp.
    rewrite splitIntoParagraphs_pieces in Hp.
    by apply trimmed_piece in Hp as [Hp _]. }
  revert Hps. generalize (splitIntoParagraphs text). intros ps Hps.
  assert (Hgen : ∀ (l : list (nat * string)) st,
            Forall (λ p, 0 < len p.2) l →
            Forall (well_formed turnId) (chunks st) →
            Forall (well_formed turnId)
              (chunks (foldl (λ st p, chunk_paragraph e turnId st p.1 p.2)
                             st l))).
  { clear. induction l as [|[i p] l IH]; intros st Hl Hst; [done|].
    apply Forall_cons in Hl as [Hp Hl]. cbn [foldl]. apply IH; [done|].
    by apply chunk_paragraph_well_formed. }
  apply Hgen; [|done].
  apply Forall_forall. intros [i p] Hin.
  apply elem_of_imap_pair in Hin. cbn.
  rewrite Forall_forall in Hps. apply Hps.
  by apply list_elem_of_lookup_2 in Hin.
Qed.

Lemma chunkTurn_fold (clock : nat → Z) b (cs : list Chunk) :
  ∀ k (acc : chunkStats * list chunkRow),
    foldl (λ acc (p : nat * Chunk),
             let chunk := p.2 in
             let t' := acc.2 ++ [mkRow chunk b (clock p.1)] in
             match c_type chunk with
             | sentence =>
                 (mkChunkStats (S (sentenceCount acc.1))
                               (paragraphCount acc.1)
                               (totalTokens acc.1 + tokenCount chunk), t')
             | paragraph =>
                 (mkChunkStats (sentenceCount acc.1)
                               (S (paragraphCount acc.1))
                               (totalTokens acc.1 + tokenCount chunk), t')
             end)
          acc (imap (λ i c, (k + i, c)) cs)
    = (mkChunkStats
         (sentenceCount acc.1
          + length (filter (λ c, c_type c = sentence) cs))
         (paragraphCount acc.1
          + length (filter (λ c, c_type c = paragraph) cs))
         (totalTokens acc.1 + foldr Nat.add 0 (tokenCount <$> cs)),
       acc.2 ++ imap (λ i c, mkRow c b (clock (k + i))) cs).
Proof.
  induction cs as [|c cs IH]; intros k [[sc pc tt] t].
  - cbn. by rewrite !Nat.add_0_r, app_nil_r.
  - rewrite !imap_cons. cbn [foldl].
    erewrite (imap_ext ((λ i c, (k + i, c)) ∘ S) (λ i c, (S k + i, c)));
      [|intros; cbn; f_equal; lia].
    erewrite (imap_ext ((λ i c, mkRow c b (clock (k + i))) ∘ S)
                       (λ i c, mkRow c b (clock (S k + i))));
      [|intros; cbn; do 2 f_equal; lia].
    rewrite IH. rewrite !filter_cons. cbn [fst snd].
    rewrite Nat.add_0_r.
    destruct (c_type c) eqn:Hty;
      cbn [fst snd sentenceCount paragraphCount totalTokens].
    + rewrite decide_True, decide_False by done.
      cbn [length fmap list_fmap foldr]. rewrite <- (assoc_L (++)).
      f_equal. f_equal; lia.
    + rewrite decide_False, decide_True by done.
      cbn [length fmap list_fmap foldr]. rewrite <- (assoc_L (++)).
      f_equal. f_equal; lia.
Qed.

Lemma count_types_ungroup ps gs :
  Forall2 group_of ps gs →
  length (filter (λ c, c_type c = paragraph) (ungroup gs)) = length ps ∧
  length (filter (λ c, c_type c = sentence) (ungroup gs))
    = length (List.concat (splitIntoSentences <$> ps)).
Proof.
  induction 1 as [|p [pc ss] ps gs (Hpc & Htext & Hss & Hall) _ [IH1 IH2]];
    [done|].
  cbn [fst snd] in *.
  change (ungroup ((pc, ss) :: gs)) with (pc :: ss ++ ungroup gs).
  rewrite !filter_cons.
  rewrite decide_True by done. rewrite decide_False by congruence.
  rewrite !filter_app. cbn [length]. rewrite !length_app.
  assert (Hs : filter (λ c, c_type c = sentence) ss = ss).
  { clear -Hall. induction Hall as [|c ss [Hc _] _ IH]; [done|].
    rewrite filter_cons, decide_True by done. by rewrite IH. }
  assert (Hp : filter (λ c, c_type c = paragraph) ss = []).
  { clear -Hall. induction Hall as [|c ss [Hc _] _ IH]; [done|].
    rewrite filter_cons, decide_False by congruence. done. }
  rewrite Hs, Hp. cbn [length fmap list_fmap List.concat].
  rewrite length_app, IH1, IH2, <- Hss, length_fmap. done.
Qed.

Lemma count_types_total (cs : list Chunk) :
  length (filter (λ c, c_type c = sentence) cs)
  + length (filter (λ c, c_type c = paragraph) cs) = length cs.
Proof.
  induction cs as [|c cs IH]; [done|]. rewrite !filter_cons.
  destruct (c_type c) eqn:Hty.
  - rewrite decide_True, decide_False by done. cbn. lia.
  - rewrite decide_False, decide_True by done. cbn. lia.
Qed.

Lemma sentences_per_paragraph (ps : list string) :
  Forall (λ p, 0 < len p ∧ trim p = p) ps →
  length ps ≤ length (List.concat (splitIntoSentences <$> ps)).
Proof.
  induction 1 as [|p ps [Hne Htrim] _ IH]; [done|].
  cbn [fmap list_fmap List.concat length]. rewrite length_app.
  assert (0 < length (splitIntoSentences p)); [|lia].
  destruct (splitIntoSentences p) as [|s l] eqn:E; [|cbn; lia]. exfalso.
  apply (pieces_nil_iff _ _ sentence_break_eats) in E.
  rewrite Htrim in E. subst p. cbn in Hne. lia.
Qed.


End ChunksOfATurn.
